(** * Protocol resolution of the DeFiLlama client

    A shallow embedding of [DefiLlamaClient.resolve_protocol] and
    [DefiLlamaClient._build_parent_result] (src/defillama.py), together with
    the parts of Python's standard library they call: [str] methods,
    insertion-ordered [dict], [collections.Counter.most_common],
    [heapq.nlargest] and [difflib.get_close_matches].

    Modelling conventions.
    - A Python [str] is a Rocq [string] read as ASCII text: case mapping acts
      on the letters A-Z / a-z and whitespace is the ASCII whitespace of
      [str.isspace]; other characters are left alone.  The string methods
      and the similarity ratios are those of Python on the strings for which
      [str.isascii] holds ([PyStr.isascii]); outside of them Python also
      maps the case of, and strips, characters that the model leaves alone.
      A statement that is restricted to ASCII text says so with the
      hypotheses [ascii_snapshot protocols = true], on the slugs, names and
      parent references of the snapshot, and [PyStr.isascii user_input =
      true], on the input.
    - A [dict] is an association list kept in insertion order; assigning to an
      existing key replaces the value in place.
    - A [set] is a duplicate-free list; the order in which Python iterates over
      it is not fixed by the language, so it is a parameter [set_iter] of the
      resolver, constrained only to enumerate the same elements.
    - The similarity ratios of difflib are floats of the form [2.0 * m / t]
      with integers [m <= t]; they are kept as exact rationals.  Two such
      quotients, and the cutoffs 0.85 and 0.4, are ordered by IEEE double
      arithmetic exactly as their rational values as long as the strings are
      shorter than 2^25 characters, which is the range of the model.
    - A record of the snapshot is a JSON object whose fields may be absent;
      a field that is present holds a string. *)

From Stdlib Require Import String Ascii List Bool Arith PeanoNat Lia.
From Stdlib Require Import ZArith QArith Permutation Sorted.
Import ListNotations.

Local Open Scope string_scope.
Local Open Scope nat_scope.
Local Open Scope list_scope.

(* ================================================================== *)
(** * Python string methods *)
(* ================================================================== *)

Module PyStr.

Definition code (c : ascii) : nat := nat_of_ascii c.

Definition isupper (c : ascii) : bool := (65 <=? code c) && (code c <=? 90).
Definition islower (c : ascii) : bool := (97 <=? code c) && (code c <=? 122).

(** [str.isspace] on the ASCII range: TAB..CR, FS..US and the blank. *)
Definition isspace (c : ascii) : bool :=
  ((9 <=? code c) && (code c <=? 13))
  || ((28 <=? code c) && (code c <=? 32)).

Definition lower_char (c : ascii) : ascii :=
  if isupper c then ascii_of_nat (code c + 32) else c.
Definition upper_char (c : ascii) : ascii :=
  if islower c then ascii_of_nat (code c - 32) else c.

(** [s.lower()] on ASCII text: the letters A-Z are lowered. *)
Fixpoint lower (s : string) : string :=
  match s with
  | EmptyString => EmptyString
  | String c s' => String (lower_char c) (lower s')
  end.

(** [s.lstrip()], [s.rstrip()], [s.strip()] on ASCII text *)
Fixpoint lstrip (s : string) : string :=
  match s with
  | EmptyString => EmptyString
  | String c s' => if isspace c then lstrip s' else s
  end.

Fixpoint rstrip (s : string) : string :=
  match s with
  | EmptyString => EmptyString
  | String c s' =>
      match rstrip s' with
      | EmptyString => if isspace c then EmptyString else String c EmptyString
      | r => String c r
      end
  end.

Definition strip (s : string) : string := rstrip (lstrip s).

(** [s.replace(a, b)] for one-character [a] and [b] *)
Fixpoint replace (a b : ascii) (s : string) : string :=
  match s with
  | EmptyString => EmptyString
  | String c s' => String (if Ascii.eqb c a then b else c) (replace a b s')
  end.

(** [s.startswith(p)] *)
Definition startswith (p s : string) : bool := String.prefix p s.

(** [s.split(sep)[0]] for a non-empty [sep]: the text before the first
    occurrence of [sep], or all of [s] when [sep] does not occur. *)
Fixpoint split_head (sep s : string) : string :=
  if String.prefix sep s then EmptyString
  else match s with
       | EmptyString => EmptyString
       | String c s' => String c (split_head sep s')
       end.

(** [s.split(c, 1)[1]]: the text after the first occurrence of the
    character [c].  Python raises IndexError when [c] does not occur; the
    resolver only calls it on strings that start with ["parent#"]. *)
Fixpoint split1_tail (c : ascii) (s : string) : string :=
  match s with
  | EmptyString => EmptyString
  | String d s' => if Ascii.eqb d c then s' else split1_tail c s'
  end.

(** [s.title()] on ASCII text: a letter that follows a letter is lowered,
    any other letter is raised. *)
Fixpoint title_from (previous_is_cased : bool) (s : string) : string :=
  match s with
  | EmptyString => EmptyString
  | String c s' =>
      if islower c then
        String (if previous_is_cased then c else upper_char c)
               (title_from true s')
      else if isupper c then
        String (if previous_is_cased then lower_char c else c)
               (title_from true s')
      else String c (title_from false s')
  end.

Definition title (s : string) : string := title_from false s.

(** [sep.join(l)] *)
Definition join (sep : string) (l : list string) : string :=
  String.concat sep l.

(** A string made of whitespace only. *)
Fixpoint all_space (s : string) : bool :=
  match s with
  | EmptyString => true
  | String c s' => isspace c && all_space s'
  end.

(** [s.isascii()]: every character is below 128. *)
Fixpoint isascii (s : string) : bool :=
  match s with
  | EmptyString => true
  | String c s' => (code c <? 128) && isascii s'
  end.

End PyStr.

(* ================================================================== *)
(** * Insertion-ordered dictionaries with string keys *)
(* ================================================================== *)

Module Dict.
Section WithValue.
Context {V : Type}.

Definition t := list (string * V).

Definition empty : t := [].

(** [d.get(k)] *)
Fixpoint get (k : string) (d : t) : option V :=
  match d with
  | [] => None
  | (k', v) :: d' => if String.eqb k k' then Some v else get k d'
  end.

(** [k in d] *)
Definition mem (k : string) (d : t) : bool :=
  match get k d with Some _ => true | None => false end.

(** [d[k] = v]: an existing key keeps its position. *)
Fixpoint set (k : string) (v : V) (d : t) : t :=
  match d with
  | [] => [(k, v)]
  | (k', v') :: d' =>
      if String.eqb k k' then (k, v) :: d' else (k', v') :: set k v d'
  end.

Definition keys (d : t) : list string := map fst d.
Definition items (d : t) : list (string * V) := d.
End WithValue.
Arguments t : clear implicits.
End Dict.

(** A Python [set] of strings, as the duplicate-free list of its elements. *)
Module PySet.
Definition t := list string.
Definition empty : t := [].
Definition mem (x : string) (s : t) : bool := existsb (String.eqb x) s.
Definition add (x : string) (s : t) : t := if mem x s then s else s ++ [x].
End PySet.


(* ================================================================== *)
(** * difflib: SequenceMatcher ratios and get_close_matches *)
(* ================================================================== *)

Module Difflib.

(** [_calculate_ratio(matches, length)] *)
Definition _calculate_ratio (matches length : nat) : Q :=
  if length =? 0 then 1%Q
  else Qmake (2 * Z.of_nat matches) (Pos.of_nat length).

(** The state of a [SequenceMatcher()] (no junk predicate, autojunk on)
    after [set_seq1(a)] and [set_seq2(b)]: the two sequences and the index
    [b2j] of the positions of each element of [b]. *)
Definition b2j_t := list (ascii * list nat).

Fixpoint b2j_get (elt : ascii) (b2j : b2j_t) : list nat :=
  match b2j with
  | [] => []
  | (e, idxs) :: rest => if Ascii.eqb elt e then idxs else b2j_get elt rest
  end.

(** [b2j.setdefault(elt, []).append(i)] *)
Fixpoint b2j_append (elt : ascii) (i : nat) (b2j : b2j_t) : b2j_t :=
  match b2j with
  | [] => [(elt, [i])]
  | (e, idxs) :: rest =>
      if Ascii.eqb elt e then (e, idxs ++ [i]) :: rest
      else (e, idxs) :: b2j_append elt i rest
  end.

Fixpoint enumerate_from {A : Type} (i : nat) (l : list A) : list (nat * A) :=
  match l with
  | [] => []
  | x :: l' => (i, x) :: enumerate_from (S i) l'
  end.

(** [__chain_b]: with [isjunk = None] the junk set stays empty; elements
    occurring more than [n // 100 + 1] times in a [b] of 200 elements or
    more are "popular" and leave [b2j]. *)
Definition chain_b (b : list ascii) : b2j_t :=
  let b2j :=
    fold_left (fun d ie => b2j_append (snd ie) (fst ie) d)
              (enumerate_from 0 b) [] in
  let n := length b in
  if 200 <=? n then
    let ntest := n / 100 + 1 in
    filter (fun kv => negb (ntest <? length (snd kv))) b2j
  else b2j.

(** [j2len.get(j - 1, 0)] *)
Fixpoint j2len_lookup (j : nat) (j2len : list (nat * nat)) : nat :=
  match j2len with
  | [] => 0
  | (j', k) :: rest => if j =? j' then k else j2len_lookup j rest
  end.

Definition j2len_get_pred (j : nat) (j2len : list (nat * nat)) : nat :=
  match j with
  | 0 => 0
  | S j' => j2len_lookup j' j2len
  end.

(** The triple [(besti, bestj, bestsize)]. *)
Definition Match := (nat * nat * nat)%type.

(** The inner loop of [find_longest_match], over the positions [j] of
    [a[i]] in [b].  A run of length [k] that ends at [i] and [j] has
    [k <= i + 1] and [k <= j + 1], so [i - k + 1] is written [i + 1 - k]
    on natural numbers. *)
Fixpoint scan_positions (j2len : list (nat * nat)) (i blo bhi : nat)
    (js : list nat) (newj2len : list (nat * nat)) (best : Match)
    : list (nat * nat) * Match :=
  match js with
  | [] => (newj2len, best)
  | j :: js' =>
      if j <? blo then scan_positions j2len i blo bhi js' newj2len best
      else if bhi <=? j then (newj2len, best)
      else
        let k := j2len_get_pred j j2len + 1 in
        let '(besti, bestj, bestsize) := best in
        let best' :=
          if bestsize <? k then (i + 1 - k, j + 1 - k, k) else best in
        scan_positions j2len i blo bhi js' ((j, k) :: newj2len) best'
  end.

(** The outer loop, over [i] in [range(alo, ahi)]. *)
Fixpoint scan_rows (a : list ascii) (b2j : b2j_t) (blo bhi : nat)
    (rows : list nat) (j2len : list (nat * nat)) (best : Match) : Match :=
  match rows with
  | [] => best
  | i :: rows' =>
      match nth_error a i with
      | None => best
      | Some ai =>
          let '(newj2len, best') :=
            scan_positions j2len i blo bhi (b2j_get ai b2j) [] best in
          scan_rows a b2j blo bhi rows' newj2len best'
      end
  end.

Definition same_at (a b : list ascii) (i j : nat) : bool :=
  match nth_error a i, nth_error b j with
  | Some x, Some y => Ascii.eqb x y
  | _, _ => false
  end.

(** First extension loop: grow the block to the left. *)
Fixpoint extend_left (a b : list ascii) (alo blo : nat)
    (besti bestj bestsize : nat) {struct besti} : Match :=
  match besti, bestj with
  | S i', S j' =>
      if (alo <? besti) && (blo <? bestj) && same_at a b i' j'
      then extend_left a b alo blo i' j' (S bestsize)
      else (besti, bestj, bestsize)
  | _, _ => (besti, bestj, bestsize)
  end.

(** Second extension loop: grow the block to the right; [room] bounds the
    number of iterations by [ahi - (besti + bestsize)]. *)
Fixpoint extend_right (a b : list ascii) (ahi bhi : nat)
    (besti bestj bestsize : nat) (room : nat) : Match :=
  match room with
  | 0 => (besti, bestj, bestsize)
  | S room' =>
      if (besti + bestsize <? ahi) && (bestj + bestsize <? bhi)
         && same_at a b (besti + bestsize) (bestj + bestsize)
      then extend_right a b ahi bhi besti bestj (S bestsize) room'
      else (besti, bestj, bestsize)
  end.

(** [find_longest_match(alo, ahi, blo, bhi)].  The two loops that extend the
    block over junk elements never run, the junk set being empty. *)
Definition find_longest_match (a b : list ascii) (b2j : b2j_t)
    (alo ahi blo bhi : nat) : Match :=
  let '(besti, bestj, bestsize) :=
    scan_rows a b2j blo bhi (seq alo (ahi - alo)) [] (alo, blo, 0) in
  let '(besti, bestj, bestsize) :=
    extend_left a b alo blo besti bestj bestsize in
  extend_right a b ahi bhi besti bestj bestsize (ahi - (besti + bestsize)).

(** The sum of the sizes of the blocks that [get_matching_blocks] collects.
    The work queue of the source is unfolded into the two recursive calls;
    sorting and merging adjacent blocks leave the sum unchanged.  Each call
    works on a strictly shorter slice of [a], so [fuel] above the length of
    the slice is never exhausted. *)
Fixpoint matching_size (fuel : nat) (a b : list ascii) (b2j : b2j_t)
    (alo ahi blo bhi : nat) : nat :=
  match fuel with
  | 0 => 0
  | S fuel' =>
      let '(i, j, k) := find_longest_match a b b2j alo ahi blo bhi in
      if k =? 0 then 0
      else
        k
        + (if (alo <? i) && (blo <? j)
           then matching_size fuel' a b b2j alo i blo j else 0)
        + (if (i + k <? ahi) && (j + k <? bhi)
           then matching_size fuel' a b b2j (i + k) ahi (j + k) bhi else 0)
  end.

(** [ratio()], with seq1 = [a] and seq2 = [b]; the elements compared are
    the characters of the Rocq strings, which are the characters of the
    Python strings on ASCII text. *)
Definition ratio (a b : string) : Q :=
  let la := list_ascii_of_string a in
  let lb := list_ascii_of_string b in
  let matches :=
    matching_size (S (length la)) la lb (chain_b lb)
                  0 (length la) 0 (length lb) in
  _calculate_ratio matches (length la + length lb).

(** [quick_ratio()]: the size of the multiset intersection. *)
Fixpoint count_char (c : ascii) (l : list ascii) : nat :=
  match l with
  | [] => 0
  | x :: l' => (if Ascii.eqb x c then 1 else 0) + count_char c l'
  end.

(** [avail] maps an element to the number of its occurrences in [b] not yet
    used up; the count may go below zero in Python, where only its sign is
    read, so it is kept as an integer. *)
Fixpoint avail_get (c : ascii) (avail : list (ascii * Z)) : option Z :=
  match avail with
  | [] => None
  | (e, n) :: rest => if Ascii.eqb c e then Some n else avail_get c rest
  end.

Fixpoint quick_matches (a b : list ascii) (avail : list (ascii * Z))
    (matches : nat) : nat :=
  match a with
  | [] => matches
  | elt :: a' =>
      let numb :=
        match avail_get elt avail with
        | Some n => n
        | None => Z.of_nat (count_char elt b)
        end in
      quick_matches a' b ((elt, (numb - 1)%Z) :: avail)
                    (if (0 <? numb)%Z then matches + 1 else matches)
  end.

Definition quick_ratio (a b : string) : Q :=
  let la := list_ascii_of_string a in
  let lb := list_ascii_of_string b in
  _calculate_ratio (quick_matches la lb [] 0) (length la + length lb).

(** [real_quick_ratio()] *)
Definition real_quick_ratio (a b : string) : Q :=
  let la := String.length a in
  let lb := String.length b in
  _calculate_ratio (Nat.min la lb) (la + lb).

(** The order of the pairs [(score, x)] that [heapq.nlargest] sorts:
    tuples compare by score first and by the string second. *)
Definition pair_leb (p q : Q * string) : bool :=
  match Qcompare (fst p) (fst q) with
  | Lt => true
  | Gt => false
  | Eq => String.leb (snd p) (snd q)
  end.

(** [p] comes before [q] in a descending list. *)
Definition before (p q : Q * string) : Prop := pair_leb q p = true.

(** [sorted(result, reverse=True)], by insertion. *)
Fixpoint insert_desc (p : Q * string) (l : list (Q * string))
    : list (Q * string) :=
  match l with
  | [] => [p]
  | q :: l' => if pair_leb q p then p :: l else q :: insert_desc p l'
  end.

Definition sort_desc (l : list (Q * string)) : list (Q * string) :=
  fold_right insert_desc [] l.

(** [heapq.nlargest(n, result)]: the [n] first of the descending sort. *)
Definition nlargest (n : nat) (l : list (Q * string)) : list (Q * string) :=
  firstn n (sort_desc l).

(** The test of [get_close_matches] on one possibility [x]. *)
Definition close_enough (word : string) (cutoff : Q) (x : string) : bool :=
  Qle_bool cutoff (real_quick_ratio x word)
  && Qle_bool cutoff (quick_ratio x word)
  && Qle_bool cutoff (ratio x word).

(** [get_close_matches(word, possibilities, n, cutoff)] *)
Definition get_close_matches (word : string) (possibilities : list string)
    (n : nat) (cutoff : Q) : list string :=
  let result :=
    map (fun x => (ratio x word, x))
        (filter (close_enough word cutoff) possibilities) in
  map snd (nlargest n result).

End Difflib.


(* ================================================================== *)
(** * collections.Counter *)
(* ================================================================== *)

Module Counter.

(** [Counter(iterable)]: [mapping[elem] = mapping.get(elem, 0) + 1] for
    every element, in order. *)
Definition count_element (mapping : Dict.t nat) (elem : string) : Dict.t nat :=
  Dict.set elem (match Dict.get elem mapping with Some n => n | None => 0 end + 1)
           mapping.

Definition of_list (l : list string) : Dict.t nat :=
  fold_left count_element l Dict.empty.

(** [max(items, key=itemgetter(1))]: the first item with the largest
    count. *)
Fixpoint max_item (best : string * nat) (items : list (string * nat))
    : string * nat :=
  match items with
  | [] => best
  | it :: rest => max_item (if snd best <? snd it then it else best) rest
  end.

(** [most_common(1)], which is [heapq.nlargest(1, self.items(), key=...)]. *)
Definition most_common_1 (c : Dict.t nat) : list (string * nat) :=
  match Dict.items c with
  | [] => []
  | it :: rest => [max_item it rest]
  end.

End Counter.

(* ================================================================== *)
(** * The data model *)
(* ================================================================== *)

(** One entry of the [/protocols] snapshot. *)
Module Protocol.
Record t : Type := mk {
  slug : option string;
  name : option string;
  category : option string;
  parentProtocol : option string
}.
End Protocol.

(** One entry of the [children] list of a result. *)
Module Child.
Record t : Type := mk { name : string; slug : string }.
End Child.

(** The dict returned by [resolve_protocol]. *)
Module Resolution.
Record t : Type := mk {
  slug : string;
  name : string;
  is_parent : bool;
  children : list Child.t;
  category : option string
}.
End Resolution.

Inductive exn : Type :=
| ProtocolNotFoundError (msg : string)
| KeyError (key : string).

Inductive outcome (A : Type) : Type :=
| Return (r : A)
| Raise (e : exn).
Arguments Return {A} r.
Arguments Raise {A} e.

Definition bind {A B : Type} (m : outcome A) (f : A -> outcome B) : outcome B :=
  match m with
  | Return r => f r
  | Raise e => Raise e
  end.

Notation "x <- m ;; k" := (bind m (fun x => k))
  (at level 61, m at next level, right associativity).

(** [p[key]] on a field that may be absent. *)
Definition subscript (field : option string) (key : string) : outcome string :=
  match field with
  | Some v => Return v
  | None => Raise (KeyError key)
  end.

(** [p.get(key, "")] *)
Definition get_or_empty (field : option string) : string :=
  match field with
  | Some v => v
  | None => ""
  end.

(** Truth value of [c.get("category")]. *)
Definition truthy (field : option string) : bool :=
  match field with
  | Some v => negb (String.eqb v "")
  | None => false
  end.

(* ================================================================== *)
(** * The lookup structures of [resolve_protocol] *)
(* ================================================================== *)

Record Index : Type := mkIndex {
  slug_map : Dict.t Protocol.t;
  name_map : Dict.t Protocol.t;
  parent_slugs : PySet.t;
  parent_children : Dict.t (list Protocol.t)
}.

Definition empty_index : Index := mkIndex Dict.empty Dict.empty PySet.empty Dict.empty.

Definition slug_key (p : Protocol.t) : string :=
  PyStr.lower (get_or_empty (Protocol.slug p)).

Definition name_key (p : Protocol.t) : string :=
  PyStr.lower (get_or_empty (Protocol.name p)).

(** The lowered parent slug a record refers to, when its [parentProtocol]
    is non-empty and starts with ["parent#"]. *)
Definition parent_key (p : Protocol.t) : option string :=
  let parent_ref := get_or_empty (Protocol.parentProtocol p) in
  if negb (String.eqb parent_ref "") && PyStr.startswith "parent#" parent_ref
  then Some (PyStr.lower (PyStr.split1_tail "#" parent_ref))
  else None.

(** One iteration of [for p in protocols]. *)
Definition index_step (ix : Index) (p : Protocol.t) : Index :=
  let slug_map' := Dict.set (slug_key p) p (slug_map ix) in
  let name_map' := Dict.set (name_key p) p (name_map ix) in
  match parent_key p with
  | Some ps =>
      let members :=
        match Dict.get ps (parent_children ix) with
        | Some l => l
        | None => []
        end in
      mkIndex slug_map' name_map'
              (PySet.add ps (parent_slugs ix))
              (Dict.set ps (members ++ [p]) (parent_children ix))
  | None => mkIndex slug_map' name_map' (parent_slugs ix) (parent_children ix)
  end.

Definition build_index (protocols : list Protocol.t) : Index :=
  fold_left index_step protocols empty_index.

(** [child_name.split(" V")[0].split(" v")[0].strip()] *)
Definition base_name (child_name : string) : string :=
  PyStr.strip (PyStr.split_head " v" (PyStr.split_head " V" child_name)).

Definition hyphens_to_spaces (s : string) : string := PyStr.replace "-" " " s.

(** [base.lower()], the key under which a child is filed in
    [parent_name_map]. *)
Definition derived_key (child : Protocol.t) : string :=
  PyStr.lower (base_name (get_or_empty (Protocol.name child))).

(** The inner loop [for child in children] for one item [(ps, children)]. *)
Definition name_map_step (m : Dict.t string) (item : string * list Protocol.t)
    : Dict.t string :=
  fold_left (fun m child => Dict.set (derived_key child) (fst item) m)
            (snd item) m.

(** [parent_name_map]: lowered base name of every member -> parent slug. *)
Definition parent_name_map_of (parent_children : Dict.t (list Protocol.t))
    : Dict.t string :=
  fold_left name_map_step (Dict.items parent_children) Dict.empty.

Inductive kind : Type := KSlug | KName | KParent.

(** [all_candidates], filled by the four loops of step 4. *)
Definition all_candidates_of (set_iter : PySet.t -> list string)
    (ix : Index) (parent_name_map : Dict.t string) : Dict.t (kind * string) :=
  let c1 := fold_left (fun c slug => Dict.set slug (KSlug, slug) c)
                      (Dict.keys (slug_map ix)) Dict.empty in
  let c2 := fold_left (fun c name => Dict.set name (KName, name) c)
                      (Dict.keys (name_map ix)) c1 in
  let c3 := fold_left (fun c ps => Dict.set ps (KParent, ps) c)
                      (set_iter (parent_slugs ix)) c2 in
  fold_left (fun c item => Dict.set (fst item) (KParent, snd item) c)
            (Dict.items parent_name_map) c3.

(* ================================================================== *)
(** * The resolver *)
(* ================================================================== *)

(** The dict built from a record in steps 1, 2 and 4. *)
Definition record_result (p : Protocol.t) : outcome Resolution.t :=
  slug <- subscript (Protocol.slug p) "slug" ;;
  name <- subscript (Protocol.name p) "name" ;;
  Return (Resolution.mk slug name false [] (Protocol.category p)).

(** [d[key]] followed by the construction of the result. *)
Definition record_result_at (d : Dict.t Protocol.t) (key : string)
    : outcome Resolution.t :=
  match Dict.get key d with
  | Some p => record_result p
  | None => Raise (KeyError key)
  end.

(** [[{"name": c["name"], "slug": c["slug"]} for c in children]] *)
Fixpoint children_list (children : list Protocol.t) : outcome (list Child.t) :=
  match children with
  | [] => Return []
  | c :: rest =>
      name <- subscript (Protocol.name c) "name" ;;
      slug <- subscript (Protocol.slug c) "slug" ;;
      tl <- children_list rest ;;
      Return (Child.mk name slug :: tl)
  end.

(** The categories kept by [_build_parent_result]. *)
Definition member_categories (children : list Protocol.t) : list string :=
  map (fun c => get_or_empty (Protocol.category c))
      (filter (fun c => truthy (Protocol.category c)) children).

(** The [for child in children] loop that picks a display name. *)
Fixpoint display_name (parent_slug : string) (children : list Protocol.t)
    (name : string) : string :=
  match children with
  | [] => name
  | child :: rest =>
      let base := base_name (get_or_empty (Protocol.name child)) in
      if String.eqb (PyStr.lower base) (hyphens_to_spaces parent_slug)
      then base
      else display_name parent_slug rest name
  end.

(** [Counter(categories).most_common(1)[0][0] if categories else None] *)
Definition derive_category (categories : list string) : option string :=
  match categories with
  | [] => None
  | _ :: _ =>
      match Counter.most_common_1 (Counter.of_list categories) with
      | (c, _) :: _ => Some c
      | [] => None
      end
  end.

(** [parent_children.get(parent_slug, [])] *)
Definition children_of (parent_slug : string)
    (parent_children : Dict.t (list Protocol.t)) : list Protocol.t :=
  match Dict.get parent_slug parent_children with
  | Some l => l
  | None => []
  end.

Definition _build_parent_result (parent_slug : string)
    (parent_children : Dict.t (list Protocol.t)) : outcome Resolution.t :=
  let children := children_of parent_slug parent_children in
  let categories := member_categories children in
  let category := derive_category categories in
  let name :=
    display_name parent_slug children
                 (PyStr.title (hyphens_to_spaces parent_slug)) in
  kids <- children_list children ;;
  Return (Resolution.mk parent_slug name true kids category).

(** The names collected for the error message. *)
Fixpoint suggestion_names (protocols : list Protocol.t)
    (suggestions : list string) : outcome (list string) :=
  match suggestions with
  | [] => Return []
  | s :: rest =>
      match find (fun p => String.eqb (name_key p) s) protocols with
      | Some p =>
          n <- subscript (Protocol.name p) "name" ;;
          tl <- suggestion_names protocols rest ;;
          Return (n :: tl)
      | None => suggestion_names protocols rest
      end
  end.

Definition not_found_message (user_input : string)
    (suggestion_names : list string) : string :=
  let msg := String.append "Protocol '" (String.append user_input "' not found.") in
  match suggestion_names with
  | [] => msg
  | _ =>
      String.append msg
        (String.append " Did you mean: "
           (String.append (PyStr.join ", " suggestion_names) "?"))
  end.

Definition fuzzy_cutoff : Q := 85 # 100.
Definition suggestion_cutoff : Q := 4 # 10.

(** Failure with suggestions, after every step has failed. *)
Definition not_found (protocols : list Protocol.t) (user_input normalized : string)
    : outcome Resolution.t :=
  let all_names := map (fun p => get_or_empty (Protocol.name p)) protocols in
  let suggestions :=
    Difflib.get_close_matches normalized (map PyStr.lower all_names)
                              3 suggestion_cutoff in
  names <- suggestion_names protocols suggestions ;;
  Raise (ProtocolNotFoundError (not_found_message user_input names)).

(** Step 4 and the failure path. *)
Definition fuzzy_step (set_iter : PySet.t -> list string)
    (protocols : list Protocol.t) (ix : Index) (parent_name_map : Dict.t string)
    (user_input normalized : string) : outcome Resolution.t :=
  let all_candidates := all_candidates_of set_iter ix parent_name_map in
  let matches :=
    Difflib.get_close_matches normalized (Dict.keys all_candidates)
                              5 fuzzy_cutoff in
  match matches with
  | best :: _ =>
      match Dict.get best all_candidates with
      | Some (KParent, key) => _build_parent_result key (parent_children ix)
      | Some (KSlug, key) => record_result_at (slug_map ix) key
      | Some (KName, key) => record_result_at (name_map ix) key
      | None => Raise (KeyError best)
      end
  | [] => not_found protocols user_input normalized
  end.

Definition resolve_protocol (set_iter : PySet.t -> list string)
    (protocols : list Protocol.t) (user_input : string) : outcome Resolution.t :=
  let normalized := PyStr.lower (PyStr.strip user_input) in
  let ix := build_index protocols in
  (* Step 1: exact slug match *)
  if Dict.mem normalized (slug_map ix) then
    record_result_at (slug_map ix) normalized
  (* Step 2: exact name match *)
  else if Dict.mem normalized (name_map ix) then
    record_result_at (name_map ix) normalized
  (* Step 3: parent protocol match *)
  else if PySet.mem normalized (parent_slugs ix) then
    _build_parent_result normalized (parent_children ix)
  else
    match find (fun ps => String.eqb normalized (hyphens_to_spaces ps))
               (set_iter (parent_slugs ix)) with
    | Some ps => _build_parent_result ps (parent_children ix)
    | None =>
        let parent_name_map := parent_name_map_of (parent_children ix) in
        match Dict.get normalized parent_name_map with
        | Some ps => _build_parent_result ps (parent_children ix)
        | None =>
            fuzzy_step set_iter protocols ix parent_name_map
                       user_input normalized
        end
    end.

(* ================================================================== *)
(** * Notions of the specification *)
(* ================================================================== *)

(** The last element of a list that satisfies [f]. *)
Fixpoint find_last {A : Type} (f : A -> bool) (l : list A) : option A :=
  match l with
  | [] => None
  | x :: l' =>
      match find_last f l' with
      | Some y => Some y
      | None => if f x then Some x else None
      end
  end.

(** The record refers to the parent slug [k]. *)
Definition refers_to (k : string) (p : Protocol.t) : bool :=
  match parent_key p with
  | Some ps => String.eqb ps k
  | None => false
  end.

(** The members of the group of [k], in snapshot order. *)
Definition members_of (protocols : list Protocol.t) (k : string)
    : list Protocol.t :=
  filter (refers_to k) protocols.

(** The two shapes of a returned result: built from one record, or
    aggregated from the group of a parent slug. *)
Definition from_record (protocols : list Protocol.t) (r : Resolution.t) : Prop :=
  exists p, In p protocols /\ record_result p = Return r.

Definition from_group (protocols : list Protocol.t) (r : Resolution.t) : Prop :=
  In (Resolution.slug r) (parent_slugs (build_index protocols)) /\
  _build_parent_result (Resolution.slug r)
                       (parent_children (build_index protocols)) = Return r.




(** A record that carries both a slug and a name. *)
Definition complete (p : Protocol.t) : Prop :=
  Protocol.slug p <> None /\ Protocol.name p <> None.

(** The normalized form of an input: [user_input.strip().lower()]. *)
Definition normalize (user_input : string) : string :=
  PyStr.lower (PyStr.strip user_input).

(** None of the exact steps (slug, name, parent slug verbatim or with
    spaces, derived parent name) matches the normalized input. *)
Definition no_exact_match (protocols : list Protocol.t) (normalized : string)
    : Prop :=
  (forall p, In p protocols -> slug_key p <> normalized) /\
  (forall p, In p protocols -> name_key p <> normalized) /\
  (forall p ps, In p protocols -> parent_key p = Some ps ->
                normalized <> ps /\ normalized <> hyphens_to_spaces ps) /\
  (forall p, In p protocols -> parent_key p <> None ->
             derived_key p <> normalized).

(** The keys of the unified candidate space of the fuzzy step. *)
Definition is_candidate_key (protocols : list Protocol.t) (k : string) : Prop :=
  (exists p, In p protocols /\ slug_key p = k) \/
  (exists p, In p protocols /\ name_key p = k) \/
  (exists p, In p protocols /\ parent_key p = Some k) \/
  (exists p, In p protocols /\ parent_key p <> None /\ derived_key p = k).

Definition no_tier_matches (protocols : list Protocol.t) (normalized : string)
    : Prop :=
  no_exact_match protocols normalized /\
  forall k, is_candidate_key protocols k ->
            Difflib.close_enough normalized fuzzy_cutoff k = false.

(** The display name truncated at the first version marker, a blank
    followed by the letter V in either case. *)
Fixpoint truncate_at_version_marker (s : string) : string :=
  if String.prefix " V" s || String.prefix " v" s then EmptyString
  else match s with
       | EmptyString => EmptyString
       | String c s' => String c (truncate_at_version_marker s')
       end.

(** A record whose slug, name and parent reference, when present, are
    ASCII text; a snapshot made of such records.  These are the fields that
    go through the string methods and the similarity ratio; the category is
    only compared for equality. *)
Definition ascii_record (p : Protocol.t) : bool :=
  PyStr.isascii (get_or_empty (Protocol.slug p))
  && PyStr.isascii (get_or_empty (Protocol.name p))
  && PyStr.isascii (get_or_empty (Protocol.parentProtocol p)).

Definition ascii_snapshot (protocols : list Protocol.t) : bool :=
  forallb ascii_record protocols.

(** The non-empty categories that the members supply, in member order. *)
Fixpoint supplied_categories (members : list Protocol.t) : list string :=
  match members with
  | [] => []
  | m :: rest =>
      match Protocol.category m with
      | Some (String a c) => String a c :: supplied_categories rest
      | _ => supplied_categories rest
      end
  end.

(** "Each word capitalized": the first character of every word, a maximal
    run of characters other than the blank, is raised; the other characters
    are kept. *)
Fixpoint capitalize_words_from (at_word_start : bool) (s : string) : string :=
  match s with
  | EmptyString => EmptyString
  | String c s' =>
      if Ascii.eqb c " " then String c (capitalize_words_from true s')
      else String (if at_word_start then PyStr.upper_char c else c)
                  (capitalize_words_from false s')
  end.

Definition capitalize_words (s : string) : string :=
  capitalize_words_from true s.

(** Title case: a character is raised when the character before it is not
    a letter, or when there is none, and lowered when it is a letter; this
    changes letters only. *)
Definition is_letter (c : ascii) : bool := PyStr.isupper c || PyStr.islower c.

Fixpoint title_case_after (previous : ascii) (s : string) : string :=
  match s with
  | EmptyString => EmptyString
  | String c s' =>
      String (if is_letter previous then PyStr.lower_char c
              else PyStr.upper_char c)
             (title_case_after c s')
  end.

Definition title_case (s : string) : string := title_case_after " " s.

(** The text of the failure: the input as typed between quotes and, when
    there are suggestions, their list separated by commas. *)
Definition failure_text (typed : string) (suggested : list string) : string :=
  String.append "Protocol '"
    (String.append typed
       (String.append "' not found."
          match suggested with
          | [] => ""
          | _ :: _ =>
              String.append " Did you mean: "
                (String.append (String.concat ", " suggested) "?")
          end)).

(* ================================================================== *)
(** * Sample snapshots *)
(* ================================================================== *)

Module Examples.

(** Iteration over a set in insertion order. *)
Definition insertion_order : PySet.t -> list string := fun s => s.

Definition aave_v2 : Protocol.t :=
  Protocol.mk (Some "aave-v2") (Some "Aave V2") (Some "Lending")
              (Some "parent#aave").
Definition aave_v3 : Protocol.t :=
  Protocol.mk (Some "aave-v3") (Some "Aave V3") (Some "Lending")
              (Some "parent#aave").
Definition aave_arc : Protocol.t :=
  Protocol.mk (Some "aave-arc") (Some "Aave Arc") (Some "RWA Lending")
              (Some "parent#aave").
Definition uniswap_v3 : Protocol.t :=
  Protocol.mk (Some "uniswap-v3") (Some "Uniswap V3") (Some "Dexs")
              (Some "parent#uniswap").
Definition foo_one : Protocol.t :=
  Protocol.mk (Some "foo-one") (Some "Foo One") (Some "Dexs")
              (Some "parent#foo-bar").
Definition lido : Protocol.t :=
  Protocol.mk (Some "lido") (Some "Lido") (Some "Liquid Staking") None.

Definition registry : list Protocol.t :=
  [aave_v2; aave_v3; aave_arc; uniswap_v3; foo_one; lido].

Definition aave_group : Resolution.t :=
  Resolution.mk "aave" "Aave" true
    [Child.mk "Aave V2" "aave-v2"; Child.mk "Aave V3" "aave-v3";
     Child.mk "Aave Arc" "aave-arc"]
    (Some "Lending").

Definition foo_bar_group : Resolution.t :=
  Resolution.mk "foo-bar" "Foo Bar" true [Child.mk "Foo One" "foo-one"]
                (Some "Dexs").

(** A record without a [slug] field. *)
Definition no_slug : Protocol.t := Protocol.mk None (Some "Aave") None None.

(** A slug with leading blanks. *)
Definition padded_slug : Protocol.t :=
  Protocol.mk (Some "  a") (Some "Zzz") None None.

(** A name that is the slug of another record. *)
Definition aave_core : Protocol.t :=
  Protocol.mk (Some "aave") (Some "Aave V3") None None.
Definition aave_legacy : Protocol.t :=
  Protocol.mk (Some "aave-v2") (Some "Aave") None None.

(** A parent slug that is also the slug of a record. *)
Definition foo_bar : Protocol.t :=
  Protocol.mk (Some "foo-bar") (Some "Foo Bar V1") None (Some "parent#foo-bar").

(** Two slugs at the same distance of the input ["protocolx"]. *)
Definition protocol_a : Protocol.t :=
  Protocol.mk (Some "protocola") (Some "Alpha") None None.
Definition protocol_b : Protocol.t :=
  Protocol.mk (Some "protocolb") (Some "Beta") None None.

(** A group member whose name is only a version marker. *)
Definition bare_version : Protocol.t :=
  Protocol.mk (Some "x") (Some " V2") None (Some "parent#grp").

End Examples.

(** Outcomes that agree except for the input quoted in the error message. *)
Definition same_up_to_message (a b : string) (o o' : outcome Resolution.t)
    : Prop :=
  match o, o' with
  | Return r, Return r' => r = r'
  | Raise (KeyError k), Raise (KeyError k') => k = k'
  | Raise (ProtocolNotFoundError msg), Raise (ProtocolNotFoundError msg') =>
      exists names,
        msg = not_found_message a names /\ msg' = not_found_message b names
  | _, _ => False
  end.

Module MoreExamples.

(** Two records whose slugs differ by letter case only. *)
Definition first_writer : Protocol.t :=
  Protocol.mk (Some "Curve") (Some "Curve One") (Some "Dexs") None.
Definition last_writer : Protocol.t :=
  Protocol.mk (Some "curve") (Some "Curve Two") (Some "Yield") None.

(** A group whose slug differs from the base name of its members. *)
Definition maker_v1 : Protocol.t :=
  Protocol.mk (Some "sky-lending") (Some "Maker V1") (Some "CDP")
              (Some "parent#sky").

(** A record without a name inside a group. *)
Definition nameless_member : Protocol.t :=
  Protocol.mk (Some "ghost") None None (Some "parent#sky").

End MoreExamples.

Module EdgeExamples.

(** A group whose members supply empty categories, no category, and two
    categories with the same number of votes. *)
Definition mix (slug : string) (category : option string) : Protocol.t :=
  Protocol.mk (Some slug) (Some "Mixer") category (Some "parent#mix").

Definition mix_members : list Protocol.t :=
  [mix "m1" (Some ""); mix "m2" None; mix "m3" (Some "Dexs");
   mix "m4" (Some "Lending"); mix "m5" (Some ""); mix "m6" (Some "Lending");
   mix "m7" (Some "Dexs"); mix "m8" (Some "")].

Definition mix_group : Resolution.t :=
  Resolution.mk "mix" "Mix" true
    (map (fun slug => Child.mk "Mixer" slug)
         ["m1"; "m2"; "m3"; "m4"; "m5"; "m6"; "m7"; "m8"])
    (Some "Dexs").

(** A parent slug whose first word starts with a digit. *)
Definition fusion : Protocol.t :=
  Protocol.mk (Some "1inch-fusion") (Some "Fusion") (Some "Dexs")
              (Some "parent#1inch-network").

(** A display name in capital letters. *)
Definition shouting : Protocol.t :=
  Protocol.mk (Some "lido-finance") (Some "LIDO") None None.

End EdgeExamples.

(* ================================================================== *)
(** * The client: hack records, caches and requests *)
(* ================================================================== *)

(** One record of the [/hacks] list.  The types [num] of the amounts and
    [json] of the fields that are only copied are left open.  For [amount]
    and [returnedFunds], [None] stands for a missing or null field (the code
    replaces both by 0); for the other fields [None] stands for a missing
    field. *)
Module Hack.
Record t (num json : Type) : Type := mk {
  name : option string;
  date : option Z;
  amount : option num;
  chain : option json;
  classification : option json;
  technique : option json;
  returnedFunds : option num;
  source : option json
}.
Arguments mk {num json}.
Arguments name {num json}.
Arguments date {num json}.
Arguments amount {num json}.
Arguments chain {num json}.
Arguments classification {num json}.
Arguments technique {num json}.
Arguments returnedFunds {num json}.
Arguments source {num json}.
End Hack.

(** The outcome of a request: the parsed answer, or DefiLlamaAPIError. *)
Inductive api_result (A : Type) : Type :=
| Fetched (a : A)
| DefiLlamaAPIError (msg : string).
Arguments Fetched {A} a.
Arguments DefiLlamaAPIError {A} msg.

Module DefiLlamaClient.

Section Filter.
Context {num json : Type}.

(** [{protocol_name.lower()}], updated with the lowered child names when
    [child_names] is neither None nor empty. *)
Definition names_to_match (protocol_name : string)
    (child_names : option (list string)) : PySet.t :=
  let names := PySet.add (PyStr.lower protocol_name) PySet.empty in
  match child_names with
  | Some ((_ :: _) as l) =>
      fold_left (fun names n => PySet.add (PyStr.lower n) names) l names
  | _ => names
  end.

(** [h.get("name", "").lower()] *)
Definition hack_key (h : Hack.t num json) : string :=
  PyStr.lower (get_or_empty (Hack.name h)).

(** The list comprehension of [find_hacks_for_protocol] over the hack
    records [hacks]. *)
Definition matching_hacks (hacks : list (Hack.t num json))
    (protocol_name : string) (child_names : option (list string))
    : list (Hack.t num json) :=
  filter (fun h => PySet.mem (hack_key h)
                             (names_to_match protocol_name child_names))
         hacks.

End Filter.

(** The state of a client: its two caches.  The session and the timeout
    are fixed at construction and never change. *)
Record state (num json : Type) : Type := mk_state {
  _protocols_cache : option (list Protocol.t);
  _hacks_cache : option (list (Hack.t num json))
}.
Arguments mk_state {num json}.
Arguments _protocols_cache {num json}.
Arguments _hacks_cache {num json}.

(** [__init__]: both caches are None. *)
Definition init {num json : Type} : state num json := mk_state None None.

(** The calls made on a client. *)
Inductive call : Type :=
| GetProtocolsList
| GetProtocolDetail (slug : string)
| GetAllHacks
| ResolveProtocol (user_input : string)
| FindHacksForProtocol (protocol_name : string)
                       (child_names : option (list string)).

Section Methods.
Context {num json detail : Type}.

(** The server: [world] is everything a request can depend on and change;
    the three functions are [self._get] on the paths ["/protocols"],
    ["/hacks"] and ["/protocol/{slug}"], with the answer already parsed. *)
Variable world : Type.
Variable _get_protocols : world -> api_result (list Protocol.t) * world.
Variable _get_hacks : world -> api_result (list (Hack.t num json)) * world.
Variable _get_detail : string -> world -> api_result detail * world.
Variable set_iter : PySet.t -> list string.

Definition get_protocols_list (self : state num json) (w : world)
    : api_result (list Protocol.t) * state num json * world :=
  match _protocols_cache self with
  | None =>
      match _get_protocols w with
      | (Fetched l, w') =>
          (Fetched l, mk_state (Some l) (_hacks_cache self), w')
      | (DefiLlamaAPIError msg, w') => (DefiLlamaAPIError msg, self, w')
      end
  | Some l => (Fetched l, self, w)
  end.

Definition get_protocol_detail (self : state num json) (slug : string)
    (w : world) : api_result detail * state num json * world :=
  let '(r, w') := _get_detail slug w in (r, self, w').

Definition get_all_hacks (self : state num json) (w : world)
    : api_result (list (Hack.t num json)) * state num json * world :=
  match _hacks_cache self with
  | None =>
      match _get_hacks w with
      | (Fetched l, w') =>
          (Fetched l, mk_state (_protocols_cache self) (Some l), w')
      | (DefiLlamaAPIError msg, w') => (DefiLlamaAPIError msg, self, w')
      end
  | Some l => (Fetched l, self, w)
  end.

(** The method [resolve_protocol]: the snapshot comes from
    [get_protocols_list]. *)
Definition resolve_protocol (self : state num json) (user_input : string)
    (w : world)
    : api_result (outcome Resolution.t) * state num json * world :=
  match get_protocols_list self w with
  | (Fetched protocols, self', w') =>
      (Fetched (resolve_protocol set_iter protocols user_input), self', w')
  | (DefiLlamaAPIError msg, self', w') => (DefiLlamaAPIError msg, self', w')
  end.

Definition find_hacks_for_protocol (self : state num json)
    (protocol_name : string) (child_names : option (list string)) (w : world)
    : api_result (list (Hack.t num json)) * state num json * world :=
  match get_all_hacks self w with
  | (Fetched hacks, self', w') =>
      (Fetched (matching_hacks hacks protocol_name child_names), self', w')
  | (DefiLlamaAPIError msg, self', w') => (DefiLlamaAPIError msg, self', w')
  end.

(** One call, keeping only its effect on the client and on the server. *)
Definition perform (c : call) (self : state num json) (w : world)
    : state num json * world :=
  match c with
  | GetProtocolsList =>
      let '(_, self', w') := get_protocols_list self w in (self', w')
  | GetProtocolDetail slug =>
      let '(_, self', w') := get_protocol_detail self slug w in (self', w')
  | GetAllHacks =>
      let '(_, self', w') := get_all_hacks self w in (self', w')
  | ResolveProtocol user_input =>
      let '(_, self', w') := resolve_protocol self user_input w in (self', w')
  | FindHacksForProtocol protocol_name child_names =>
      let '(_, self', w') :=
        find_hacks_for_protocol self protocol_name child_names w in
      (self', w')
  end.

Fixpoint perform_all (calls : list call) (self : state num json) (w : world)
    : state num json * world :=
  match calls with
  | [] => (self, w)
  | c :: rest => let '(self', w') := perform c self w in perform_all rest self' w'
  end.



End Methods.
End DefiLlamaClient.

(** [child_names] as a list: None counts as empty. *)
Definition child_list (child_names : option (list string)) : list string :=
  match child_names with
  | Some l => l
  | None => []
  end.

Module ClientExamples.

Definition hack (name : option string) (date : Z) : Hack.t Z string :=
  Hack.mk name (Some date) None None None None None None.

Definition euler_hack : Hack.t Z string := hack (Some "Euler") 1678665600.
Definition aave_v2_hack : Hack.t Z string := hack (Some "AAVE V2") 1667260800.
Definition aave_hack : Hack.t Z string := hack (Some "aave") 1604188800.
Definition nameless_hack : Hack.t Z string := hack None 1600000000.

Definition all_hacks : list (Hack.t Z string) :=
  [euler_hack; aave_v2_hack; aave_hack; nameless_hack].

Definition serve_hacks (w : nat) : api_result (list (Hack.t Z string)) * nat :=
  (Fetched all_hacks, S w).
Definition serve_detail (slug : string) (w : nat) : api_result string * nat :=
  (Fetched slug, S w).

(** A server whose first answer to ["/protocols"] is an error. *)
Definition flaky_protocols (w : nat) : api_result (list Protocol.t) * nat :=
  match w with
  | 0 => (DefiLlamaAPIError "timeout", 1)
  | S _ => (Fetched Examples.registry, S w)
  end.

End ClientExamples.

(* ================================================================== *)
(** * The report builder (src/report.py) *)
(* ================================================================== *)

(** [sorted]: a stable sort.  [before x y] tells that [x] may stand before
    [y]; elements are inserted from the right, each one before the first
    element it may stand before, so that equal elements keep their order. *)
Module PySorted.
Section Sort.
Context {A : Type} (before : A -> A -> bool).

Fixpoint insert (x : A) (l : list A) : list A :=
  match l with
  | [] => [x]
  | y :: l' => if before x y then x :: l else y :: insert x l'
  end.

Definition sorted (l : list A) : list A := fold_right insert [] l.

End Sort.
End PySorted.

(** The fields of the [/protocol/{slug}] answer that the modelled sections
    read.  A missing [tvl] counts as the empty list. *)
Module TvlEntry.
Record t : Type := mk {
  date : option Z;
  totalLiquidityUSD : option Q
}.
End TvlEntry.

(** One funding round of the [raises] list. *)
Module Raise.
Record t (num json : Type) : Type := mk {
  date : option Z;
  round : option json;
  amount : option num;
  leadInvestors : option json;
  otherInvestors : option json;
  valuation : option json;
  source : option json
}.
Arguments mk {num json}.
Arguments date {num json}.
Arguments round {num json}.
Arguments amount {num json}.
Arguments leadInvestors {num json}.
Arguments otherInvestors {num json}.
Arguments valuation {num json}.
Arguments source {num json}.
End Raise.

Module Detail.
Record t (num json : Type) : Type := mk {
  description : option string;
  url : option string;
  logo : option string;
  category : option string;
  tvl : option (list TvlEntry.t);
  currentChainTvls : option (Dict.t Q);
  raises : option (list (Raise.t num json))
}.
Arguments mk {num json}.
Arguments description {num json}.
Arguments url {num json}.
Arguments logo {num json}.
Arguments category {num json}.
Arguments tvl {num json}.
Arguments currentChainTvls {num json}.
Arguments raises {num json}.
End Detail.

Module Report.

(** The errors that can leave a section: a failed subscript, or a
    timestamp that [datetime.fromtimestamp] rejects. *)
Inductive error : Type :=
| KeyError (key : string)
| DateError (ts : Z).

Inductive res (A : Type) : Type :=
| Ok (a : A)
| Err (e : error).
Arguments Ok {A} a.
Arguments Err {A} e.

Definition and_then {A B : Type} (m : res A) (f : A -> res B) : res B :=
  match m with
  | Ok a => f a
  | Err e => Err e
  end.

Notation "x <~ m ;; k" := (and_then m (fun x => k))
  (at level 61, m at next level, right associativity).

(** [d[key]] *)
Definition item {A : Type} (field : option A) (key : string) : res A :=
  match field with
  | Some v => Ok v
  | None => Err (KeyError key)
  end.

(** A list comprehension whose element expression can fail. *)
Fixpoint comprehension {A B : Type} (f : A -> res B) (l : list A)
    : res (list B) :=
  match l with
  | [] => Ok []
  | x :: rest =>
      y <~ f x ;;
      ys <~ comprehension f rest ;;
      Ok (y :: ys)
  end.

(** [AGGREGATE_TVL_KEYS] of src/defillama.py *)
Definition AGGREGATE_TVL_KEYS : PySet.t :=
  ["borrowed"; "staking"; "pool2"; "vesting"; "offers"].

(** [c in s] for a character [c] *)
Fixpoint contains (c : ascii) (s : string) : bool :=
  match s with
  | EmptyString => false
  | String d s' => Ascii.eqb d c || contains c s'
  end.

(** [l[start:]] *)
Definition slice_from {A : Type} (start : Z) (l : list A) : list A :=
  if (start <? 0)%Z
  then skipn (Z.to_nat (Z.max 0 (Z.of_nat (length l) + start))) l
  else skipn (Z.to_nat start) l.

(** [l[-1]] of a non-empty list *)
Definition last_item {A : Type} (l : list A) : option A :=
  match rev l with
  | [] => None
  | x :: _ => Some x
  end.

(* ------------------------------------------------------------------ *)
(** ** [_build_metadata] *)

Record metadata : Type := mk_metadata {
  protocol_name : string;
  slug : string;
  description : string;
  url : string;
  logo : string;
  category : string;
  is_parent_protocol : bool;
  child_protocols : list string;
  queried_at : string
}.

(** [a or b], on optional strings, keeping the first that is present and
    non-empty. *)
Definition or_else (a : option string) (b : string) : string :=
  match a with
  | Some v => if String.eqb v "" then b else v
  | None => b
  end.

(** [now] is the formatted time of the call. *)
Definition _build_metadata {num json : Type} (now : string)
    (detail : Detail.t num json)
    (meta : Resolution.t) : metadata :=
  mk_metadata
    (Resolution.name meta)
    (Resolution.slug meta)
    (get_or_empty (Detail.description detail))
    (get_or_empty (Detail.url detail))
    (get_or_empty (Detail.logo detail))
    (or_else (Resolution.category meta)
             (or_else (Detail.category detail) "Unknown"))
    (Resolution.is_parent meta)
    (map Child.name (Resolution.children meta))
    now.

(* ------------------------------------------------------------------ *)
(** ** [_build_tvl_section] *)

Record tvl_point : Type := mk_tvl_point {
  point_date : string;
  tvl_usd : Q
}.

Record tvl_section : Type := mk_tvl_section {
  current_tvl_usd : Q;
  tvl_history : list tvl_point
}.

Section Dated.
(** [_unix_to_iso_date], the formatting of a timestamp by the standard
    library; None when the timestamp is rejected. *)
Variable _unix_to_iso_date : Z -> option string.

Definition iso_date (ts : Z) : res string :=
  match _unix_to_iso_date ts with
  | Some s => Ok s
  | None => Err (DateError ts)
  end.

Definition tvl_point_of (entry : TvlEntry.t) : res tvl_point :=
  ts <~ item (TvlEntry.date entry) "date" ;;
  d <~ iso_date ts ;;
  v <~ item (TvlEntry.totalLiquidityUSD entry) "totalLiquidityUSD" ;;
  Ok (mk_tvl_point d v).

Definition _build_tvl_section {num json : Type}
    (detail : Detail.t num json) (history_days : Z)
    : res tvl_section :=
  let tvl_history :=
    match Detail.tvl detail with
    | Some l => l
    | None => []
    end in
  current_tvl <~
    match last_item tvl_history with
    | Some entry => item (TvlEntry.totalLiquidityUSD entry) "totalLiquidityUSD"
    | None => Ok 0%Q
    end ;;
  let recent :=
    match tvl_history with
    | [] => []
    | _ :: _ => slice_from (- history_days) tvl_history
    end in
  points <~ comprehension tvl_point_of recent ;;
  Ok (mk_tvl_section current_tvl points).

End Dated.

(* ------------------------------------------------------------------ *)
(** ** [_build_chains_section] *)

Record chains_section : Type := mk_chains_section {
  deployed_chains : list string;
  chain_tvl : Dict.t Q
}.

(** One iteration of [for key, value in current_chain_tvls.items()]. *)
Definition chain_step (chain_tvl : Dict.t Q) (kv : string * Q) : Dict.t Q :=
  if contains "-" (fst kv) then chain_tvl
  else if PySet.mem (PyStr.lower (fst kv)) AGGREGATE_TVL_KEYS then chain_tvl
  else Dict.set (fst kv) (snd kv) chain_tvl.

(** The order of [sorted(..., key=lambda x: x[1], reverse=True)]. *)
Definition tvl_before (x y : string * Q) : bool := Qle_bool (snd y) (snd x).

(** [dict(items)] *)
Definition dict_of_items {V : Type} (items : list (string * V)) : Dict.t V :=
  fold_left (fun d kv => Dict.set (fst kv) (snd kv) d) items Dict.empty.

Definition _build_chains_section {num json : Type}
    (detail : Detail.t num json) : chains_section :=
  let current_chain_tvls :=
    match Detail.currentChainTvls detail with
    | Some d => d
    | None => Dict.empty
    end in
  let chain_tvl :=
    fold_left chain_step (Dict.items current_chain_tvls) Dict.empty in
  let sorted_chains :=
    dict_of_items (PySorted.sorted tvl_before (Dict.items chain_tvl)) in
  mk_chains_section (Dict.keys sorted_chains) sorted_chains.


(* ------------------------------------------------------------------ *)
(** ** [_build_hacks_section] *)

Section Hacks.
Context {num json : Type}.
(** The numbers of the hack records: the integer 0, [+], and the truth
    value of a number; the defaults [[]] and [""] of the copied fields. *)
Variables (zero : num) (add : num -> num -> num) (nonzero : num -> bool).
Variables (empty_list empty_string : json).
Variable _unix_to_iso_date : Z -> option string.

Record incident : Type := mk_incident {
  incident_date : string;
  amount_lost_usd : num;
  incident_chain : json;
  incident_classification : json;
  incident_technique : json;
  returned_funds_usd : num;
  source_url : json
}.

Record hacks_section : Type := mk_hacks_section {
  total_hacks : nat;
  total_amount_lost_usd : num;
  total_amount_returned_usd : num;
  incidents : list incident
}.

(** [x or 0], where a missing or null [x] is None. *)
Definition or_zero (x : option num) : num :=
  match x with
  | Some v => if nonzero v then v else zero
  | None => zero
  end.

Definition default_to (d : json) (x : option json) : json :=
  match x with
  | Some v => v
  | None => d
  end.

Definition incident_of (h : Hack.t num json) : res incident :=
  ts <~ item (Hack.date h) "date" ;;
  d <~ iso_date _unix_to_iso_date ts ;;
  Ok (mk_incident d
        (or_zero (Hack.amount h))
        (default_to empty_list (Hack.chain h))
        (default_to empty_string (Hack.classification h))
        (default_to empty_string (Hack.technique h))
        (or_zero (Hack.returnedFunds h))
        (default_to empty_string (Hack.source h))).

(** The order of [sorted(..., key=lambda x: x["date"], reverse=True)]. *)
Definition newer_first (x y : incident) : bool :=
  String.leb (incident_date y) (incident_date x).

(** [sum(...)], which starts from the integer 0. *)
Definition sum (l : list num) : num := fold_left add l zero.

Definition _build_hacks_section (hacks : list (Hack.t num json))
    : res hacks_section :=
  items <~ comprehension incident_of hacks ;;
  let incidents := PySorted.sorted newer_first items in
  Ok (mk_hacks_section
        (length incidents)
        (sum (map amount_lost_usd incidents))
        (sum (map returned_funds_usd incidents))
        incidents).

End Hacks.

(* ------------------------------------------------------------------ *)
(** ** [_build_funding_section] *)

Section Funding.
Context {num json : Type}.
Variables (zero : num) (add : num -> num -> num) (nonzero : num -> bool).
(** The truth value of a parsed value, for [x or []]. *)
Variable truth : json -> bool.
Variables (empty_list empty_string : json).
Variable _unix_to_iso_date : Z -> option string.

Record funding_round : Type := mk_funding_round {
  round_date : string;
  round_type : option json;
  amount_usd_millions : option num;
  lead_investors : json;
  other_investors : json;
  round_valuation : option json;
  round_source_url : json
}.

Record funding_section : Type := mk_funding_section {
  total_raised_usd_millions : num;
  rounds : list funding_round
}.

(** [r.get(key, []) or []] *)
Definition or_default (d : json) (x : option json) : json :=
  match x with
  | Some v => if truth v then v else d
  | None => d
  end.

Definition round_of (r : Raise.t num json) : res funding_round :=
  ts <~ item (Raise.date r) "date" ;;
  d <~ iso_date _unix_to_iso_date ts ;;
  Ok (mk_funding_round d
        (Raise.round r)
        (Raise.amount r)
        (or_default empty_list (Raise.leadInvestors r))
        (or_default empty_list (Raise.otherInvestors r))
        (Raise.valuation r)
        (default_to empty_string (Raise.source r))).

(** The order of [sorted(..., key=lambda x: x["date"])]. *)
Definition older_first (x y : funding_round) : bool :=
  String.leb (round_date x) (round_date y).

(** [detail.get("raises", []) or []]: a missing or null list is empty. *)
Definition _build_funding_section (detail : Detail.t num json)
    : res funding_section :=
  let raises :=
    match Detail.raises detail with
    | Some l => l
    | None => []
    end in
  items <~ comprehension round_of raises ;;
  let rounds := PySorted.sorted older_first items in
  let total :=
    sum zero add
        (map (fun r => or_zero zero nonzero (amount_usd_millions r)) rounds) in
  Ok (mk_funding_section total rounds).

End Funding.

End Report.

Module ReportExamples.

Definition iso_year (ts : Z) : option string :=
  if (ts <? 0)%Z then None
  else if (ts <? 1000)%Z then Some "1970-01-01"
  else if (ts <? 2000)%Z then Some "1970-01-02"
  else Some "1970-01-03".

Definition history : list TvlEntry.t :=
  [TvlEntry.mk (Some 10%Z) (Some (5 # 1));
   TvlEntry.mk (Some 1010%Z) (Some (7 # 1));
   TvlEntry.mk (Some 2010%Z) (Some (6 # 1))].

Definition chains : Dict.t Q :=
  [("Ethereum", 50 # 1); ("Ethereum-borrowed", 9 # 1); ("borrowed", 20 # 1);
   ("Polygon", 70 # 1); ("Staking", 3 # 1); ("Base", 50 # 1)].

Definition raises : list (Raise.t Z string) :=
  [Raise.mk (Some 2010%Z) (Some "Series A") (Some 25%Z) None None None None;
   Raise.mk (Some 10%Z) (Some "Seed") None (Some "[]") None None None;
   Raise.mk (Some 2020%Z) None (Some 0%Z) None None None None].

Definition detail : Detail.t Z string :=
  Detail.mk (Some "Lending market") None None (Some "Lending")
            (Some history) (Some chains) (Some raises).

Definition dated_hack (name : string) (date : Z) (amount : option Z)
    : Hack.t Z string :=
  Hack.mk (Some name) (Some date) amount None None None None None.

Definition hacks : list (Hack.t Z string) :=
  [dated_hack "a" 10 (Some 5%Z); dated_hack "b" 2010 None;
   dated_hack "c" 1010 (Some 0%Z)].

End ReportExamples.

(* ================================================================== *)
(** * Facts about the string methods *)
(* ================================================================== *)

Module PyStrFacts.
Import PyStr.

Ltac by_cases_on_char c :=
  destruct c as [b0 b1 b2 b3 b4 b5 b6 b7];
  destruct b0, b1, b2, b3, b4, b5, b6, b7; reflexivity.

Lemma lower_char_idem (c : ascii) : lower_char (lower_char c) = lower_char c.
Proof. by_cases_on_char c. Qed.

Lemma isspace_lower_char (c : ascii) : isspace (lower_char c) = isspace c.
Proof. by_cases_on_char c. Qed.

Lemma lower_idem (s : string) : lower (lower s) = lower s.
Proof.
  induction s as [|c s IH]; simpl; [reflexivity|].
  now rewrite lower_char_idem, IH.
Qed.

Lemma lower_append (s1 s2 : string) :
  lower (String.append s1 s2) = String.append (lower s1) (lower s2).
Proof.
  induction s1 as [|c s1 IH]; simpl; [reflexivity|]. now rewrite IH.
Qed.

Lemma lower_lstrip (s : string) : lower (lstrip s) = lstrip (lower s).
Proof.
  induction s as [|c s IH]; simpl; [reflexivity|].
  rewrite isspace_lower_char. destruct (isspace c); [exact IH|reflexivity].
Qed.

Lemma lower_rstrip (s : string) : lower (rstrip s) = rstrip (lower s).
Proof.
  induction s as [|c s IH]; simpl; [reflexivity|].
  rewrite <- IH, isspace_lower_char.
  destruct (rstrip s) as [|d r]; simpl; [destruct (isspace c)|]; reflexivity.
Qed.

Lemma lower_strip (s : string) : lower (strip s) = strip (lower s).
Proof. unfold strip. now rewrite lower_rstrip, lower_lstrip. Qed.

Lemma lower_eq_empty (s : string) : lower s = "" -> s = "".
Proof. destruct s; simpl; [reflexivity|discriminate]. Qed.

Lemma lstrip_all_space (s : string) : all_space s = true -> lstrip s = "".
Proof.
  induction s as [|c s IH]; simpl; [reflexivity|].
  destruct (isspace c); simpl; [exact IH|discriminate].
Qed.

Lemma rstrip_all_space (s : string) : all_space s = true -> rstrip s = "".
Proof.
  induction s as [|c s IH]; simpl; [reflexivity|].
  destruct (isspace c); simpl; [|discriminate].
  intros H. now rewrite (IH H).
Qed.

Lemma strip_all_space (s : string) : all_space s = true -> strip s = "".
Proof. intros H. unfold strip. now rewrite (lstrip_all_space s H). Qed.

Lemma lstrip_space_prefix (ws s : string) :
  all_space ws = true -> lstrip (String.append ws s) = lstrip s.
Proof.
  induction ws as [|c ws IH]; simpl; [reflexivity|].
  destruct (isspace c); simpl; [exact IH|discriminate].
Qed.

Lemma rstrip_space_suffix (s ws : string) :
  all_space ws = true -> rstrip (String.append s ws) = rstrip s.
Proof.
  intros H. induction s as [|c s IH]; simpl.
  - now apply rstrip_all_space.
  - now rewrite IH.
Qed.

Lemma lstrip_space_suffix (s ws : string) :
  all_space ws = true ->
  lstrip (String.append s ws) =
  if all_space s then "" else String.append (lstrip s) ws.
Proof.
  intros H. induction s as [|c s IH]; simpl.
  - now apply lstrip_all_space.
  - destruct (isspace c); simpl; [exact IH|reflexivity].
Qed.

Lemma strip_surrounded (ws1 u ws2 : string) :
  all_space ws1 = true -> all_space ws2 = true ->
  strip (String.append ws1 (String.append u ws2)) = strip u.
Proof.
  intros H1 H2. unfold strip.
  rewrite (lstrip_space_prefix _ _ H1), (lstrip_space_suffix _ _ H2).
  destruct (all_space u) eqn:Hu.
  - now rewrite (lstrip_all_space u Hu).
  - now apply rstrip_space_suffix.
Qed.

(** What the resolver computes from an input that is a key [k] in another
    letter case, with whitespace around it. *)
Lemma normalized_surrounded (ws1 u ws2 k : string) :
  all_space ws1 = true -> all_space ws2 = true ->
  lower u = lower k -> strip k = k ->
  lower (strip (String.append ws1 (String.append u ws2))) = lower k.
Proof.
  intros H1 H2 Hu Hk.
  rewrite (strip_surrounded _ _ _ H1 H2), lower_strip, Hu, <- lower_strip.
  now rewrite Hk.
Qed.

Lemma replace_idem (a b : ascii) (s : string) :
  a <> b -> replace a b (replace a b s) = replace a b s.
Proof.
  intros Hab. induction s as [|c s IH]; simpl; [reflexivity|].
  rewrite IH. f_equal.
  destruct (Ascii.eqb c a) eqn:E; [|now rewrite E].
  destruct (Ascii.eqb b a) eqn:E'; [|reflexivity].
  apply Ascii.eqb_eq in E'. congruence.
Qed.

End PyStrFacts.

(* ================================================================== *)
(** * Facts about dictionaries and sets *)
(* ================================================================== *)

Module DictFacts.
Section WithValue.
Context {V : Type}.
Implicit Types (d : Dict.t V) (k : string) (v : V).

Lemma get_set_same k v d : Dict.get k (Dict.set k v d) = Some v.
Proof.
  induction d as [|[k' v'] d IH]; simpl.
  - now rewrite String.eqb_refl.
  - destruct (String.eqb k k') eqn:E; simpl; rewrite ?String.eqb_refl, ?E; auto.
Qed.

Lemma get_set_other k k' v d :
  k <> k' -> Dict.get k (Dict.set k' v d) = Dict.get k d.
Proof.
  intros Hne. apply String.eqb_neq in Hne.
  induction d as [|[k0 v0] d IH]; simpl.
  - now rewrite Hne.
  - destruct (String.eqb k' k0) eqn:E; simpl.
    + apply String.eqb_eq in E; subst k0. now rewrite Hne.
    + now rewrite IH.
Qed.

Lemma get_set k k' v d :
  Dict.get k (Dict.set k' v d) =
  if String.eqb k k' then Some v else Dict.get k d.
Proof.
  destruct (String.eqb k k') eqn:E.
  - apply String.eqb_eq in E; subst. apply get_set_same.
  - apply String.eqb_neq in E. now apply get_set_other.
Qed.

Lemma get_Some_In k v d : Dict.get k d = Some v -> In (k, v) d.
Proof.
  induction d as [|[k' v'] d IH]; simpl; [discriminate|].
  destruct (String.eqb k k') eqn:E.
  - apply String.eqb_eq in E; subst. intros [= ->]. now left.
  - intros H. right. auto.
Qed.

Lemma In_keys_get k d : In k (Dict.keys d) <-> Dict.get k d <> None.
Proof.
  induction d as [|[k' v'] d IH]; simpl.
  - split; [tauto|congruence].
  - destruct (String.eqb k k') eqn:E.
    + apply String.eqb_eq in E; subst. split; [discriminate|now left].
    + apply String.eqb_neq in E. rewrite <- IH. split.
      * intros [H|H]; [congruence|exact H].
      * now right.
Qed.

Lemma mem_true k d : Dict.mem k d = true <-> In k (Dict.keys d).
Proof.
  rewrite In_keys_get. unfold Dict.mem.
  destruct (Dict.get k d); split; congruence.
Qed.

Lemma mem_false k d : Dict.mem k d = false <-> Dict.get k d = None.
Proof. unfold Dict.mem. destruct (Dict.get k d); split; congruence. Qed.


End WithValue.
End DictFacts.

Module PySetFacts.

Lemma set_mem_true x s : PySet.mem x s = true <-> In x s.
Proof.
  unfold PySet.mem. rewrite existsb_exists. split.
  - intros [y [Hy E]]. apply String.eqb_eq in E. now subst.
  - intros H. exists x. split; [exact H|apply String.eqb_refl].
Qed.

Lemma In_add x y s : In x (PySet.add y s) <-> x = y \/ In x s.
Proof.
  unfold PySet.add. destruct (PySet.mem y s) eqn:E.
  - apply set_mem_true in E. split; [now right|]. intros [->|H]; assumption.
  - rewrite in_app_iff. simpl. intuition.
Qed.

End PySetFacts.

(* ================================================================== *)
(** * Facts about the lookup structures *)
(* ================================================================== *)

Module IndexFacts.
Import DictFacts.

Section FoldSet.
Context {A V : Type} (f : A -> string) (g : A -> V).

Lemma get_fold_set (l : list A) (d : Dict.t V) (k : string) :
  Dict.get k (fold_left (fun m x => Dict.set (f x) (g x) m) l d) =
  match find_last (fun x => String.eqb (f x) k) l with
  | Some x => Some (g x)
  | None => Dict.get k d
  end.
Proof.
  revert d. induction l as [|x l IH]; intros d; simpl; [reflexivity|].
  rewrite IH. destruct (find_last _ l); [reflexivity|].
  rewrite get_set, String.eqb_sym. now destruct (String.eqb (f x) k).
Qed.

Lemma find_last_Some (h : A -> bool) (l : list A) (x : A) :
  find_last h l = Some x -> In x l /\ h x = true.
Proof.
  induction l as [|y l IH]; simpl; [discriminate|].
  destruct (find_last h l) as [z|].
  - intros [= ->]. destruct (IH eq_refl). auto.
  - destruct (h y) eqn:E; [|discriminate]. intros [= ->]. auto.
Qed.

Lemma find_last_None (h : A -> bool) (l : list A) :
  find_last h l = None <-> forall x, In x l -> h x = false.
Proof.
  induction l as [|y l IH]; simpl.
  - split; [intros _ x []|reflexivity].
  - destruct (find_last h l) as [z|] eqn:E.
    + split; [discriminate|]. intros H.
      destruct (find_last_Some _ _ _ E) as [Hin Hz].
      rewrite (H z (or_intror Hin)) in Hz. discriminate.
    + destruct (h y) eqn:Ey.
      * split; [discriminate|]. intros H.
        rewrite (H y (or_introl eq_refl)) in Ey. discriminate.
      * split; [|reflexivity]. intros _ x [<-|Hx]; [exact Ey|].
        now apply (proj1 IH eq_refl).
Qed.

Lemma find_last_split (h : A -> bool) (pre post : list A) (x : A) :
  h x = true -> (forall y, In y post -> h y = false) ->
  find_last h (pre ++ x :: post) = Some x.
Proof.
  intros Hx Hpost. induction pre as [|y pre IH]; simpl.
  - rewrite (proj2 (find_last_None h post) Hpost). now rewrite Hx.
  - now rewrite IH.
Qed.

Lemma In_keys_fold_set (l : list A) (d : Dict.t V) (k : string) :
  In k (Dict.keys (fold_left (fun m x => Dict.set (f x) (g x) m) l d)) <->
  In k (Dict.keys d) \/ exists x, In x l /\ f x = k.
Proof.
  rewrite !In_keys_get, get_fold_set.
  destruct (find_last _ l) as [x|] eqn:E.
  - apply find_last_Some in E. destruct E as [Hin Hx].
    apply String.eqb_eq in Hx. split; [|discriminate].
    intros _. right. now exists x.
  - split; [now left|]. intros [H|[x [Hin Hx]]]; [exact H|].
    rewrite find_last_None in E. specialize (E x Hin).
    apply String.eqb_neq in E. contradiction.
Qed.

End FoldSet.

Lemma fold_slug_map (ps : list Protocol.t) (ix : Index) :
  slug_map (fold_left index_step ps ix) =
  fold_left (fun m p => Dict.set (slug_key p) p m) ps (slug_map ix).
Proof.
  revert ix. induction ps as [|p ps IH]; intros ix; simpl; [reflexivity|].
  rewrite IH. unfold index_step. now destruct (parent_key p).
Qed.

Lemma fold_name_map (ps : list Protocol.t) (ix : Index) :
  name_map (fold_left index_step ps ix) =
  fold_left (fun m p => Dict.set (name_key p) p m) ps (name_map ix).
Proof.
  revert ix. induction ps as [|p ps IH]; intros ix; simpl; [reflexivity|].
  rewrite IH. unfold index_step. now destruct (parent_key p).
Qed.

(** [slug_map[k]] is the last record filed under [k]. *)
Lemma get_slug_map (protocols : list Protocol.t) (k : string) :
  Dict.get k (slug_map (build_index protocols)) =
  find_last (fun p => String.eqb (slug_key p) k) protocols.
Proof.
  unfold build_index. rewrite fold_slug_map, (get_fold_set slug_key (fun p => p)).
  now destruct (find_last _ _).
Qed.

Lemma get_name_map (protocols : list Protocol.t) (k : string) :
  Dict.get k (name_map (build_index protocols)) =
  find_last (fun p => String.eqb (name_key p) k) protocols.
Proof.
  unfold build_index. rewrite fold_name_map, (get_fold_set name_key (fun p => p)).
  now destruct (find_last _ _).
Qed.

Lemma In_keys_slug_map (protocols : list Protocol.t) (k : string) :
  In k (Dict.keys (slug_map (build_index protocols))) <->
  exists p, In p protocols /\ slug_key p = k.
Proof.
  unfold build_index.
  rewrite fold_slug_map, (In_keys_fold_set slug_key (fun p => p)). simpl. tauto.
Qed.

Lemma In_keys_name_map (protocols : list Protocol.t) (k : string) :
  In k (Dict.keys (name_map (build_index protocols))) <->
  exists p, In p protocols /\ name_key p = k.
Proof.
  unfold build_index.
  rewrite fold_name_map, (In_keys_fold_set name_key (fun p => p)). simpl. tauto.
Qed.

Lemma refers_to_iff (k : string) (p : Protocol.t) :
  refers_to k p = true <-> parent_key p = Some k.
Proof.
  unfold refers_to. destruct (parent_key p) as [ps|].
  - rewrite String.eqb_eq. split; congruence.
  - split; discriminate.
Qed.

Lemma get_fold_parent_children (ps : list Protocol.t) (ix : Index) (k : string) :
  Dict.get k (parent_children (fold_left index_step ps ix)) =
  match Dict.get k (parent_children ix), members_of ps k with
  | Some l, m => Some (l ++ m)
  | None, [] => None
  | None, m => Some m
  end.
Proof.
  revert ix. induction ps as [|p ps IH]; intros ix; simpl.
  - destruct (Dict.get k (parent_children ix)); [now rewrite app_nil_r|reflexivity].
  - rewrite IH. unfold index_step, refers_to.
    destruct (parent_key p) as [ps'|]; simpl; [|reflexivity].
    rewrite get_set, (String.eqb_sym ps' k).
    destruct (String.eqb k ps') eqn:E.
    + apply String.eqb_eq in E; subst ps'.
      destruct (Dict.get k (parent_children ix)); simpl.
      * now rewrite <- app_assoc.
      * reflexivity.
    + reflexivity.
Qed.

(** [parent_children[k]] lists the members of the group of [k]; the key is
    present exactly when the group has a member. *)
Lemma get_parent_children (protocols : list Protocol.t) (k : string) :
  Dict.get k (parent_children (build_index protocols)) =
  match members_of protocols k with
  | [] => None
  | m => Some m
  end.
Proof. unfold build_index. now rewrite get_fold_parent_children. Qed.

Lemma In_fold_parent_slugs (ps : list Protocol.t) (ix : Index) (k : string) :
  In k (parent_slugs (fold_left index_step ps ix)) <->
  In k (parent_slugs ix) \/ exists p, In p ps /\ parent_key p = Some k.
Proof.
  revert ix. induction ps as [|p ps IH]; intros ix; simpl.
  - split; [now left|]. intros [H|[p [[] _]]]. exact H.
  - rewrite IH. unfold index_step.
    destruct (parent_key p) as [ps'|] eqn:E; simpl.
    + rewrite PySetFacts.In_add. split.
      * intros [[->|H]|[q [Hq Hk]]].
        -- right. exists p. auto.
        -- now left.
        -- right. exists q. auto.
      * intros [H|[q [[<-|Hq] Hk]]].
        -- left. now right.
        -- left. left. congruence.
        -- right. exists q. auto.
    + split.
      * intros [H|[q [Hq Hk]]]; [now left|]. right. exists q. auto.
      * intros [H|[q [[<-|Hq] Hk]]]; [now left|congruence|].
        right. exists q. auto.
Qed.

Lemma In_parent_slugs (protocols : list Protocol.t) (k : string) :
  In k (parent_slugs (build_index protocols)) <->
  exists p, In p protocols /\ parent_key p = Some k.
Proof.
  unfold build_index. rewrite In_fold_parent_slugs. simpl. tauto.
Qed.

Lemma members_of_nonempty (protocols : list Protocol.t) (k : string) :
  members_of protocols k <> [] <->
  exists p, In p protocols /\ parent_key p = Some k.
Proof.
  unfold members_of. split.
  - destruct (filter _ _) as [|p l] eqn:E; [congruence|]. intros _.
    assert (H : In p (filter (refers_to k) protocols)) by (rewrite E; now left).
    apply filter_In in H. exists p. now rewrite <- refers_to_iff.
  - intros [p [Hp Hk]] E.
    assert (H : In p (filter (refers_to k) protocols)).
    { apply filter_In. now rewrite refers_to_iff. }
    rewrite E in H. destruct H.
Qed.

Lemma In_members_of (protocols : list Protocol.t) (k : string) (p : Protocol.t) :
  In p (members_of protocols k) <-> In p protocols /\ parent_key p = Some k.
Proof. unfold members_of. now rewrite filter_In, refers_to_iff. Qed.

(** A parent slug of the set is a key of [parent_children]. *)
Lemma parent_slug_has_members (protocols : list Protocol.t) (k : string) :
  In k (parent_slugs (build_index protocols)) ->
  Dict.get k (parent_children (build_index protocols)) =
    Some (members_of protocols k) /\ members_of protocols k <> [].
Proof.
  intros H. apply In_parent_slugs, members_of_nonempty in H.
  rewrite get_parent_children. split; [|exact H].
  now destruct (members_of protocols k).
Qed.

Lemma In_keys_parent_children (protocols : list Protocol.t) (k : string) :
  In k (Dict.keys (parent_children (build_index protocols))) <->
  In k (parent_slugs (build_index protocols)).
Proof.
  rewrite In_keys_get, get_parent_children, In_parent_slugs, <- members_of_nonempty.
  destruct (members_of protocols k); split; congruence.
Qed.

End IndexFacts.

Module CandidateFacts.
Import DictFacts IndexFacts.

Section MoreDict.
Context {V : Type}.
Implicit Types (d : Dict.t V) (k : string) (v : V).

Lemma In_set k v k' v' d :
  In (k, v) (Dict.set k' v' d) -> (k = k' /\ v = v') \/ In (k, v) d.
Proof.
  induction d as [|[k0 v0] d IH]; simpl.
  - intros [[= <- <-]|[]]. now left.
  - destruct (String.eqb k' k0) eqn:E; simpl.
    + intros [[= <- <-]|H]; [now left|right; now right].
    + intros [H|H]; [right; now left|].
      destruct (IH H) as [H'|H']; [now left|right; now right].
Qed.

Lemma keys_set k v d :
  Dict.keys (Dict.set k v d) =
  if Dict.mem k d then Dict.keys d else Dict.keys d ++ [k].
Proof.
  unfold Dict.mem. induction d as [|[k0 v0] d IH]; simpl; [reflexivity|].
  destruct (String.eqb k k0) eqn:E; simpl.
  - apply String.eqb_eq in E. now subst.
  - rewrite IH. now destruct (Dict.get k d).
Qed.

Lemma NoDup_keys_set k v d :
  NoDup (Dict.keys d) -> NoDup (Dict.keys (Dict.set k v d)).
Proof.
  intros H. rewrite keys_set. destruct (Dict.mem k d) eqn:E; [exact H|].
  assert (Hk : ~ In k (Dict.keys d)).
  { rewrite <- mem_true. congruence. }
  clear E. induction (Dict.keys d) as [|x l IH]; simpl.
  - constructor; [intros []|constructor].
  - inversion H as [|? ? Hx Hl]; subst. constructor.
    + rewrite in_app_iff. simpl. intros [Hin|[->|[]]]; [auto|].
      apply Hk. now left.
    + apply IH; [exact Hl|]. intros Hin. apply Hk. now right.
Qed.

Lemma In_NoDup_get k v d :
  NoDup (Dict.keys d) -> In (k, v) d -> Dict.get k d = Some v.
Proof.
  induction d as [|[k0 v0] d IH]; simpl; [intros _ []|].
  intros Hnd [[= -> ->]|Hin].
  - now rewrite String.eqb_refl.
  - inversion Hnd as [|? ? Hk0 Hd]; subst.
    destruct (String.eqb k k0) eqn:E.
    + apply String.eqb_eq in E; subst k0. exfalso. apply Hk0.
      change k with (fst (k, v)). now apply in_map.
    + auto.
Qed.

End MoreDict.

Section FoldSetPairs.
Context {A V : Type} (f : A -> string) (g : A -> V).

Lemma In_fold_set (l : list A) (d : Dict.t V) (k : string) (v : V) :
  In (k, v) (fold_left (fun m x => Dict.set (f x) (g x) m) l d) ->
  In (k, v) d \/ exists x, In x l /\ f x = k /\ g x = v.
Proof.
  revert d. induction l as [|x l IH]; intros d; simpl; [now left|].
  intros H. destruct (IH _ H) as [H'|[y [Hy Hfg]]].
  - destruct (In_set _ _ _ _ _ H') as [[-> ->]|H''].
    + right. exists x. auto.
    + now left.
  - right. exists y. auto.
Qed.

End FoldSetPairs.

Lemma NoDup_keys_fold_parent_children (ps : list Protocol.t) (ix : Index) :
  NoDup (Dict.keys (parent_children ix)) ->
  NoDup (Dict.keys (parent_children (fold_left index_step ps ix))).
Proof.
  revert ix. induction ps as [|p ps IH]; intros ix H; simpl; [exact H|].
  apply IH. unfold index_step. destruct (parent_key p); simpl; [|exact H].
  now apply NoDup_keys_set.
Qed.

(** Every item of [parent_children] is a group with its members. *)
Lemma In_parent_children (protocols : list Protocol.t) (k : string)
    (l : list Protocol.t) :
  In (k, l) (parent_children (build_index protocols)) ->
  l = members_of protocols k /\ l <> [].
Proof.
  intros H. apply In_NoDup_get in H.
  - rewrite get_parent_children in H.
    destruct (members_of protocols k); [discriminate|].
    injection H as <-. split; [reflexivity|discriminate].
  - apply NoDup_keys_fold_parent_children. constructor.
Qed.

Lemma parent_name_map_of_fold (pc : Dict.t (list Protocol.t)) :
  parent_name_map_of pc = fold_left name_map_step (Dict.items pc) Dict.empty.
Proof. reflexivity. Qed.

Lemma In_fold_name_map_step (items : list (string * list Protocol.t))
    (m : Dict.t string) (k v : string) :
  In (k, v) (fold_left name_map_step items m) ->
  In (k, v) m \/
  exists l child, In (v, l) items /\ In child l /\ derived_key child = k.
Proof.
  revert m. induction items as [|[ps l] items IH]; intros m; simpl; [now left|].
  intros H. destruct (IH _ H) as [H'|[l' [c [Hi [Hc Hk]]]]].
  - unfold name_map_step in H'. simpl in H'.
    apply (In_fold_set derived_key (fun _ => ps)) in H'.
    destruct H' as [H'|[c [Hc [Hk <-]]]]; [now left|].
    right. exists l, c. auto.
  - right. exists l', c. auto.
Qed.

Lemma In_keys_fold_name_map_step (items : list (string * list Protocol.t))
    (m : Dict.t string) (k : string) :
  In k (Dict.keys (fold_left name_map_step items m)) <->
  In k (Dict.keys m) \/
  exists item child, In item items /\ In child (snd item) /\ derived_key child = k.
Proof.
  revert m. induction items as [|item items IH]; intros m; simpl.
  - split; [now left|]. intros [H|[? [? [[] _]]]]. exact H.
  - rewrite IH. unfold name_map_step.
    rewrite (In_keys_fold_set derived_key (fun _ => fst item)). split.
    + intros [[H|[c [Hc Hk]]]|[it [c [Hi [Hc Hk]]]]].
      * now left.
      * right. exists item, c. auto.
      * right. exists it, c. auto.
    + intros [H|[it [c [[<-|Hi] [Hc Hk]]]]].
      * left. now left.
      * left. right. exists c. auto.
      * right. exists it, c. auto.
Qed.

(** The keys of [parent_name_map] are the derived keys of the group
    members. *)
Lemma In_keys_parent_name_map (protocols : list Protocol.t) (k : string) :
  In k (Dict.keys (parent_name_map_of (parent_children (build_index protocols)))) <->
  exists p, In p protocols /\ parent_key p <> None /\ derived_key p = k.
Proof.
  rewrite parent_name_map_of_fold, In_keys_fold_name_map_step. split.
  - intros [[]|[[ps l] [c [Hi [Hc Hk]]]]]. cbn [fst snd] in Hc.
    apply In_parent_children in Hi. destruct Hi as [-> _].
    apply In_members_of in Hc. destruct Hc as [Hc Hp].
    exists c. repeat split; [exact Hc|congruence|exact Hk].
  - intros [p [Hp [Hpk Hk]]]. right.
    destruct (parent_key p) as [ps|] eqn:E; [|congruence].
    exists (ps, members_of protocols ps), p. cbn [fst snd].
    assert (Hm : In p (members_of protocols ps)) by now apply In_members_of.
    repeat split; [|exact Hm|exact Hk].
    unfold Dict.items. apply get_Some_In. rewrite get_parent_children.
    destruct (members_of protocols ps); [destruct Hm|reflexivity].
Qed.

(** The values of [parent_name_map] are parent slugs of the set. *)
Lemma In_parent_name_map_value (protocols : list Protocol.t) (k v : string) :
  In (k, v) (parent_name_map_of (parent_children (build_index protocols))) ->
  In v (parent_slugs (build_index protocols)).
Proof.
  rewrite parent_name_map_of_fold. intros H.
  apply In_fold_name_map_step in H. destruct H as [[]|[l [c [Hi _]]]].
  apply In_keys_parent_children. change v with (fst (v, l)). now apply in_map.
Qed.

Section Candidates.
Variable set_iter : PySet.t -> list string.
Hypothesis set_iter_perm : forall s, Permutation (set_iter s) s.

Lemma In_set_iter (s : PySet.t) (x : string) : In x (set_iter s) <-> In x s.
Proof.
  split; apply Permutation_in;
    [apply set_iter_perm|apply Permutation_sym, set_iter_perm].
Qed.

(** The keys of [all_candidates]. *)
Lemma In_keys_all_candidates (ix : Index) (pnm : Dict.t string) (k : string) :
  In k (Dict.keys (all_candidates_of set_iter ix pnm)) <->
  In k (Dict.keys (slug_map ix)) \/ In k (Dict.keys (name_map ix)) \/
  In k (parent_slugs ix) \/ In k (Dict.keys pnm).
Proof.
  unfold all_candidates_of.
  rewrite (In_keys_fold_set fst (fun item => (KParent, snd item))).
  rewrite (In_keys_fold_set (fun ps => ps) (fun ps => (KParent, ps))).
  rewrite (In_keys_fold_set (fun n => n) (fun n => (KName, n))).
  rewrite (In_keys_fold_set (fun s => s) (fun s => (KSlug, s))).
  simpl. unfold Dict.items.
  assert (E : forall l : list string,
             (exists x, In x l /\ x = k) <-> In k l).
  { intros l. split; [intros [x [Hx ->]]; exact Hx|intros H; now exists k]. }
  rewrite !E, In_set_iter.
  assert (E' : (exists x : string * string, In x pnm /\ fst x = k) <->
               In k (Dict.keys pnm)).
  { unfold Dict.keys. rewrite in_map_iff. split; intros [x [H1 H2]]; exists x; auto. }
  rewrite E'. tauto.
Qed.

(** The tag of a candidate key names a structure that holds its target. *)
Lemma all_candidates_value (ix : Index) (pnm : Dict.t string)
    (k key : string) (kd : kind) :
  Dict.get k (all_candidates_of set_iter ix pnm) = Some (kd, key) ->
  match kd with
  | KSlug => In key (Dict.keys (slug_map ix))
  | KName => In key (Dict.keys (name_map ix))
  | KParent => In key (parent_slugs ix) \/ exists k', In (k', key) pnm
  end.
Proof.
  intros H. apply get_Some_In in H. unfold all_candidates_of in H.
  apply (In_fold_set fst (fun item => (KParent, snd item))) in H.
  destruct H as [H|[[k' v] [Hi [_ [= <- <-]]]]]; [|right; now exists k'].
  apply (In_fold_set (fun ps => ps) (fun ps => (KParent, ps))) in H.
  destruct H as [H|[x [Hx [_ [= <- <-]]]]]; [|left; now apply In_set_iter].
  apply (In_fold_set (fun n => n) (fun n => (KName, n))) in H.
  destruct H as [H|[x [Hx [_ [= <- <-]]]]]; [|exact Hx].
  apply (In_fold_set (fun s => s) (fun s => (KSlug, s))) in H.
  destruct H as [[]|[x [Hx [_ [= <- <-]]]]]. exact Hx.
Qed.

End Candidates.

End CandidateFacts.

(* ================================================================== *)
(** * The tag of a candidate key *)
(* ================================================================== *)

Module TagFacts.
Import DictFacts IndexFacts CandidateFacts.

Lemma NoDup_keys_fold_set {A V : Type} (f : A -> string) (g : A -> V)
    (l : list A) (d : Dict.t V) :
  NoDup (Dict.keys d) ->
  NoDup (Dict.keys (fold_left (fun m x => Dict.set (f x) (g x) m) l d)).
Proof.
  revert d. induction l as [|x l IH]; intros d H; simpl; [exact H|].
  apply IH. now apply NoDup_keys_set.
Qed.

Lemma NoDup_keys_parent_name_map (pc : Dict.t (list Protocol.t)) :
  NoDup (Dict.keys (parent_name_map_of pc)).
Proof.
  rewrite parent_name_map_of_fold. unfold Dict.items.
  assert (H : NoDup (Dict.keys (@Dict.empty string))) by constructor.
  revert H. generalize (@Dict.empty string).
  induction pc as [|item pc IH]; intros m H; simpl; [exact H|].
  apply IH. unfold name_map_step. now apply NoDup_keys_fold_set.
Qed.

(** A loop [for x in l: c[x] = (tag, x)] overrides the entries of the keys
    of [l] and leaves the others. *)
Lemma get_fold_tag (tag : kind) (l : list string) (c : Dict.t (kind * string))
    (k : string) :
  Dict.get k (fold_left (fun c x => Dict.set x (tag, x) c) l c) =
  if existsb (String.eqb k) l then Some (tag, k) else Dict.get k c.
Proof.
  rewrite (get_fold_set (fun x => x) (fun x => (tag, x))).
  destruct (find_last _ l) as [x|] eqn:E.
  - apply find_last_Some in E. destruct E as [Hin Hx].
    apply String.eqb_eq in Hx. subst x.
    replace (existsb (String.eqb k) l) with true; [reflexivity|].
    symmetry. apply existsb_exists. exists k. split; [exact Hin|].
    apply String.eqb_refl.
  - rewrite find_last_None in E.
    replace (existsb (String.eqb k) l) with false; [reflexivity|].
    symmetry. apply not_true_is_false. rewrite existsb_exists.
    intros [x [Hin Hx]]. apply String.eqb_eq in Hx. subst x.
    specialize (E k Hin). cbn beta in E. rewrite String.eqb_refl in E.
    discriminate.
Qed.

Lemma get_fold_parent_tag (pnm : Dict.t string) (c : Dict.t (kind * string))
    (k : string) :
  NoDup (Dict.keys pnm) ->
  Dict.get k (fold_left (fun c item => Dict.set (fst item) (KParent, snd item) c)
                        (Dict.items pnm) c) =
  match Dict.get k pnm with
  | Some ps => Some (KParent, ps)
  | None => Dict.get k c
  end.
Proof.
  intros Hnd. unfold Dict.items.
  rewrite (get_fold_set fst (fun item => (KParent, snd item))).
  destruct (find_last _ pnm) as [[k' v]|] eqn:E.
  - apply find_last_Some in E. destruct E as [Hin Hk]. simpl in Hk.
    apply String.eqb_eq in Hk. subst k'.
    now rewrite (In_NoDup_get _ _ _ Hnd Hin).
  - rewrite find_last_None in E.
    destruct (Dict.get k pnm) as [v|] eqn:G; [|reflexivity].
    apply get_Some_In in G. specialize (E _ G). simpl in E.
    rewrite String.eqb_refl in E. discriminate.
Qed.

Lemma existsb_keys_mem {V : Type} (k : string) (d : Dict.t V) :
  existsb (String.eqb k) (Dict.keys d) = Dict.mem k d.
Proof.
  destruct (Dict.mem k d) eqn:E.
  - apply mem_true in E. apply existsb_exists. exists k.
    split; [exact E|apply String.eqb_refl].
  - apply not_true_is_false. rewrite existsb_exists.
    intros [x [Hin Hx]]. apply String.eqb_eq in Hx. subst x.
    apply mem_true in Hin. congruence.
Qed.

Section Tag.
Variable set_iter : PySet.t -> list string.
Hypothesis set_iter_perm : forall s, Permutation (set_iter s) s.

Lemma existsb_set_iter (k : string) (s : PySet.t) :
  existsb (String.eqb k) (set_iter s) = PySet.mem k s.
Proof.
  unfold PySet.mem. destruct (existsb (String.eqb k) s) eqn:E.
  - apply existsb_exists in E. destruct E as [x [Hin Hx]].
    apply existsb_exists. exists x. split; [|exact Hx].
    now apply (In_set_iter _ set_iter_perm).
  - apply not_true_is_false. rewrite existsb_exists.
    intros [x [Hin Hx]].
    apply (proj1 (In_set_iter _ set_iter_perm _ _)) in Hin.
    assert (Ht : existsb (String.eqb k) s = true).
    { apply existsb_exists. now exists x. }
    congruence.
Qed.

(** The entry of a key in [all_candidates] is written by the last of the
    four loops that holds the key: derived parent names, then parent slugs,
    then names, then slugs. *)
Lemma all_candidates_tag (ix : Index) (pnm : Dict.t string) (k : string) :
  NoDup (Dict.keys pnm) ->
  Dict.get k (all_candidates_of set_iter ix pnm) =
  match Dict.get k pnm with
  | Some ps => Some (KParent, ps)
  | None =>
      if PySet.mem k (parent_slugs ix) then Some (KParent, k)
      else if Dict.mem k (name_map ix) then Some (KName, k)
      else if Dict.mem k (slug_map ix) then Some (KSlug, k)
      else None
  end.
Proof.
  intros Hnd. unfold all_candidates_of.
  rewrite (get_fold_parent_tag _ _ _ Hnd).
  destruct (Dict.get k pnm); [reflexivity|].
  rewrite !get_fold_tag, existsb_set_iter, !existsb_keys_mem.
  reflexivity.
Qed.

End Tag.
End TagFacts.

(* ================================================================== *)
(** * Facts about get_close_matches *)
(* ================================================================== *)

Module DifflibFacts.
Import Difflib.

Lemma ascii_compare_lt_trans (x y z : ascii) :
  Ascii.compare x y = Lt -> Ascii.compare y z = Lt -> Ascii.compare x z = Lt.
Proof.
  unfold Ascii.compare. rewrite !N.compare_lt_iff. lia.
Qed.

Lemma string_compare_lt_trans (a b c : string) :
  String.compare a b = Lt -> String.compare b c = Lt -> String.compare a c = Lt.
Proof.
  revert b c. induction a as [|x a IH]; intros [|y b] [|z c]; simpl;
    try discriminate; try reflexivity.
  destruct (Ascii.compare x y) eqn:Exy; try discriminate;
    destruct (Ascii.compare y z) eqn:Eyz; try discriminate; intros H1 H2.
  - apply Ascii.compare_eq_iff in Exy; subst y. rewrite Eyz. eauto.
  - apply Ascii.compare_eq_iff in Exy; subst y. now rewrite Eyz.
  - apply Ascii.compare_eq_iff in Eyz; subst z. now rewrite Exy.
  - now rewrite (ascii_compare_lt_trans _ _ _ Exy Eyz).
Qed.

Lemma string_leb_trans (a b c : string) :
  String.leb a b = true -> String.leb b c = true -> String.leb a c = true.
Proof.
  unfold String.leb.
  destruct (String.compare a b) eqn:Eab; try discriminate;
    destruct (String.compare b c) eqn:Ebc; try discriminate; intros _ _.
  - apply String.compare_eq_iff in Eab; subst b. now rewrite Ebc.
  - apply String.compare_eq_iff in Eab; subst b. now rewrite Ebc.
  - apply String.compare_eq_iff in Ebc; subst c. now rewrite Eab.
  - now rewrite (string_compare_lt_trans _ _ _ Eab Ebc).
Qed.

Lemma pair_leb_total (p q : Q * string) :
  pair_leb p q = false -> pair_leb q p = true.
Proof.
  unfold pair_leb. rewrite <- (Qcompare_antisym (fst p) (fst q)).
  destruct (Qcompare (fst p) (fst q)); simpl; try easy.
  intros H. destruct (String.leb_total (snd p) (snd q)); congruence.
Qed.

Lemma pair_leb_trans (p q r : Q * string) :
  pair_leb p q = true -> pair_leb q r = true -> pair_leb p r = true.
Proof.
  unfold pair_leb.
  destruct (Qcompare_spec (fst p) (fst q)) as [E1|L1|G1]; try discriminate;
    destruct (Qcompare_spec (fst q) (fst r)) as [E2|L2|G2]; try discriminate;
    intros H1 H2.
  - assert (E : Qcompare (fst p) (fst r) = Eq).
    { apply Qeq_alt. now rewrite E1. }
    rewrite E. eapply string_leb_trans; eassumption.
  - assert (E : Qcompare (fst p) (fst r) = Lt).
    { apply Qlt_alt. now rewrite E1. }
    now rewrite E.
  - assert (E : Qcompare (fst p) (fst r) = Lt).
    { apply Qlt_alt. now rewrite <- E2. }
    now rewrite E.
  - assert (E : Qcompare (fst p) (fst r) = Lt).
    { apply Qlt_alt. eapply Qlt_trans; eassumption. }
    now rewrite E.
Qed.

Lemma In_insert_desc (p x : Q * string) (l : list (Q * string)) :
  In x (insert_desc p l) <-> x = p \/ In x l.
Proof.
  induction l as [|q l IH]; simpl.
  - intuition.
  - destruct (pair_leb q p); simpl; [intuition|]. rewrite IH. intuition.
Qed.

Lemma In_sort_desc (x : Q * string) (l : list (Q * string)) :
  In x (sort_desc l) <-> In x l.
Proof.
  induction l as [|p l IH]; simpl; [tauto|].
  rewrite In_insert_desc, IH. intuition.
Qed.

Lemma insert_desc_sorted (p : Q * string) (l : list (Q * string)) :
  StronglySorted before l -> StronglySorted before (insert_desc p l).
Proof.
  induction l as [|q l IH]; intros H; simpl.
  - constructor; [constructor|constructor].
  - inversion H as [|? ? Hl Hq]; subst.
    destruct (pair_leb q p) eqn:E.
    + constructor; [exact H|]. constructor; [exact E|].
      rewrite Forall_forall in *. intros x Hx. unfold before in *.
      eapply pair_leb_trans; [apply Hq, Hx|exact E].
    + constructor; [now apply IH|].
      rewrite Forall_forall in *. intros x Hx.
      apply In_insert_desc in Hx. destruct Hx as [->|Hx]; [|now apply Hq].
      now apply pair_leb_total.
Qed.

Lemma sort_desc_sorted (l : list (Q * string)) :
  StronglySorted before (sort_desc l).
Proof.
  induction l as [|p l IH]; simpl; [constructor|].
  now apply insert_desc_sorted.
Qed.

Lemma length_insert_desc (p : Q * string) (l : list (Q * string)) :
  length (insert_desc p l) = S (length l).
Proof.
  induction l as [|q l IH]; simpl; [reflexivity|].
  destruct (pair_leb q p); simpl; [reflexivity|now rewrite IH].
Qed.

Lemma length_sort_desc (l : list (Q * string)) :
  length (sort_desc l) = length l.
Proof.
  induction l as [|p l IH]; simpl; [reflexivity|].
  now rewrite length_insert_desc, IH.
Qed.

(** The first of the [n] largest is above every element. *)
Lemma nlargest_head (n : nat) (l : list (Q * string)) (p : Q * string)
    (rest : list (Q * string)) :
  nlargest n l = p :: rest -> In p l /\ forall q, In q l -> pair_leb q p = true.
Proof.
  unfold nlargest. intros H.
  pose proof (sort_desc_sorted l) as Hs.
  destruct (sort_desc l) as [|p' l'] eqn:E.
  - now rewrite firstn_nil in H.
  - destruct n as [|n]; simpl in H; [discriminate|]. injection H as -> _.
    inversion Hs as [|? ? _ Hall]; subst. split.
    + apply In_sort_desc. rewrite E. now left.
    + intros q Hq. apply In_sort_desc in Hq. rewrite E in Hq.
      destruct Hq as [<-|Hq].
      * unfold pair_leb.
        assert (Hq : Qcompare (fst p) (fst p) = Eq) by (apply Qeq_alt; reflexivity).
        rewrite Hq. unfold String.leb.
        destruct (String.compare (snd p) (snd p)) eqn:Ec; try reflexivity.
        pose proof (String.compare_antisym (snd p) (snd p)) as Ha.
        rewrite Ec in Ha. discriminate.
      * rewrite Forall_forall in Hall. now apply Hall.
Qed.

Lemma nlargest_nil (n : nat) (l : list (Q * string)) :
  0 < n -> nlargest n l = [] -> l = [].
Proof.
  unfold nlargest. intros Hn H.
  destruct l as [|p l]; [reflexivity|]. exfalso.
  pose proof (length_sort_desc (p :: l)) as Hl.
  destruct (sort_desc (p :: l)); [discriminate|].
  destruct n; [lia|discriminate].
Qed.

Lemma In_nlargest (n : nat) (l : list (Q * string)) (p : Q * string) :
  In p (nlargest n l) -> In p l.
Proof.
  unfold nlargest. intros H. apply In_sort_desc.
  rewrite <- (firstn_skipn n (sort_desc l)). apply in_or_app. now left.
Qed.

Lemma length_nlargest (n : nat) (l : list (Q * string)) :
  length (nlargest n l) <= n.
Proof. apply firstn_le_length. Qed.

Section CloseMatches.
Variables (word : string) (n : nat) (cutoff : Q).

Lemma In_get_close_matches (possibilities : list string) (x : string) :
  In x (get_close_matches word possibilities n cutoff) ->
  In x possibilities /\ close_enough word cutoff x = true.
Proof.
  unfold get_close_matches. intros H.
  apply in_map_iff in H. destruct H as [[s y] [<- H]].
  apply In_nlargest, in_map_iff in H. destruct H as [z [[= _ <-] H]].
  now apply filter_In in H.
Qed.

Lemma length_get_close_matches (possibilities : list string) :
  length (get_close_matches word possibilities n cutoff) <= n.
Proof.
  unfold get_close_matches. rewrite length_map. apply length_nlargest.
Qed.

Lemma get_close_matches_none (possibilities : list string) :
  (forall x, In x possibilities -> close_enough word cutoff x = false) ->
  get_close_matches word possibilities n cutoff = [].
Proof.
  intros H. unfold get_close_matches.
  assert (E : filter (close_enough word cutoff) possibilities = []).
  { destruct (filter _ _) as [|x l] eqn:E; [reflexivity|].
    assert (Hx : In x (filter (close_enough word cutoff) possibilities))
      by (rewrite E; now left).
    apply filter_In in Hx. destruct Hx as [Hx Hc]. rewrite (H x Hx) in Hc.
    discriminate. }
  rewrite E. simpl. unfold nlargest. simpl. now rewrite firstn_nil.
Qed.

Lemma get_close_matches_nil_inv (possibilities : list string) :
  0 < n -> get_close_matches word possibilities n cutoff = [] ->
  forall x, In x possibilities -> close_enough word cutoff x = false.
Proof.
  unfold get_close_matches. intros Hn H x Hx.
  apply map_eq_nil, (nlargest_nil _ _ Hn), map_eq_nil in H.
  destruct (close_enough word cutoff x) eqn:E; [|reflexivity].
  assert (Hin : In x (filter (close_enough word cutoff) possibilities))
    by now apply filter_In.
  rewrite H in Hin. destruct Hin.
Qed.

(** The first match is a possibility above the cutoff that no other such
    possibility beats in the order of the pairs [(score, string)]. *)
Lemma get_close_matches_head (possibilities : list string)
    (best : string) (rest : list string) :
  get_close_matches word possibilities n cutoff = best :: rest ->
  In best possibilities /\ close_enough word cutoff best = true /\
  forall x, In x possibilities -> close_enough word cutoff x = true ->
            pair_leb (ratio x word, x) (ratio best word, best) = true.
Proof.
  intros H.
  assert (Hb : In best (get_close_matches word possibilities n cutoff))
    by (rewrite H; now left).
  apply In_get_close_matches in Hb. destruct Hb as [Hb1 Hb2].
  split; [exact Hb1|]. split; [exact Hb2|]. intros x Hx Hc.
  unfold get_close_matches in H.
  destruct (nlargest n _) as [|[s y] l] eqn:E; [discriminate|].
  simpl in H. injection H as -> _.
  destruct (nlargest_head _ _ _ _ E) as [Hin Hmax].
  apply in_map_iff in Hin. destruct Hin as [z [[= <- <-] _]].
  apply Hmax. apply in_map_iff. exists x. split; [reflexivity|].
  now apply filter_In.
Qed.

End CloseMatches.

(** A non-empty string and the empty string are not close, at any
    positive cutoff. *)
Lemma not_close_to_empty_word (cutoff : Q) (x : string) :
  (0 < cutoff)%Q -> x <> "" -> close_enough "" cutoff x = false.
Proof.
  intros Hc Hx. unfold close_enough, real_quick_ratio, _calculate_ratio.
  destruct x as [|c x]; [congruence|]. simpl.
  replace (Qle_bool cutoff _) with false; [reflexivity|].
  symmetry. apply not_true_is_false. rewrite Qle_bool_iff.
  intros H. apply (Qlt_irrefl 0). eapply Qlt_le_trans; [exact Hc|].
  eapply Qle_trans; [exact H|]. unfold Qle. simpl. lia.
Qed.

Lemma empty_not_close_to_word (cutoff : Q) (word : string) :
  (0 < cutoff)%Q -> word <> "" -> close_enough word cutoff "" = false.
Proof.
  intros Hc Hx. unfold close_enough, real_quick_ratio, _calculate_ratio.
  destruct word as [|c w]; [congruence|]. simpl.
  replace (Qle_bool cutoff _) with false; [reflexivity|].
  symmetry. apply not_true_is_false. rewrite Qle_bool_iff.
  intros H. apply (Qlt_irrefl 0). eapply Qlt_le_trans; [exact Hc|].
  eapply Qle_trans; [exact H|]. unfold Qle. simpl. lia.
Qed.

(** The examples of the documentation of difflib. *)
Example ratio_abcd_bcde : (ratio "abcd" "bcde" == 3 # 4)%Q.
Proof. vm_compute. reflexivity. Qed.

Example close_matches_appel :
  get_close_matches "appel" ["ape"; "apple"; "peach"; "puppy"] 3 (6 # 10) =
  ["apple"; "ape"].
Proof. vm_compute. reflexivity. Qed.

End DifflibFacts.

(* ================================================================== *)
(** * The recursion of the matcher never runs out of fuel *)
(* ================================================================== *)

Module MatcherFacts.
Import Difflib.

Section Bounds.
Variables (a b : list ascii) (b2j : b2j_t).
Variables (alo ahi blo bhi : nat).

Lemma j2len_get_pred_bound (bound j : nat) (j2len : list (nat * nat)) :
  (forall j, j2len_lookup j j2len <= bound) ->
  j2len_get_pred j j2len <= bound.
Proof. intros H. destruct j; simpl; [lia|apply H]. Qed.

Lemma j2len_lookup_cons (bound j k : nat) (j2len : list (nat * nat)) :
  k <= bound -> (forall j, j2len_lookup j j2len <= bound) ->
  forall j', j2len_lookup j' ((j, k) :: j2len) <= bound.
Proof. intros Hk H j'. simpl. destruct (j' =? j); [exact Hk|apply H]. Qed.

(** One row keeps the block inside [a[alo:ahi]] and the run lengths
    within the number of rows scanned. *)
Lemma scan_positions_bounds (i : nat) (j2len : list (nat * nat))
    (js : list nat) :
  alo <= i -> i < ahi ->
  (forall j, j2len_lookup j j2len <= i - alo) ->
  forall newj2len besti bestj bestsize newj2len' besti' bestj' bestsize',
  (forall j, j2len_lookup j newj2len <= S i - alo) ->
  alo <= besti -> besti + bestsize <= ahi ->
  scan_positions j2len i blo bhi js newj2len (besti, bestj, bestsize) =
    (newj2len', (besti', bestj', bestsize')) ->
  (forall j, j2len_lookup j newj2len' <= S i - alo) /\
  alo <= besti' /\ besti' + bestsize' <= ahi.
Proof.
  intros Hlo Hhi Hold. induction js as [|j js IH];
    intros newj2len besti bestj bestsize newj2len' besti' bestj' bestsize'
           Hnew Hbi Hbs; simpl.
  - intros [= <- <- <- <-]. auto.
  - destruct (j <? blo); [now apply IH|].
    destruct (bhi <=? j); [intros [= <- <- <- <-]; auto|].
    pose proof (j2len_get_pred_bound _ j _ Hold) as Hk.
    set (k := j2len_get_pred j j2len + 1) in *.
    assert (Hk' : k <= S i - alo) by (unfold k; lia).
    destruct (bestsize <? k).
    + apply IH; [now apply j2len_lookup_cons|lia|lia].
    + apply IH; [now apply j2len_lookup_cons|lia|lia].
Qed.

Lemma scan_rows_bounds (n : nat) :
  forall i j2len besti bestj bestsize besti' bestj' bestsize',
  alo <= i -> i + n <= ahi ->
  (forall j, j2len_lookup j j2len <= i - alo) ->
  alo <= besti -> besti + bestsize <= ahi ->
  scan_rows a b2j blo bhi (seq i n) j2len (besti, bestj, bestsize) =
    (besti', bestj', bestsize') ->
  alo <= besti' /\ besti' + bestsize' <= ahi.
Proof.
  induction n as [|n IH];
    intros i j2len besti bestj bestsize besti' bestj' bestsize'
           Hlo Hhi Hold Hbi Hbs; simpl.
  - intros [= <- <- <-]. auto.
  - destruct (nth_error a i) as [ai|]; [|intros [= <- <- <-]; auto].
    destruct (scan_positions j2len i blo bhi (b2j_get ai b2j) []
                             (besti, bestj, bestsize))
      as [newj2len [[bi bj] bs]] eqn:E.
    apply scan_positions_bounds in E; try lia; try assumption.
    + destruct E as [Hnew [Hbi' Hbs']].
      apply IH; [lia|lia|exact Hnew|exact Hbi'|exact Hbs'].
    + intros j. simpl. lia.
Qed.

Lemma extend_left_bounds (besti : nat) :
  forall bestj bestsize besti' bestj' bestsize',
  alo <= besti -> besti + bestsize <= ahi ->
  extend_left a b alo blo besti bestj bestsize = (besti', bestj', bestsize') ->
  alo <= besti' /\ besti' + bestsize' <= ahi.
Proof.
  induction besti as [|i IH];
    intros bestj bestsize besti' bestj' bestsize' Hbi Hbs; simpl.
  - intros [= <- <- <-]. auto.
  - destruct bestj as [|j]; [intros [= <- <- <-]; auto|].
    destruct (_ && _) eqn:E; [|intros [= <- <- <-]; auto].
    apply andb_prop in E. destruct E as [E _].
    apply andb_prop in E. destruct E as [E _]. apply Nat.ltb_lt in E.
    apply IH; lia.
Qed.

Lemma extend_right_bounds (room : nat) :
  forall besti bestj bestsize besti' bestj' bestsize',
  alo <= besti -> besti + bestsize <= ahi ->
  extend_right a b ahi bhi besti bestj bestsize room =
    (besti', bestj', bestsize') ->
  alo <= besti' /\ besti' + bestsize' <= ahi.
Proof.
  induction room as [|room IH];
    intros besti bestj bestsize besti' bestj' bestsize' Hbi Hbs; simpl.
  - intros [= <- <- <-]. auto.
  - destruct (_ && _) eqn:E; [|intros [= <- <- <-]; auto].
    apply andb_prop in E. destruct E as [E _].
    apply andb_prop in E. destruct E as [E _]. apply Nat.ltb_lt in E.
    apply IH; lia.
Qed.

(** The block found lies inside [a[alo:ahi]]. *)
Lemma find_longest_match_bounds (i j k : nat) :
  alo <= ahi ->
  find_longest_match a b b2j alo ahi blo bhi = (i, j, k) ->
  alo <= i /\ i + k <= ahi.
Proof.
  intros Hle. unfold find_longest_match.
  destruct (scan_rows a b2j blo bhi (seq alo (ahi - alo)) [] (alo, blo, 0))
    as [[bi bj] bs] eqn:E1.
  apply scan_rows_bounds in E1; try lia.
  2:{ intros j0. simpl. lia. }
  destruct (extend_left a b alo blo bi bj bs) as [[bi' bj'] bs'] eqn:E2.
  apply extend_left_bounds in E2; try lia.
  intros E3. apply extend_right_bounds in E3; lia.
Qed.

End Bounds.

(** Any fuel above the length of the slice gives the same sum: the
    recursion ends before the fuel does. *)
Lemma matching_size_fuel (a b : list ascii) (b2j : b2j_t) (fuel : nat) :
  forall fuel' alo ahi blo bhi,
  alo <= ahi -> ahi - alo < fuel -> ahi - alo < fuel' ->
  matching_size fuel a b b2j alo ahi blo bhi =
  matching_size fuel' a b b2j alo ahi blo bhi.
Proof.
  induction fuel as [|fuel IH]; intros fuel' alo ahi blo bhi Hle H1 H2; [lia|].
  destruct fuel' as [|fuel']; [lia|]. simpl.
  destruct (find_longest_match a b b2j alo ahi blo bhi) as [[i j] k] eqn:E.
  apply find_longest_match_bounds in E; [|exact Hle]. destruct E as [Hi Hk].
  destruct (k =? 0) eqn:E0; [reflexivity|]. apply Nat.eqb_neq in E0.
  f_equal; [f_equal|].
  - destruct (_ && _); [|reflexivity]. apply IH; lia.
  - destruct ((i + k <? ahi) && _) eqn:Eg; [|reflexivity].
    apply andb_prop in Eg. destruct Eg as [Eg _]. apply Nat.ltb_lt in Eg.
    apply IH; lia.
Qed.

(** The fuel given by [ratio] is enough: more fuel changes nothing. *)
Lemma ratio_fuel_enough (a b : list ascii) (extra : nat) :
  matching_size (S (length a) + extra) a b (chain_b b)
                0 (length a) 0 (length b) =
  matching_size (S (length a)) a b (chain_b b) 0 (length a) 0 (length b).
Proof. apply matching_size_fuel; lia. Qed.

End MatcherFacts.

(* ================================================================== *)
(** * Facts about the resolver *)
(* ================================================================== *)

Module ResolverFacts.
Import DictFacts IndexFacts CandidateFacts DifflibFacts.

Lemma record_result_inv (p : Protocol.t) (r : Resolution.t) :
  record_result p = Return r ->
  Protocol.slug p = Some (Resolution.slug r) /\
  Protocol.name p = Some (Resolution.name r) /\
  Resolution.is_parent r = false /\ Resolution.children r = [] /\
  Resolution.category r = Protocol.category p.
Proof.
  unfold record_result.
  destruct (Protocol.slug p), (Protocol.name p); simpl; try discriminate.
  intros [= <-]. simpl. auto.
Qed.

Lemma record_result_at_inv (d : Dict.t Protocol.t) (key : string)
    (r : Resolution.t) :
  record_result_at d key = Return r ->
  exists p, Dict.get key d = Some p /\ record_result p = Return r.
Proof.
  unfold record_result_at. destruct (Dict.get key d) as [p|]; [|discriminate].
  intros H. now exists p.
Qed.

Lemma build_parent_result_inv (ps : string) (pc : Dict.t (list Protocol.t))
    (r : Resolution.t) :
  _build_parent_result ps pc = Return r ->
  Resolution.slug r = ps /\ Resolution.is_parent r = true /\
  Resolution.name r =
    display_name ps (children_of ps pc) (PyStr.title (hyphens_to_spaces ps)) /\
  Resolution.category r = derive_category (member_categories (children_of ps pc)) /\
  children_list (children_of ps pc) = Return (Resolution.children r).
Proof.
  unfold _build_parent_result.
  destruct (children_list (children_of ps pc)) as [kids|e]; simpl; [|discriminate].
  intros [= <-]. simpl. auto.
Qed.

Lemma children_of_members (protocols : list Protocol.t) (ps : string) :
  In ps (parent_slugs (build_index protocols)) ->
  children_of ps (parent_children (build_index protocols)) =
  members_of protocols ps.
Proof.
  intros H. unfold children_of.
  now rewrite (proj1 (parent_slug_has_members _ _ H)).
Qed.

Lemma In_slug_map_value (protocols : list Protocol.t) (k : string)
    (p : Protocol.t) :
  Dict.get k (slug_map (build_index protocols)) = Some p ->
  In p protocols /\ slug_key p = k.
Proof.
  rewrite get_slug_map. intros H. apply find_last_Some in H.
  now rewrite String.eqb_eq in H.
Qed.

Lemma In_name_map_value (protocols : list Protocol.t) (k : string)
    (p : Protocol.t) :
  Dict.get k (name_map (build_index protocols)) = Some p ->
  In p protocols /\ name_key p = k.
Proof.
  rewrite get_name_map. intros H. apply find_last_Some in H.
  now rewrite String.eqb_eq in H.
Qed.

Lemma not_found_never_returns (protocols : list Protocol.t)
    (user_input normalized : string) (r : Resolution.t) :
  not_found protocols user_input normalized <> Return r.
Proof.
  unfold not_found. destruct (suggestion_names _ _); simpl; discriminate.
Qed.

Section Resolver.
Variable set_iter : PySet.t -> list string.
Hypothesis set_iter_perm : forall s, Permutation (set_iter s) s.

Lemma from_record_at_slug (protocols : list Protocol.t) (k : string)
    (r : Resolution.t) :
  record_result_at (slug_map (build_index protocols)) k = Return r ->
  from_record protocols r.
Proof.
  intros H. apply record_result_at_inv in H. destruct H as [p [Hg Hr]].
  exists p. split; [|exact Hr]. now apply In_slug_map_value in Hg.
Qed.

Lemma from_record_at_name (protocols : list Protocol.t) (k : string)
    (r : Resolution.t) :
  record_result_at (name_map (build_index protocols)) k = Return r ->
  from_record protocols r.
Proof.
  intros H. apply record_result_at_inv in H. destruct H as [p [Hg Hr]].
  exists p. split; [|exact Hr]. now apply In_name_map_value in Hg.
Qed.

Lemma from_group_built (protocols : list Protocol.t) (ps : string)
    (r : Resolution.t) :
  In ps (parent_slugs (build_index protocols)) ->
  _build_parent_result ps (parent_children (build_index protocols)) = Return r ->
  from_group protocols r.
Proof.
  intros Hin H. pose proof (build_parent_result_inv _ _ _ H) as [Hs _].
  unfold from_group. rewrite Hs. auto.
Qed.

Lemma resolve_shape (protocols : list Protocol.t) (user_input : string)
    (r : Resolution.t) :
  resolve_protocol set_iter protocols user_input = Return r ->
  from_record protocols r \/ from_group protocols r.
Proof.
  unfold resolve_protocol.
  set (normalized := PyStr.lower (PyStr.strip user_input)).
  set (ix := build_index protocols).
  destruct (Dict.mem normalized (slug_map ix)).
  { intros H. left. eapply from_record_at_slug, H. }
  destruct (Dict.mem normalized (name_map ix)).
  { intros H. left. eapply from_record_at_name, H. }
  destruct (PySet.mem normalized (parent_slugs ix)) eqn:E3.
  { intros H. right. apply PySetFacts.set_mem_true in E3.
    eapply from_group_built; eassumption. }
  destruct (find _ (set_iter (parent_slugs ix))) as [ps|] eqn:E4.
  { intros H. right. apply find_some in E4. destruct E4 as [E4 _].
    apply (proj1 (In_set_iter _ set_iter_perm _ _)) in E4.
    eapply from_group_built; eassumption. }
  destruct (Dict.get normalized (parent_name_map_of (parent_children ix)))
    as [ps|] eqn:E5.
  { intros H. right. apply get_Some_In, In_parent_name_map_value in E5.
    eapply from_group_built; eassumption. }
  unfold fuzzy_step.
  destruct (Difflib.get_close_matches _ _ _ _) as [|best rest].
  { intros H. now apply not_found_never_returns in H. }
  destruct (Dict.get best _) as [[[| |] key]|] eqn:E6; try discriminate.
  - intros H. left. eapply from_record_at_slug, H.
  - intros H. left. eapply from_record_at_name, H.
  - intros H. right.
    apply (all_candidates_value _ set_iter_perm) in E6.
    destruct E6 as [E6|[k' E6]].
    + eapply from_group_built; eassumption.
    + apply In_parent_name_map_value in E6.
      eapply from_group_built; eassumption.
Qed.

Lemma from_record_not_parent (protocols : list Protocol.t) (r : Resolution.t) :
  from_record protocols r -> Resolution.is_parent r = false.
Proof. intros [p [_ H]]. now apply record_result_inv in H. Qed.


(** A parent-shaped result is the aggregate of the group of its slug. *)
Lemma parent_shaped (protocols : list Protocol.t) (user_input : string)
    (r : Resolution.t) :
  resolve_protocol set_iter protocols user_input = Return r ->
  Resolution.is_parent r = true ->
  from_group protocols r.
Proof.
  intros H Hp. destruct (resolve_shape _ _ _ H) as [Hr|Hg]; [|exact Hg].
  apply from_record_not_parent in Hr. congruence.
Qed.

End Resolver.
End ResolverFacts.

(* ================================================================== *)
(** * Facts about Counter *)
(* ================================================================== *)

Module CounterFacts.
Import DictFacts CandidateFacts.










Section Sorting.
Context {A : Type}.




End Sorting.




(** Majority, and first met on a tie. *)
Example derive_category_majority :
  derive_category ["Lending"; "Lending"; "DEX"] = Some "Lending".
Proof. reflexivity. Qed.

Example derive_category_tie :
  derive_category ["DEX"; "Lending"; "Lending"; "DEX"] = Some "DEX".
Proof. reflexivity. Qed.

End CounterFacts.

(* ================================================================== *)
(** * The steps of the resolver, one at a time *)
(* ================================================================== *)

Module StepFacts.
Import PyStrFacts DictFacts IndexFacts CandidateFacts DifflibFacts ResolverFacts.

Lemma insertion_order_perm (s : PySet.t) :
  Permutation (Examples.insertion_order s) s.
Proof. apply Permutation_refl. Qed.

Section Steps.
Variable set_iter : PySet.t -> list string.
Variable protocols : list Protocol.t.
Variable user_input : string.

Local Abbreviation ix := (build_index protocols).
Local Abbreviation normalized := (normalize user_input).

Ltac open_resolver :=
  unfold resolve_protocol;
  change (PyStr.lower (PyStr.strip user_input)) with (normalize user_input);
  unfold Dict.mem.

Lemma step1_slug (p : Protocol.t) :
  Dict.get normalized (slug_map ix) = Some p ->
  resolve_protocol set_iter protocols user_input = record_result p.
Proof.
  intros H. open_resolver. unfold record_result_at. now rewrite H.
Qed.

Lemma step2_name (p : Protocol.t) :
  Dict.get normalized (slug_map ix) = None ->
  Dict.get normalized (name_map ix) = Some p ->
  resolve_protocol set_iter protocols user_input = record_result p.
Proof.
  intros H1 H2. open_resolver. unfold record_result_at. now rewrite H1, H2.
Qed.

Lemma step3_parent_slug :
  Dict.get normalized (slug_map ix) = None ->
  Dict.get normalized (name_map ix) = None ->
  In normalized (parent_slugs ix) ->
  resolve_protocol set_iter protocols user_input =
  _build_parent_result normalized (parent_children ix).
Proof.
  intros H1 H2 H3. open_resolver. rewrite H1, H2.
  now rewrite (proj2 (PySetFacts.set_mem_true _ _) H3).
Qed.

Lemma step3_spaced (ps : string) :
  Dict.get normalized (slug_map ix) = None ->
  Dict.get normalized (name_map ix) = None ->
  ~ In normalized (parent_slugs ix) ->
  find (fun ps => String.eqb normalized (hyphens_to_spaces ps))
       (set_iter (parent_slugs ix)) = Some ps ->
  resolve_protocol set_iter protocols user_input =
  _build_parent_result ps (parent_children ix).
Proof.
  intros H1 H2 H3 H4. open_resolver. rewrite H1, H2, H4.
  destruct (PySet.mem normalized (parent_slugs ix)) eqn:E; [|reflexivity].
  apply PySetFacts.set_mem_true in E. contradiction.
Qed.

Lemma step4_fuzzy :
  Dict.get normalized (slug_map ix) = None ->
  Dict.get normalized (name_map ix) = None ->
  ~ In normalized (parent_slugs ix) ->
  find (fun ps => String.eqb normalized (hyphens_to_spaces ps))
       (set_iter (parent_slugs ix)) = None ->
  Dict.get normalized (parent_name_map_of (parent_children ix)) = None ->
  resolve_protocol set_iter protocols user_input =
  fuzzy_step set_iter protocols ix (parent_name_map_of (parent_children ix))
             user_input normalized.
Proof.
  intros H1 H2 H3 H4 H5. open_resolver. rewrite H1, H2, H4, H5.
  destruct (PySet.mem normalized (parent_slugs ix)) eqn:E; [|reflexivity].
  apply PySetFacts.set_mem_true in E. contradiction.
Qed.

End Steps.

Lemma get_None_not_key {V : Type} (k : string) (d : Dict.t V) :
  Dict.get k d = None <-> ~ In k (Dict.keys d).
Proof.
  rewrite In_keys_get. destruct (Dict.get k d); split; try congruence.
  intros H. exfalso. apply H. discriminate.
Qed.

Lemma no_slug_key (protocols : list Protocol.t) (k : string) :
  (forall p, In p protocols -> slug_key p <> k) ->
  Dict.get k (slug_map (build_index protocols)) = None.
Proof.
  intros H. apply get_None_not_key. rewrite In_keys_slug_map.
  intros [p [Hp Hk]]. exact (H p Hp Hk).
Qed.

Lemma no_name_key (protocols : list Protocol.t) (k : string) :
  (forall p, In p protocols -> name_key p <> k) ->
  Dict.get k (name_map (build_index protocols)) = None.
Proof.
  intros H. apply get_None_not_key. rewrite In_keys_name_map.
  intros [p [Hp Hk]]. exact (H p Hp Hk).
Qed.

Lemma parent_key_lower (p : Protocol.t) (ps : string) :
  parent_key p = Some ps -> PyStr.lower ps = ps.
Proof.
  unfold parent_key. destruct (_ && _); [|discriminate].
  intros [= <-]. apply lower_idem.
Qed.

Lemma lower_hyphens_to_spaces (s : string) :
  PyStr.lower (hyphens_to_spaces s) = hyphens_to_spaces (PyStr.lower s).
Proof.
  unfold hyphens_to_spaces. induction s as [|c s IH]; simpl; [reflexivity|].
  rewrite IH. f_equal. by_cases_on_char c.
Qed.

Lemma hyphens_to_spaces_idem (s : string) :
  hyphens_to_spaces (hyphens_to_spaces s) = hyphens_to_spaces s.
Proof. apply replace_idem. discriminate. Qed.

End StepFacts.

(* ================================================================== *)
(** * Properties of the resolver *)
(* ================================================================== *)

Import PyStrFacts DictFacts IndexFacts CandidateFacts DifflibFacts.
Import ResolverFacts CounterFacts StepFacts.

Lemma normalize_any_case (u k : string) :
  PyStr.lower u = PyStr.lower k -> PyStr.strip k = k ->
  normalize u = PyStr.lower k.
Proof.
  intros Hu Hk. unfold normalize.
  rewrite lower_strip, Hu, <- lower_strip. now rewrite Hk.
Qed.

Lemma find_last_exists {A : Type} (f : A -> bool) (l : list A) (x : A) :
  In x l -> f x = true -> exists y, find_last f l = Some y.
Proof.
  intros Hin Hx. destruct (find_last f l) as [y|] eqn:E; [now exists y|].
  rewrite find_last_None in E. rewrite (E x Hin) in Hx. discriminate.
Qed.

Lemma find_exists {A : Type} (f : A -> bool) (l : list A) (x : A) :
  In x l -> f x = true -> exists y, find f l = Some y.
Proof.
  intros Hin Hx. destruct (find f l) as [y|] eqn:E; [now exists y|].
  rewrite (find_none _ _ E x Hin) in Hx. discriminate.
Qed.

(** C1, as stated, fails: the record whose slug is ["  a"] is alone in the
    snapshot, yet resolving ["  a"] does not return it, because the input is
    trimmed and the index key is not. *)
Lemma C1_counterexample :
  In Examples.padded_slug [Examples.padded_slug] /\
  (forall p, In p [Examples.padded_slug] ->
             Protocol.slug p = Protocol.slug Examples.padded_slug ->
             p = Examples.padded_slug) /\
  Protocol.slug Examples.padded_slug = Some "  a" /\
  resolve_protocol Examples.insertion_order [Examples.padded_slug] "  a" =
  Raise (ProtocolNotFoundError "Protocol '  a' not found.").
Proof.
  split; [now left|]. split; [intros p [<-|[]] _; reflexivity|].
  split; reflexivity.
Qed.

(** C1, amended: on a snapshot and an input made of ASCII text, for a
    record R that carries a name and whose slug has no leading or trailing
    whitespace and is shared, up to letter case, with no other record,
    resolving R's slug in any letter case and with any surrounding
    whitespace returns the non-parent result made of R's slug, name and
    category, with no children. *)
Theorem C1_exact_slug_match (set_iter : PySet.t -> list string)
    (protocols : list Protocol.t) (R : Protocol.t) (s n ws1 u ws2 : string) :
  ascii_snapshot protocols = true ->
  PyStr.isascii (String.append ws1 (String.append u ws2)) = true ->
  In R protocols ->
  Protocol.slug R = Some s -> Protocol.name R = Some n ->
  PyStr.strip s = s ->
  (forall p, In p protocols -> slug_key p = slug_key R -> p = R) ->
  PyStr.all_space ws1 = true -> PyStr.all_space ws2 = true ->
  PyStr.lower u = PyStr.lower s ->
  resolve_protocol set_iter protocols
                   (String.append ws1 (String.append u ws2)) =
  Return (Resolution.mk s n false [] (Protocol.category R)).
Proof.
  intros _ _ HR Hs Hn Hstrip Huniq H1 H2 Hu.
  assert (Hkey : slug_key R = PyStr.lower s) by (unfold slug_key; now rewrite Hs).
  assert (Hnorm : normalize (String.append ws1 (String.append u ws2)) =
                  PyStr.lower s).
  { unfold normalize. now apply normalized_surrounded. }
  destruct (find_last_exists (fun p => String.eqb (slug_key p) (PyStr.lower s))
                             protocols R HR) as [p Hp].
  { rewrite Hkey. apply String.eqb_refl. }
  pose proof (find_last_Some _ _ _ Hp) as [Hin Heq].
  apply String.eqb_eq in Heq.
  assert (p = R) by (apply Huniq; congruence). subst p.
  rewrite (step1_slug set_iter protocols _ R).
  - unfold record_result. now rewrite Hs, Hn.
  - now rewrite Hnorm, get_slug_map.
Qed.

Lemma C1_exact_slug_match_witness :
  resolve_protocol Examples.insertion_order Examples.registry "  LIDO " =
  Return (Resolution.mk "lido" "Lido" false [] (Some "Liquid Staking")).
Proof.
  apply (C1_exact_slug_match Examples.insertion_order Examples.registry
           Examples.lido "lido" "Lido" "  " "LIDO" " ").
  - reflexivity.
  - reflexivity.
  - simpl. tauto.
  - reflexivity.
  - reflexivity.
  - reflexivity.
  - intros p Hp. simpl in Hp.
    repeat (destruct Hp as [<-|Hp]; [vm_compute; try discriminate; auto|]).
    destruct Hp.
  - reflexivity.
  - reflexivity.
  - reflexivity.
Defined.

(** C9, as stated, fails: no other record shares the lowercased name of the
    record named ["Aave"], yet resolving ["Aave"] returns the record whose
    slug is ["aave"], because the slug step comes first. *)
Lemma C9_counterexample :
  In Examples.aave_legacy [Examples.aave_core; Examples.aave_legacy] /\
  Protocol.name Examples.aave_legacy = Some "Aave" /\
  (forall p, In p [Examples.aave_core; Examples.aave_legacy] ->
             name_key p = name_key Examples.aave_legacy ->
             p = Examples.aave_legacy) /\
  resolve_protocol Examples.insertion_order
                   [Examples.aave_core; Examples.aave_legacy] "Aave" =
  Return (Resolution.mk "aave" "Aave V3" false [] None).
Proof.
  split; [right; now left|]. split; [reflexivity|]. split; [|reflexivity].
  intros p [<-|[<-|[]]]; [vm_compute; discriminate|reflexivity].
Qed.

(** C9, amended: on a snapshot and an input made of ASCII text, for a
    record R whose name has no leading or trailing whitespace, resolving R's
    name in any letter case returns the non-parent result of the last record
    L in snapshot order that shares the lowercased name, provided L carries
    a slug and a name and no record other than L has that lowercased name as
    its lowercased slug; when no other record shares the lowercased name, L
    is R and the result has R's name. *)
Theorem C9_exact_name_match (set_iter : PySet.t -> list string)
    (protocols pre post : list Protocol.t) (R L : Protocol.t)
    (n u sL nL : string) :
  ascii_snapshot protocols = true -> PyStr.isascii u = true ->
  In R protocols -> Protocol.name R = Some n ->
  PyStr.strip n = n -> PyStr.lower u = PyStr.lower n ->
  (forall p, In p protocols -> slug_key p = PyStr.lower n -> p = L) ->
  protocols = pre ++ L :: post ->
  name_key L = PyStr.lower n ->
  (forall p, In p post -> name_key p <> PyStr.lower n) ->
  Protocol.slug L = Some sL -> Protocol.name L = Some nL ->
  resolve_protocol set_iter protocols u =
  Return (Resolution.mk sL nL false [] (Protocol.category L)) /\
  ((forall p, In p protocols -> name_key p = PyStr.lower n -> p = R) ->
   L = R /\ nL = n).
Proof.
  intros _ _ HR Hn Hstrip Hu Hslug Hsplit HL Hpost HsL HnL. split.
  - pose proof (normalize_any_case u n Hu Hstrip) as Hnorm.
    assert (Hres : record_result L =
                   Return (Resolution.mk sL nL false [] (Protocol.category L))).
    { unfold record_result. now rewrite HsL, HnL. }
    destruct (Dict.get (normalize u) (slug_map (build_index protocols)))
      as [p|] eqn:E.
    + rewrite (step1_slug set_iter protocols u p E).
      apply In_slug_map_value in E. destruct E as [Hp Hk].
      rewrite Hnorm in Hk. now rewrite (Hslug p Hp Hk).
    + rewrite (step2_name set_iter protocols u L E); [exact Hres|].
      rewrite Hnorm, get_name_map, Hsplit. apply find_last_split.
      * rewrite HL. apply String.eqb_refl.
      * intros y Hy. apply String.eqb_neq. now apply Hpost.
  - intros Huniq. assert (E : L = R).
    { apply Huniq; [|exact HL]. rewrite Hsplit. apply in_or_app. right. now left. }
    split; [exact E|]. subst L. congruence.
Qed.

Lemma C9_exact_name_match_witness :
  resolve_protocol Examples.insertion_order Examples.registry "UNISWAP v3" =
  Return (Resolution.mk "uniswap-v3" "Uniswap V3" false [] (Some "Dexs")) /\
  ((forall p, In p Examples.registry -> name_key p = PyStr.lower "Uniswap V3" ->
              p = Examples.uniswap_v3) ->
   Examples.uniswap_v3 = Examples.uniswap_v3 /\ "Uniswap V3" = "Uniswap V3").
Proof.
  apply (C9_exact_name_match Examples.insertion_order Examples.registry
           [Examples.aave_v2; Examples.aave_v3; Examples.aave_arc]
           [Examples.foo_one; Examples.lido]
           Examples.uniswap_v3 Examples.uniswap_v3
           "Uniswap V3" "UNISWAP v3" "uniswap-v3" "Uniswap V3").
  - reflexivity.
  - reflexivity.
  - simpl. tauto.
  - reflexivity.
  - reflexivity.
  - reflexivity.
  - intros p Hp. simpl in Hp.
    repeat (destruct Hp as [<-|Hp]; [vm_compute; try discriminate; auto|]).
    destruct Hp.
  - reflexivity.
  - reflexivity.
  - intros p Hp. simpl in Hp.
    repeat (destruct Hp as [<-|Hp]; [vm_compute; discriminate|]).
    destruct Hp.
  - reflexivity.
  - reflexivity.
Defined.

(** The sample of the witness is answered by the name step: its input is no
    key of the slug index. *)
Example name_step_on_sample :
  Dict.mem (normalize "UNISWAP v3") (slug_map (build_index Examples.registry)) =
    false /\
  Dict.get (normalize "UNISWAP v3") (name_map (build_index Examples.registry)) =
    Some Examples.uniswap_v3.
Proof. split; reflexivity. Qed.

(** C7, as stated, fails: ["foo-bar"] is a parent slug of the snapshot and
    also the slug of a record; resolving ["foo-bar"] returns that record by
    the slug step, resolving ["foo bar"] returns the aggregated group. *)
Lemma C7_counterexample :
  parent_key Examples.foo_bar = Some "foo-bar" /\
  resolve_protocol Examples.insertion_order [Examples.foo_bar] "foo-bar" =
  Return (Resolution.mk "foo-bar" "Foo Bar V1" false [] None) /\
  resolve_protocol Examples.insertion_order [Examples.foo_bar]
                   (hyphens_to_spaces "foo-bar") =
  Return (Resolution.mk "foo-bar" "Foo Bar" true
                        [Child.mk "Foo Bar V1" "foo-bar"] None).
Proof. repeat split; reflexivity. Qed.

(** C7, amended: on a snapshot made of ASCII text, for a parent slug P of
    the snapshot such that neither P nor P with hyphens replaced by spaces
    is the lowercased slug or name of a record, neither of the two has
    leading or trailing whitespace, and no other parent slug has the same
    spaced form, resolving P and resolving P with every hyphen replaced by a
    space both yield the aggregate of the group of P, hence identical
    results; a result that is returned is the parent result of slug P. *)
Theorem C7_parent_slug_with_spaces (set_iter : PySet.t -> list string)
    (set_iter_perm : forall s, Permutation (set_iter s) s)
    (protocols : list Protocol.t) (P : string) :
  ascii_snapshot protocols = true -> PyStr.isascii P = true ->
  (exists p, In p protocols /\ parent_key p = Some P) ->
  PyStr.strip P = P ->
  PyStr.strip (hyphens_to_spaces P) = hyphens_to_spaces P ->
  (forall p, In p protocols ->
     slug_key p <> P /\ slug_key p <> hyphens_to_spaces P /\
     name_key p <> P /\ name_key p <> hyphens_to_spaces P) ->
  (forall p Q, In p protocols -> parent_key p = Some Q ->
     hyphens_to_spaces Q = hyphens_to_spaces P -> Q = P) ->
  resolve_protocol set_iter protocols P =
    _build_parent_result P (parent_children (build_index protocols)) /\
  resolve_protocol set_iter protocols (hyphens_to_spaces P) =
    resolve_protocol set_iter protocols P /\
  (forall r, resolve_protocol set_iter protocols P = Return r ->
     Resolution.is_parent r = true /\ Resolution.slug r = P).
Proof.
  intros _ _ [p0 [Hp0 HP]] Hstrip Hstrip' Hfree Huniq.
  pose proof (parent_key_lower _ _ HP) as Hlow.
  assert (HinP : In P (parent_slugs (build_index protocols))).
  { apply In_parent_slugs. now exists p0. }
  assert (Hn1 : normalize P = P).
  { unfold normalize. now rewrite Hstrip. }
  assert (Hn2 : normalize (hyphens_to_spaces P) = hyphens_to_spaces P).
  { unfold normalize.
    now rewrite Hstrip', lower_hyphens_to_spaces, Hlow. }
  assert (E1 : resolve_protocol set_iter protocols P =
               _build_parent_result P (parent_children (build_index protocols))).
  { rewrite (step3_parent_slug set_iter protocols P); rewrite Hn1.
    - reflexivity.
    - apply no_slug_key. intros p Hp. apply (Hfree p Hp).
    - apply no_name_key. intros p Hp. apply (Hfree p Hp).
    - exact HinP. }
  split; [exact E1|].
  assert (Hshape : forall r, resolve_protocol set_iter protocols P = Return r ->
                     Resolution.is_parent r = true /\ Resolution.slug r = P).
  { intros r Hr. rewrite E1 in Hr. apply build_parent_result_inv in Hr.
    destruct Hr as [H1 [H2 _]]. auto. }
  split; [|exact Hshape]. clear Hshape. rewrite E1.
  assert (Hs : Dict.get (normalize (hyphens_to_spaces P))
                        (slug_map (build_index protocols)) = None).
  { rewrite Hn2. apply no_slug_key. intros p Hp. apply (Hfree p Hp). }
  assert (Hn : Dict.get (normalize (hyphens_to_spaces P))
                        (name_map (build_index protocols)) = None).
  { rewrite Hn2. apply no_name_key. intros p Hp. apply (Hfree p Hp). }
  destruct (in_dec string_dec (hyphens_to_spaces P)
                   (parent_slugs (build_index protocols))) as [Hin|Hnin].
  - pose proof Hin as Hin'. apply In_parent_slugs in Hin'.
    destruct Hin' as [q [Hq Hqk]].
    assert (E : hyphens_to_spaces P = P).
    { apply (Huniq q _ Hq Hqk). apply hyphens_to_spaces_idem. }
    rewrite (step3_parent_slug set_iter protocols (hyphens_to_spaces P) Hs Hn);
      rewrite Hn2; [now rewrite E|exact Hin].
  - destruct (find_exists
                (fun ps => String.eqb (hyphens_to_spaces P) (hyphens_to_spaces ps))
                (set_iter (parent_slugs (build_index protocols))) P) as [Q HQ].
    { now apply (In_set_iter _ set_iter_perm). }
    { apply String.eqb_refl. }
    pose proof (find_some _ _ HQ) as [HQin HQeq].
    apply (proj1 (In_set_iter _ set_iter_perm _ _)) in HQin.
    apply In_parent_slugs in HQin. destruct HQin as [q [Hq Hqk]].
    apply String.eqb_eq in HQeq.
    assert (E : Q = P) by (apply (Huniq q _ Hq Hqk); congruence). subst Q.
    apply (step3_spaced set_iter protocols (hyphens_to_spaces P) P Hs Hn);
      rewrite Hn2; assumption.
Qed.

Lemma C7_parent_slug_with_spaces_witness :
  resolve_protocol Examples.insertion_order Examples.registry "foo-bar" =
    _build_parent_result "foo-bar"
                         (parent_children (build_index Examples.registry)) /\
  resolve_protocol Examples.insertion_order Examples.registry
                   (hyphens_to_spaces "foo-bar") =
    resolve_protocol Examples.insertion_order Examples.registry "foo-bar" /\
  (forall r, resolve_protocol Examples.insertion_order Examples.registry
                              "foo-bar" = Return r ->
     Resolution.is_parent r = true /\ Resolution.slug r = "foo-bar").
Proof.
  apply (C7_parent_slug_with_spaces Examples.insertion_order
           insertion_order_perm Examples.registry "foo-bar").
  - reflexivity.
  - reflexivity.
  - exists Examples.foo_one. split; [simpl; tauto|reflexivity].
  - reflexivity.
  - reflexivity.
  - intros p Hp. simpl in Hp.
    repeat (destruct Hp as [<-|Hp];
            [vm_compute; repeat split; discriminate|]).
    destruct Hp.
  - intros p Q Hp. simpl in Hp.
    repeat (destruct Hp as [<-|Hp];
            [vm_compute; intros [= <-]; try discriminate; auto|]).
    destruct Hp.
Defined.








(** On the sample of the witness the empty category is the most frequent
    value among the categories as written; it is not counted, and of the
    two values left with two votes each the first met wins. *)
Example category_of_mixed_group :
  map Protocol.category EdgeExamples.mix_members =
    [Some ""; None; Some "Dexs"; Some "Lending"; Some ""; Some "Lending";
     Some "Dexs"; Some ""] /\
  supplied_categories EdgeExamples.mix_members =
    ["Dexs"; "Lending"; "Lending"; "Dexs"] /\
  resolve_protocol Examples.insertion_order EdgeExamples.mix_members "mix" =
    Return EdgeExamples.mix_group.
Proof. repeat split; reflexivity. Qed.

(** The two successive splits of [base_name] cut the name at the first
    version marker, whatever the case of its letter. *)
Lemma split_twice_truncates (s : string) :
  PyStr.split_head " v" (PyStr.split_head " V" s) = truncate_at_version_marker s.
Proof.
  induction s as [|c s IH]; [reflexivity|].
  cbn [truncate_at_version_marker PyStr.split_head].
  destruct (String.prefix " V" (String c s)) eqn:EV; [reflexivity|].
  cbn [orb]. rewrite <- IH.
  cbn [PyStr.split_head].
  replace (String.prefix " v" (String c (PyStr.split_head " V" s)))
    with (String.prefix " v" (String c s)); [reflexivity|].
  destruct s as [|d s]; [reflexivity|].
  cbn [PyStr.split_head String.prefix].
  destruct (ascii_dec " " c) as [Ec|Ec]; [|reflexivity].
  assert (Hnil : forall t, String.prefix "" t = true) by (now intros [|? ?]).
  destruct (ascii_dec " " d) as [<-|Hd].
  - destruct (String.prefix "V" s); simpl;
      destruct (ascii_dec "v" " "); try discriminate; reflexivity.
  - cbn [String.prefix]. destruct (ascii_dec "v" d); [|reflexivity].
    now rewrite !Hnil.
Qed.

Lemma base_name_truncates (child_name : string) :
  base_name child_name = PyStr.strip (truncate_at_version_marker child_name).
Proof. unfold base_name. now rewrite split_twice_truncates. Qed.

Lemma find_pointwise {A : Type} (f g : A -> bool) (l : list A) :
  (forall x, f x = g x) -> find f l = find g l.
Proof.
  intros H. induction l as [|x l IH]; simpl; [reflexivity|].
  now rewrite H, IH.
Qed.

Lemma display_name_find (ps : string) (l : list Protocol.t) (default : string) :
  display_name ps l default =
  match find (fun m => String.eqb (derived_key m) (hyphens_to_spaces ps)) l with
  | Some m => base_name (get_or_empty (Protocol.name m))
  | None => default
  end.
Proof.
  induction l as [|m l IH]; simpl; [reflexivity|].
  unfold derived_key at 1.
  destruct (String.eqb _ (hyphens_to_spaces ps)); [reflexivity|exact IH].
Qed.

Lemma title_char (c : ascii) (b : bool) :
  (if PyStr.islower c then (if b then c else PyStr.upper_char c)
   else if PyStr.isupper c then (if b then PyStr.lower_char c else c)
   else c) =
  (if b then PyStr.lower_char c else PyStr.upper_char c) /\
  (if PyStr.islower c then true else PyStr.isupper c) = is_letter c.
Proof.
  destruct c as [b0 b1 b2 b3 b4 b5 b6 b7];
    destruct b0, b1, b2, b3, b4, b5, b6, b7, b; split; reflexivity.
Qed.

(** [str.title] on ASCII text is title case. *)
Lemma title_from_title_case (s : string) (previous : ascii) :
  PyStr.title_from (is_letter previous) s = title_case_after previous s.
Proof.
  revert previous. induction s as [|c s IH]; intros previous; [reflexivity|].
  cbn [PyStr.title_from title_case_after].
  destruct (title_char c (is_letter previous)) as [Hc Hl].
  rewrite <- Hc, <- (IH c), <- Hl.
  destruct (PyStr.islower c); [reflexivity|].
  destruct (PyStr.isupper c); reflexivity.
Qed.

Lemma title_is_title_case (s : string) : PyStr.title s = title_case s.
Proof. apply (title_from_title_case s " "). Qed.

(** C6, as stated, fails: no member of the group of ["1inch-network"] has
    the base name ["1inch network"], so the default is used, and it is not
    that slug with each word capitalized: the letter after the digit is
    raised too. *)
Lemma C6_counterexample :
  let spaced := hyphens_to_spaces "1inch-network" in
  ascii_snapshot [EdgeExamples.fusion] = true /\
  members_of [EdgeExamples.fusion] "1inch-network" = [EdgeExamples.fusion] /\
  PyStr.lower (base_name (get_or_empty (Protocol.name EdgeExamples.fusion)))
    <> spaced /\
  capitalize_words spaced = "1inch Network" /\
  resolve_protocol Examples.insertion_order [EdgeExamples.fusion]
                   "1inch-network" =
  Return (Resolution.mk "1inch-network" "1Inch Network" true
                        [Child.mk "Fusion" "1inch-fusion"] (Some "Dexs")).
Proof.
  intros spaced. split; [reflexivity|]. split; [reflexivity|].
  split; [vm_compute; discriminate|]. split; reflexivity.
Qed.

(** C6, amended: on a snapshot and an input made of ASCII text, the display
    name of a parent result is the base name (the name cut at the first
    version marker, then trimmed) of the first member of the group whose
    lowercased base name equals the parent slug with hyphens replaced by
    spaces; without such a member it is that spaced slug in title case,
    where every letter that does not follow a letter is raised, also after
    a digit. *)
Theorem C6_parent_display_name (set_iter : PySet.t -> list string)
    (set_iter_perm : forall s, Permutation (set_iter s) s)
    (protocols : list Protocol.t) (user_input : string) (r : Resolution.t) :
  ascii_snapshot protocols = true -> PyStr.isascii user_input = true ->
  resolve_protocol set_iter protocols user_input = Return r ->
  Resolution.is_parent r = true ->
  let spaced := hyphens_to_spaces (Resolution.slug r) in
  let base m :=
    PyStr.strip (truncate_at_version_marker (get_or_empty (Protocol.name m))) in
  Resolution.name r =
  match find (fun m => String.eqb (PyStr.lower (base m)) spaced)
             (members_of protocols (Resolution.slug r)) with
  | Some m => base m
  | None => title_case spaced
  end.
Proof.
  intros _ _ H Hp spaced base. rewrite <- title_is_title_case.
  destruct (parent_shaped set_iter set_iter_perm _ _ _ H Hp) as [Hin Hb].
  apply build_parent_result_inv in Hb. destruct Hb as [_ [_ [Hn _]]].
  rewrite (children_of_members _ _ Hin), display_name_find in Hn.
  rewrite Hn. clear Hn.
  assert (E : forall m, derived_key m = PyStr.lower (base m)).
  { intros m. unfold derived_key, base. now rewrite base_name_truncates. }
  rewrite (find_pointwise _ (fun m => String.eqb (PyStr.lower (base m)) spaced)).
  - destruct (find _ _) as [m|]; [apply base_name_truncates|reflexivity].
  - intros m. now rewrite E.
Qed.

Lemma C6_parent_display_name_witness :
  let spaced := hyphens_to_spaces (Resolution.slug Examples.foo_bar_group) in
  let base m :=
    PyStr.strip (truncate_at_version_marker (get_or_empty (Protocol.name m))) in
  Resolution.name Examples.foo_bar_group =
  match find (fun m => String.eqb (PyStr.lower (base m)) spaced)
             (members_of Examples.registry
                         (Resolution.slug Examples.foo_bar_group)) with
  | Some m => base m
  | None => title_case spaced
  end.
Proof.
  apply (C6_parent_display_name Examples.insertion_order insertion_order_perm
           Examples.registry "foo bar").
  - reflexivity.
  - reflexivity.
  - reflexivity.
  - reflexivity.
Defined.

(** The two branches of the display name on the sample registry: a member
    named ["Aave V2"] gives ["Aave"]; no member of ["foo-bar"] has the base
    name ["foo bar"], so the title-cased slug is used. *)
Example display_name_branches :
  resolve_protocol Examples.insertion_order Examples.registry "aave" =
    Return Examples.aave_group /\
  resolve_protocol Examples.insertion_order Examples.registry "foo-bar" =
    Return Examples.foo_bar_group.
Proof. split; reflexivity. Qed.

(** C4, violated by the code: the indices file a record without [slug]
    under the empty key, but the result is built with [p["slug"]]; the
    record is reached through its name and the lookup fails with KeyError
    instead of ProtocolNotFoundError. *)
Theorem C4_key_error_escapes :
  resolve_protocol Examples.insertion_order [Examples.no_slug] "aave" =
  Raise (KeyError "slug").
Proof. reflexivity. Qed.

(* ------------------------------------------------------------------ *)
(** ** The fuzzy step and the failure path *)

Lemma record_result_found (p : Protocol.t) (msg : string) :
  record_result p <> Raise (ProtocolNotFoundError msg).
Proof.
  unfold record_result.
  destruct (Protocol.slug p), (Protocol.name p); simpl; discriminate.
Qed.

Lemma record_result_at_found (d : Dict.t Protocol.t) (key msg : string) :
  record_result_at d key <> Raise (ProtocolNotFoundError msg).
Proof.
  unfold record_result_at.
  destruct (Dict.get key d); [apply record_result_found|discriminate].
Qed.

Lemma children_list_found (l : list Protocol.t) (msg : string) :
  children_list l <> Raise (ProtocolNotFoundError msg).
Proof.
  induction l as [|c l IH]; simpl; [discriminate|].
  destruct (Protocol.name c); simpl; [|discriminate].
  destruct (Protocol.slug c); simpl; [|discriminate].
  destruct (children_list l); simpl; [discriminate|exact IH].
Qed.

Lemma build_parent_result_found (ps : string) (pc : Dict.t (list Protocol.t))
    (msg : string) :
  _build_parent_result ps pc <> Raise (ProtocolNotFoundError msg).
Proof.
  unfold _build_parent_result.
  pose proof (children_list_found (children_of ps pc) msg) as H.
  destruct (children_list (children_of ps pc)); simpl; [discriminate|].
  intros [= ->]. now apply H.
Qed.

Lemma find_all_false {A : Type} (f : A -> bool) (l : list A) :
  (forall x, In x l -> f x = false) -> find f l = None.
Proof.
  intros H. destruct (find f l) as [y|] eqn:E; [|reflexivity].
  apply find_some in E. destruct E as [Hin Hy].
  rewrite (H y Hin) in Hy. discriminate.
Qed.

Lemma name_key_of_missing_name (p : Protocol.t) :
  Protocol.name p = None -> name_key p = "".
Proof. unfold name_key. now intros ->. Qed.

(** The names collected from suggestions that are lowered names of the
    snapshot: one name per suggestion, equal to it up to letter case. *)
Lemma suggestion_names_spec (protocols : list Protocol.t)
    (suggestions names : list string) :
  (forall s, In s suggestions -> exists p, In p protocols /\ name_key p = s) ->
  suggestion_names protocols suggestions = Return names ->
  map PyStr.lower names = suggestions /\
  forall n, In n names -> exists p, In p protocols /\ Protocol.name p = Some n.
Proof.
  revert names. induction suggestions as [|s rest IH]; intros names Hs; simpl.
  - intros [= <-]. split; [reflexivity|intros n []].
  - destruct (Hs s (or_introl eq_refl)) as [p0 [Hp0 Hk0]].
    destruct (find_exists (fun p => String.eqb (name_key p) s) protocols p0 Hp0)
      as [p Hp]; [now apply String.eqb_eq|].
    rewrite Hp. apply find_some in Hp. destruct Hp as [Hin Hk].
    apply String.eqb_eq in Hk.
    destruct (Protocol.name p) as [n|] eqn:En; simpl; [|discriminate].
    destruct (suggestion_names protocols rest) as [tl|e] eqn:Et; simpl;
      [|discriminate].
    intros [= <-].
    destruct (IH tl (fun s' H' => Hs s' (or_intror H')) eq_refl) as [IH1 IH2].
    split.
    + simpl. rewrite IH1. f_equal. unfold name_key in Hk.
      now rewrite En in Hk.
    + intros n' [<-|Hn']; [now exists p|now apply IH2].
Qed.

(** Suggestions that are non-empty lowered names never hit a record
    without a name. *)
Lemma suggestion_names_total (protocols : list Protocol.t)
    (suggestions : list string) :
  (forall s, In s suggestions -> s <> "") ->
  exists names, suggestion_names protocols suggestions = Return names.
Proof.
  induction suggestions as [|s rest IH]; intros Hs; simpl.
  - now exists [].
  - destruct (IH (fun s' H' => Hs s' (or_intror H'))) as [tl Htl].
    destruct (find _ protocols) as [p|] eqn:Ef; [|now exists tl].
    apply find_some in Ef. destruct Ef as [_ Hk]. apply String.eqb_eq in Hk.
    destruct (Protocol.name p) as [n|] eqn:En.
    + simpl. rewrite Htl. simpl. now exists (n :: tl).
    + exfalso. apply (Hs s (or_introl eq_refl)).
      now rewrite <- Hk, name_key_of_missing_name.
Qed.

Lemma not_found_possibilities (protocols : list Protocol.t) :
  map PyStr.lower (map (fun p => get_or_empty (Protocol.name p)) protocols) =
  map name_key protocols.
Proof. now rewrite map_map. Qed.

Section FuzzyAndFailure.
Variable set_iter : PySet.t -> list string.
Hypothesis set_iter_perm : forall s, Permutation (set_iter s) s.
Variable protocols : list Protocol.t.
Variable user_input : string.

Local Abbreviation ix := (build_index protocols).
Local Abbreviation normalized := (normalize user_input).
Local Abbreviation pnm := (parent_name_map_of (parent_children ix)).

Lemma candidate_keys (k : string) :
  In k (Dict.keys (all_candidates_of set_iter ix pnm)) <->
  is_candidate_key protocols k.
Proof.
  rewrite (In_keys_all_candidates _ set_iter_perm).
  rewrite In_keys_slug_map, In_keys_name_map, In_parent_slugs,
    In_keys_parent_name_map.
  reflexivity.
Qed.

(** The guards of the exact steps, read on the snapshot. *)
Lemma exact_guards :
  no_exact_match protocols normalized <->
  Dict.get normalized (slug_map ix) = None /\
  Dict.get normalized (name_map ix) = None /\
  ~ In normalized (parent_slugs ix) /\
  find (fun ps => String.eqb normalized (hyphens_to_spaces ps))
       (set_iter (parent_slugs ix)) = None /\
  Dict.get normalized pnm = None.
Proof.
  unfold no_exact_match. split.
  - intros [H1 [H2 [H3 H4]]]. repeat split.
    + now apply no_slug_key.
    + now apply no_name_key.
    + rewrite In_parent_slugs. intros [p [Hp Hk]].
      now destruct (H3 p _ Hp Hk).
    + apply find_all_false. intros ps Hps.
      apply (proj1 (In_set_iter _ set_iter_perm _ _)) in Hps.
      apply In_parent_slugs in Hps. destruct Hps as [p [Hp Hk]].
      apply String.eqb_neq. now destruct (H3 p _ Hp Hk).
    + apply get_None_not_key. rewrite In_keys_parent_name_map.
      intros [p [Hp [Hk Hd]]]. exact (H4 p Hp Hk Hd).
  - intros [G1 [G2 [G3 [G4 G5]]]].
    rewrite get_None_not_key, In_keys_slug_map in G1.
    rewrite get_None_not_key, In_keys_name_map in G2.
    rewrite get_None_not_key, In_keys_parent_name_map in G5.
    split; [|split; [|split]].
    + intros p Hp Hk. apply G1. now exists p.
    + intros p Hp Hk. apply G2. now exists p.
    + intros p ps Hp Hk. split.
      * intros E. apply G3, In_parent_slugs. exists p. now rewrite E.
      * intros E.
        assert (Hin : In ps (set_iter (parent_slugs ix))).
        { apply (In_set_iter _ set_iter_perm), In_parent_slugs. now exists p. }
        pose proof (find_none _ _ G4 ps Hin) as Hf. cbn beta in Hf.
        rewrite E, String.eqb_refl in Hf. discriminate.
    + intros p Hp Hk Hd. apply G5. now exists p.
Qed.

Lemma resolve_reaches_fuzzy_step :
  no_exact_match protocols normalized ->
  resolve_protocol set_iter protocols user_input =
  fuzzy_step set_iter protocols ix pnm user_input normalized.
Proof.
  intros H. apply exact_guards in H. destruct H as [G1 [G2 [G3 [G4 G5]]]].
  now apply step4_fuzzy.
Qed.

(** When an exact step matches, the failure is not reported. *)
Lemma not_found_inv_exact (msg : string) :
  resolve_protocol set_iter protocols user_input =
    Raise (ProtocolNotFoundError msg) ->
  no_exact_match protocols normalized.
Proof.
  intros H. apply exact_guards.
  destruct (Dict.get normalized (slug_map ix)) as [p|] eqn:G1.
  { rewrite (step1_slug set_iter protocols user_input p G1) in H.
    now apply record_result_found in H. }
  destruct (Dict.get normalized (name_map ix)) as [p|] eqn:G2.
  { rewrite (step2_name set_iter protocols user_input p G1 G2) in H.
    now apply record_result_found in H. }
  destruct (in_dec string_dec normalized (parent_slugs ix)) as [G3|G3].
  { rewrite (step3_parent_slug set_iter protocols user_input G1 G2 G3) in H.
    now apply build_parent_result_found in H. }
  destruct (find (fun ps => String.eqb normalized (hyphens_to_spaces ps))
                 (set_iter (parent_slugs ix))) as [ps|] eqn:G4.
  { rewrite (step3_spaced set_iter protocols user_input ps G1 G2 G3 G4) in H.
    now apply build_parent_result_found in H. }
  destruct (Dict.get normalized pnm) as [ps|] eqn:G5; [|auto].
  exfalso. revert H. unfold resolve_protocol.
  change (PyStr.lower (PyStr.strip user_input)) with normalized.
  unfold Dict.mem. rewrite G1, G2, G4, G5.
  destruct (PySet.mem normalized (parent_slugs ix));
    apply build_parent_result_found.
Qed.

Lemma fuzzy_step_not_found (msg : string) :
  fuzzy_step set_iter protocols ix pnm user_input normalized =
    Raise (ProtocolNotFoundError msg) ->
  Difflib.get_close_matches normalized
    (Dict.keys (all_candidates_of set_iter ix pnm)) 5 fuzzy_cutoff = [] /\
  not_found protocols user_input normalized = Raise (ProtocolNotFoundError msg).
Proof.
  unfold fuzzy_step.
  destruct (Difflib.get_close_matches _ _ _ _) as [|best rest]; [auto|].
  destruct (Dict.get best _) as [[[| |] key]|]; intros H; exfalso.
  - now apply record_result_at_found in H.
  - now apply record_result_at_found in H.
  - now apply build_parent_result_found in H.
  - discriminate.
Qed.

Lemma suggestions_non_empty (s : string) :
  no_exact_match protocols normalized ->
  In s (Difflib.get_close_matches normalized (map name_key protocols)
                                  3 suggestion_cutoff) ->
  s <> "".
Proof.
  intros [_ [H2 _]] Hs ->. apply In_get_close_matches in Hs.
  destruct Hs as [Hin Hc]. apply in_map_iff in Hin.
  destruct Hin as [p [Hk Hp]].
  rewrite empty_not_close_to_word in Hc; [discriminate|reflexivity|].
  intros E. apply (H2 p Hp). now rewrite Hk, E.
Qed.

(** With no step matching, the resolver raises the failure built by
    [not_found]. *)
Lemma resolve_no_tier :
  no_tier_matches protocols normalized ->
  exists names,
    suggestion_names protocols
      (Difflib.get_close_matches normalized (map name_key protocols)
                                 3 suggestion_cutoff) = Return names /\
    resolve_protocol set_iter protocols user_input =
    Raise (ProtocolNotFoundError (not_found_message user_input names)).
Proof.
  intros [Hex Hfz]. rewrite (resolve_reaches_fuzzy_step Hex).
  unfold fuzzy_step.
  rewrite (get_close_matches_none normalized 5 fuzzy_cutoff
             (Dict.keys (all_candidates_of set_iter ix pnm))).
  - unfold not_found. rewrite not_found_possibilities.
    destruct (suggestion_names_total protocols
                (Difflib.get_close_matches normalized (map name_key protocols)
                                           3 suggestion_cutoff)) as [names Hn].
    { intros s Hs. now apply (suggestions_non_empty s Hex). }
    exists names. split; [exact Hn|]. now rewrite Hn.
  - intros k Hk. apply Hfz. now apply candidate_keys.
Qed.

Lemma not_found_inv (msg : string) :
  resolve_protocol set_iter protocols user_input =
    Raise (ProtocolNotFoundError msg) ->
  no_tier_matches protocols normalized /\
  exists names,
    suggestion_names protocols
      (Difflib.get_close_matches normalized (map name_key protocols)
                                 3 suggestion_cutoff) = Return names /\
    msg = not_found_message user_input names.
Proof.
  intros H. pose proof (not_found_inv_exact msg H) as Hex.
  rewrite (resolve_reaches_fuzzy_step Hex) in H.
  apply fuzzy_step_not_found in H. destruct H as [Hnil Hnf]. split.
  - split; [exact Hex|]. intros k Hk.
    apply (get_close_matches_nil_inv _ 5 _ _ ltac:(lia) Hnil).
    now apply candidate_keys.
  - unfold not_found in Hnf. rewrite not_found_possibilities in Hnf.
    destruct (suggestion_names_total protocols
                (Difflib.get_close_matches normalized (map name_key protocols)
                                           3 suggestion_cutoff)) as [names Hn].
    { intros s Hs. now apply (suggestions_non_empty s Hex). }
    rewrite Hn in Hnf. simpl in Hnf. exists names.
    split; [exact Hn|]. congruence.
Qed.

End FuzzyAndFailure.

Lemma append_assoc (a b c : string) :
  String.append (String.append a b) c = String.append a (String.append b c).
Proof. induction a as [|x a IH]; simpl; [reflexivity|]. now rewrite IH. Qed.

Lemma append_empty (a : string) : String.append a "" = a.
Proof. induction a as [|x a IH]; simpl; [reflexivity|]. now rewrite IH. Qed.

(** The message of the error is the text of the failure. *)
Lemma not_found_message_text (user_input : string) (names : list string) :
  not_found_message user_input names = failure_text user_input names.
Proof.
  unfold not_found_message, failure_text, PyStr.join.
  destruct names as [|n names].
  - now rewrite append_empty.
  - now rewrite !append_assoc.
Qed.

(** C8, as stated, fails: the only display name, ["LIDO"], has similarity 0
    to the normalized input ["li"], and it is suggested, because the
    similarity is computed on the lowercased name. *)
Lemma C8_counterexample :
  ascii_snapshot [EdgeExamples.shouting] = true /\
  Protocol.name EdgeExamples.shouting = Some "LIDO" /\
  (Difflib.ratio "LIDO" (normalize "li") < suggestion_cutoff)%Q /\
  (suggestion_cutoff <= Difflib.ratio (PyStr.lower "LIDO") (normalize "li"))%Q /\
  resolve_protocol Examples.insertion_order [EdgeExamples.shouting] "li" =
  Raise (ProtocolNotFoundError
           "Protocol 'li' not found. Did you mean: LIDO?").
Proof.
  split; [reflexivity|]. split; [reflexivity|].
  split; [vm_compute; reflexivity|].
  split; [vm_compute; discriminate|]. vm_compute. reflexivity.
Qed.

(** C8, amended: on a snapshot and an input made of ASCII text, the
    resolver raises ProtocolNotFoundError exactly when no step matches.  The
    message quotes the input as typed and lists at most three display names
    of the snapshot; lowercased, they are the ranked close matches of the
    normalized input among the lowercased names, each at similarity 0.4 or
    more once lowercased; there is none when every lowercased name stays
    below 0.4. *)
Theorem C8_not_found_with_suggestions (set_iter : PySet.t -> list string)
    (set_iter_perm : forall s, Permutation (set_iter s) s)
    (protocols : list Protocol.t) (user_input : string) :
  ascii_snapshot protocols = true -> PyStr.isascii user_input = true ->
  let normalized := normalize user_input in
  ((exists msg, resolve_protocol set_iter protocols user_input =
                Raise (ProtocolNotFoundError msg)) <->
   no_tier_matches protocols normalized) /\
  (forall msg,
     resolve_protocol set_iter protocols user_input =
       Raise (ProtocolNotFoundError msg) ->
     exists names,
       msg = failure_text user_input names /\
       length names <= 3 /\
       map PyStr.lower names =
         Difflib.get_close_matches normalized (map name_key protocols)
                                   3 suggestion_cutoff /\
       (forall n, In n names ->
          (exists p, In p protocols /\ Protocol.name p = Some n) /\
          (suggestion_cutoff <= Difflib.ratio (PyStr.lower n) normalized)%Q) /\
       ((forall p, In p protocols ->
           (Difflib.ratio (name_key p) normalized < suggestion_cutoff)%Q) ->
        names = [])).
Proof.
  intros _ _ normalized. subst normalized. split.
  - split.
    + intros [msg H]. now apply (not_found_inv set_iter set_iter_perm) in H.
    + intros H.
      destruct (resolve_no_tier set_iter set_iter_perm _ _ H) as [names [_ Hr]].
      eexists. exact Hr.
  - intros msg H.
    apply (not_found_inv set_iter set_iter_perm) in H.
    destruct H as [_ [names [Hn ->]]]. exists names.
    apply suggestion_names_spec in Hn.
    2:{ intros s Hs. apply In_get_close_matches in Hs. destruct Hs as [Hs _].
        apply in_map_iff in Hs. destruct Hs as [p [Hk Hp]]. now exists p. }
    destruct Hn as [Hlow Hsrc]. split; [apply not_found_message_text|]. split.
    { rewrite <- (length_map PyStr.lower), Hlow.
      apply length_get_close_matches. }
    split; [exact Hlow|]. split.
    + intros n Hn. split; [now apply Hsrc|].
      assert (Hin : In (PyStr.lower n) (map PyStr.lower names)) by now apply in_map.
      rewrite Hlow in Hin. apply In_get_close_matches in Hin.
      destruct Hin as [_ Hc]. unfold Difflib.close_enough in Hc.
      apply andb_prop in Hc. destruct Hc as [_ Hc].
      now apply Qle_bool_iff.
    + intros Hfar.
      rewrite get_close_matches_none in Hlow.
      * now destruct names.
      * intros x Hx. apply in_map_iff in Hx. destruct Hx as [p [<- Hp]].
        unfold Difflib.close_enough.
        replace (Qle_bool suggestion_cutoff
                          (Difflib.ratio (name_key p) (normalize user_input)))
          with false; [apply andb_false_r|].
        symmetry. apply not_true_is_false. rewrite Qle_bool_iff.
        apply Qlt_not_le, Hfar, Hp.
Qed.

Lemma C8_not_found_with_suggestions_witness :
  let normalized := normalize "uni" in
  ((exists msg, resolve_protocol Examples.insertion_order Examples.registry "uni" =
                Raise (ProtocolNotFoundError msg)) <->
   no_tier_matches Examples.registry normalized) /\
  (forall msg,
     resolve_protocol Examples.insertion_order Examples.registry "uni" =
       Raise (ProtocolNotFoundError msg) ->
     exists names,
       msg = failure_text "uni" names /\
       length names <= 3 /\
       map PyStr.lower names =
         Difflib.get_close_matches normalized (map name_key Examples.registry)
                                   3 suggestion_cutoff /\
       (forall n, In n names ->
          (exists p, In p Examples.registry /\ Protocol.name p = Some n) /\
          (suggestion_cutoff <= Difflib.ratio (PyStr.lower n) normalized)%Q) /\
       ((forall p, In p Examples.registry ->
           (Difflib.ratio (name_key p) normalized < suggestion_cutoff)%Q) ->
        names = [])).
Proof.
  apply (C8_not_found_with_suggestions Examples.insertion_order
           insertion_order_perm Examples.registry "uni").
  - reflexivity.
  - reflexivity.
Defined.

(** The failure of the sample registry on the input ["uni"]. *)
Example not_found_uni :
  resolve_protocol Examples.insertion_order Examples.registry "uni" =
  Raise (ProtocolNotFoundError
           "Protocol 'uni' not found. Did you mean: Uniswap V3?").
Proof. reflexivity. Qed.

Lemma pair_leb_cases (p q : Q * string) :
  Difflib.pair_leb p q = true ->
  (fst p < fst q)%Q \/ ((fst p == fst q)%Q /\ String.leb (snd p) (snd q) = true).
Proof.
  unfold Difflib.pair_leb.
  destruct (Qcompare_spec (fst p) (fst q)); [auto|auto|discriminate].
Qed.

(** C2, as stated, fails: the keys ["protocola"] and ["protocolb"] are both
    at similarity 8/9 of ["protocolx"]; ["protocola"] was inserted first,
    and the record of ["protocolb"] is returned. *)
Lemma C2_counterexample :
  let snapshot := [Examples.protocol_a; Examples.protocol_b] in
  let ix := build_index snapshot in
  Dict.keys (all_candidates_of Examples.insertion_order ix
               (parent_name_map_of (parent_children ix))) =
    ["protocola"; "protocolb"; "alpha"; "beta"] /\
  Difflib.close_enough "protocolx" fuzzy_cutoff "protocola" = true /\
  Difflib.close_enough "protocolx" fuzzy_cutoff "protocolb" = true /\
  (Difflib.ratio "protocola" "protocolx" ==
   Difflib.ratio "protocolb" "protocolx")%Q /\
  resolve_protocol Examples.insertion_order snapshot "protocolx" =
  Return (Resolution.mk "protocolb" "Beta" false [] None).
Proof.
  intros snapshot ix. split; [vm_compute; reflexivity|].
  split; [vm_compute; reflexivity|]. split; [vm_compute; reflexivity|].
  split; [vm_compute; reflexivity|]. vm_compute. reflexivity.
Qed.

(** C2, amended: on a snapshot and an input made of ASCII text, when no
    exact step matches and some candidate key is at similarity 0.85 or more
    of the normalized input, the winning key is such
    a key of highest similarity; among keys of equal similarity the greatest
    in string order wins, whatever the insertion order; the result is built
    according to the kind and target that [all_candidates] holds for the
    winning key, which are those written by the last of the four loops that
    holds the key (slugs, then names, then parent slugs, then derived parent
    names). *)
Theorem C2_fuzzy_winner (set_iter : PySet.t -> list string)
    (set_iter_perm : forall s, Permutation (set_iter s) s)
    (protocols : list Protocol.t) (user_input k0 : string) :
  ascii_snapshot protocols = true -> PyStr.isascii user_input = true ->
  let normalized := normalize user_input in
  let ix := build_index protocols in
  let all_candidates :=
    all_candidates_of set_iter ix (parent_name_map_of (parent_children ix)) in
  no_exact_match protocols normalized ->
  is_candidate_key protocols k0 ->
  Difflib.close_enough normalized fuzzy_cutoff k0 = true ->
  exists best kd key,
    is_candidate_key protocols best /\
    Difflib.close_enough normalized fuzzy_cutoff best = true /\
    (forall k, is_candidate_key protocols k ->
       Difflib.close_enough normalized fuzzy_cutoff k = true ->
       (Difflib.ratio k normalized < Difflib.ratio best normalized)%Q \/
       ((Difflib.ratio k normalized == Difflib.ratio best normalized)%Q /\
        String.leb k best = true)) /\
    Dict.get best all_candidates = Some (kd, key) /\
    (kd, key) =
      match Dict.get best (parent_name_map_of (parent_children ix)) with
      | Some ps => (KParent, ps)
      | None =>
          if PySet.mem best (parent_slugs ix) then (KParent, best)
          else if Dict.mem best (name_map ix) then (KName, best)
          else (KSlug, best)
      end /\
    resolve_protocol set_iter protocols user_input =
    match kd with
    | KParent => _build_parent_result key (parent_children ix)
    | KSlug => record_result_at (slug_map ix) key
    | KName => record_result_at (name_map ix) key
    end.
Proof.
  intros _ _ normalized ix all_candidates Hex Hk0 Hc0.
  rewrite (resolve_reaches_fuzzy_step set_iter set_iter_perm _ _ Hex).
  unfold fuzzy_step. fold ix. fold all_candidates. fold normalized.
  destruct (Difflib.get_close_matches normalized (Dict.keys all_candidates)
                                      5 fuzzy_cutoff) as [|best rest] eqn:E.
  { exfalso.
    rewrite (get_close_matches_nil_inv _ 5 _ _ ltac:(lia) E k0) in Hc0;
      [discriminate|].
    now apply (candidate_keys set_iter set_iter_perm). }
  apply get_close_matches_head in E. destruct E as [Hin [Hc Hmax]].
  destruct (Dict.get best all_candidates) as [[kd key]|] eqn:Eg.
  2:{ apply In_keys_get in Hin. congruence. }
  exists best, kd, key. split.
  { now apply (candidate_keys set_iter set_iter_perm protocols). }
  split; [exact Hc|]. split.
  - intros k Hk Hck.
    apply (candidate_keys set_iter set_iter_perm protocols) in Hk.
    apply (pair_leb_cases _ _ (Hmax k Hk Hck)).
  - split; [exact Eg|]. split.
    + pose proof Eg as Et. unfold all_candidates in Et.
      rewrite (TagFacts.all_candidates_tag set_iter set_iter_perm) in Et;
        [|apply TagFacts.NoDup_keys_parent_name_map].
      fold ix in Et.
      destruct (Dict.get best (parent_name_map_of (parent_children ix)));
        [congruence|].
      destruct (PySet.mem best (parent_slugs ix)); [congruence|].
      destruct (Dict.mem best (name_map ix)); [congruence|].
      destruct (Dict.mem best (slug_map ix)); congruence.
    + try rewrite Eg. now destruct kd.
Qed.

Lemma C2_fuzzy_winner_witness :
  let normalized := normalize "Protocolx" in
  let protocols := [Examples.protocol_a; Examples.protocol_b] in
  let ix := build_index protocols in
  let all_candidates :=
    all_candidates_of Examples.insertion_order ix
                      (parent_name_map_of (parent_children ix)) in
  exists best kd key,
    is_candidate_key protocols best /\
    Difflib.close_enough normalized fuzzy_cutoff best = true /\
    (forall k, is_candidate_key protocols k ->
       Difflib.close_enough normalized fuzzy_cutoff k = true ->
       (Difflib.ratio k normalized < Difflib.ratio best normalized)%Q \/
       ((Difflib.ratio k normalized == Difflib.ratio best normalized)%Q /\
        String.leb k best = true)) /\
    Dict.get best all_candidates = Some (kd, key) /\
    (kd, key) =
      match Dict.get best (parent_name_map_of (parent_children ix)) with
      | Some ps => (KParent, ps)
      | None =>
          if PySet.mem best (parent_slugs ix) then (KParent, best)
          else if Dict.mem best (name_map ix) then (KName, best)
          else (KSlug, best)
      end /\
    resolve_protocol Examples.insertion_order protocols "Protocolx" =
    match kd with
    | KParent => _build_parent_result key (parent_children ix)
    | KSlug => record_result_at (slug_map ix) key
    | KName => record_result_at (name_map ix) key
    end.
Proof.
  apply (C2_fuzzy_winner Examples.insertion_order insertion_order_perm
           [Examples.protocol_a; Examples.protocol_b] "Protocolx" "protocola").
  - reflexivity.
  - reflexivity.
  - apply (exact_guards Examples.insertion_order insertion_order_perm).
    vm_compute. repeat split; try reflexivity. intros [].
  - left. exists Examples.protocol_a. split; [now left|reflexivity].
  - vm_compute. reflexivity.
Defined.

Lemma hyphens_to_spaces_empty (s : string) :
  hyphens_to_spaces s = "" -> s = "".
Proof. destruct s; [reflexivity|discriminate]. Qed.

(** C10, as stated, fails: the only record has a non-empty slug and a
    non-empty name, but its name is a bare version marker, so the group it
    belongs to is filed under the empty derived name and the empty input
    resolves to that group. *)
Lemma C10_counterexample :
  (forall p, In p [Examples.bare_version] ->
     exists s n, Protocol.slug p = Some s /\ Protocol.name p = Some n /\
                 s <> "" /\ n <> "") /\
  resolve_protocol Examples.insertion_order [Examples.bare_version] "" =
  Return (Resolution.mk "grp" "Grp" true [Child.mk " V2" "x"] None).
Proof.
  split; [|reflexivity].
  intros p [<-|[]]. exists "x", " V2". repeat split; discriminate.
Qed.

(** C10, amended: on a snapshot and an input made of ASCII text, when every
    record has a non-empty slug and a non-empty name, no parent slug is
    empty and no group member has an empty base name, an empty or
    whitespace-only input raises ProtocolNotFoundError with no suggestion:
    the message only quotes the input. *)
Theorem C10_blank_input_not_found (set_iter : PySet.t -> list string)
    (set_iter_perm : forall s, Permutation (set_iter s) s)
    (protocols : list Protocol.t) (user_input : string) :
  ascii_snapshot protocols = true -> PyStr.isascii user_input = true ->
  (forall p, In p protocols ->
     get_or_empty (Protocol.slug p) <> "" /\
     get_or_empty (Protocol.name p) <> "") ->
  (forall p ps, In p protocols -> parent_key p = Some ps ->
     ps <> "" /\ derived_key p <> "") ->
  PyStr.all_space user_input = true ->
  resolve_protocol set_iter protocols user_input =
  Raise (ProtocolNotFoundError
           (String.append "Protocol '" (String.append user_input "' not found."))).
Proof.
  intros _ _ Hfields Hgroups Hblank.
  assert (Hnorm : normalize user_input = "").
  { unfold normalize. now rewrite (strip_all_space _ Hblank). }
  assert (Hsk : forall p, In p protocols -> slug_key p <> "").
  { intros p Hp E. apply lower_eq_empty in E.
    destruct (Hfields p Hp) as [H _]. now apply H. }
  assert (Hnk : forall p, In p protocols -> name_key p <> "").
  { intros p Hp E. apply lower_eq_empty in E.
    destruct (Hfields p Hp) as [_ H]. now apply H. }
  assert (Hno : no_tier_matches protocols (normalize user_input)).
  { rewrite Hnorm. split.
    - split; [exact Hsk|]. split; [exact Hnk|]. split.
      + intros p ps Hp Hk. destruct (Hgroups p ps Hp Hk) as [Hps _]. split.
        * congruence.
        * intros E. symmetry in E. now apply hyphens_to_spaces_empty in E.
      + intros p Hp Hk. destruct (parent_key p) as [ps|] eqn:E; [|congruence].
        now apply (Hgroups p ps Hp E).
    - intros k Hk. apply not_close_to_empty_word; [reflexivity|].
      destruct Hk as [[p [Hp <-]]|[[p [Hp <-]]|[[p [Hp Hk]]|[p [Hp [Hk <-]]]]]].
      + now apply Hsk.
      + now apply Hnk.
      + now apply (Hgroups p k Hp Hk).
      + destruct (parent_key p) as [ps|] eqn:E; [|congruence].
        now apply (Hgroups p ps Hp E). }
  destruct (resolve_no_tier set_iter set_iter_perm _ _ Hno) as [names [Hn Hr]].
  rewrite Hr. rewrite Hnorm in Hn.
  rewrite get_close_matches_none in Hn.
  - simpl in Hn. now injection Hn as <-.
  - intros x Hx. apply in_map_iff in Hx. destruct Hx as [p [<- Hp]].
    apply not_close_to_empty_word; [reflexivity|]. now apply Hnk.
Qed.

Lemma C10_blank_input_not_found_witness :
  resolve_protocol Examples.insertion_order Examples.registry "   " =
  Raise (ProtocolNotFoundError "Protocol '   ' not found.").
Proof.
  apply (C10_blank_input_not_found Examples.insertion_order
           insertion_order_perm Examples.registry "   ").
  - reflexivity.
  - reflexivity.
  - intros p Hp. simpl in Hp.
    repeat (destruct Hp as [<-|Hp]; [split; discriminate|]).
    destruct Hp.
  - intros p ps Hp. simpl in Hp.
    repeat (destruct Hp as [<-|Hp];
            [vm_compute; intros [= <-]; split; discriminate|]).
    destruct Hp.
  - reflexivity.
Defined.

(* ------------------------------------------------------------------ *)
(** ** Snapshots whose records all carry a slug and a name *)

Lemma record_result_complete (p : Protocol.t) :
  complete p -> exists r, record_result p = Return r.
Proof.
  intros [Hs Hn]. unfold record_result.
  destruct (Protocol.slug p) as [s|]; [|congruence].
  destruct (Protocol.name p) as [n|]; [|congruence].
  simpl. eexists. reflexivity.
Qed.

Lemma children_list_complete (l : list Protocol.t) :
  (forall c, In c l -> complete c) -> exists kids, children_list l = Return kids.
Proof.
  induction l as [|c l IH]; intros H; simpl; [now exists []|].
  destruct (H c (or_introl eq_refl)) as [Hs Hn].
  destruct (Protocol.name c) as [n|]; [|congruence].
  destruct (Protocol.slug c) as [s|]; [|congruence].
  destruct (IH (fun c' H' => H c' (or_intror H'))) as [kids ->].
  simpl. eexists. reflexivity.
Qed.

Lemma children_of_snapshot (protocols : list Protocol.t) (ps : string) :
  children_of ps (parent_children (build_index protocols)) =
  members_of protocols ps.
Proof.
  unfold children_of. rewrite get_parent_children.
  now destruct (members_of protocols ps).
Qed.

Lemma build_parent_result_complete (protocols : list Protocol.t) (ps : string) :
  (forall p, In p protocols -> complete p) ->
  exists r, _build_parent_result ps (parent_children (build_index protocols)) =
            Return r.
Proof.
  intros H. unfold _build_parent_result. rewrite children_of_snapshot.
  destruct (children_list_complete (members_of protocols ps)) as [kids ->].
  - intros c Hc. apply In_members_of in Hc. now apply H.
  - simpl. eexists. reflexivity.
Qed.

(** On such snapshots the resolver returns a result or raises
    ProtocolNotFoundError; the subscripts of the result builders cannot
    fail. *)
Lemma complete_snapshot_outcomes (set_iter : PySet.t -> list string)
    (set_iter_perm : forall s, Permutation (set_iter s) s)
    (protocols : list Protocol.t) (user_input : string) :
  (forall p, In p protocols -> complete p) ->
  (exists r, resolve_protocol set_iter protocols user_input = Return r) \/
  (exists msg, resolve_protocol set_iter protocols user_input =
               Raise (ProtocolNotFoundError msg)).
Proof.
  intros Hall.
  assert (Hslug : forall k p,
            Dict.get k (slug_map (build_index protocols)) = Some p ->
            exists r, record_result p = Return r).
  { intros k p H. apply In_slug_map_value in H.
    apply record_result_complete, Hall, H. }
  assert (Hname : forall k p,
            Dict.get k (name_map (build_index protocols)) = Some p ->
            exists r, record_result p = Return r).
  { intros k p H. apply In_name_map_value in H.
    apply record_result_complete, Hall, H. }
  pose proof (fun ps => build_parent_result_complete protocols ps Hall) as Hgrp.
  destruct (Dict.get (normalize user_input) (slug_map (build_index protocols)))
    as [p|] eqn:G1.
  { left. rewrite (step1_slug set_iter protocols user_input p G1). eauto. }
  destruct (Dict.get (normalize user_input) (name_map (build_index protocols)))
    as [p|] eqn:G2.
  { left. rewrite (step2_name set_iter protocols user_input p G1 G2). eauto. }
  destruct (in_dec string_dec (normalize user_input)
                   (parent_slugs (build_index protocols))) as [G3|G3].
  { left. rewrite (step3_parent_slug set_iter protocols user_input G1 G2 G3).
    apply Hgrp. }
  destruct (find (fun ps => String.eqb (normalize user_input) (hyphens_to_spaces ps))
                 (set_iter (parent_slugs (build_index protocols))))
    as [ps|] eqn:G4.
  { left. rewrite (step3_spaced set_iter protocols user_input ps G1 G2 G3 G4).
    apply Hgrp. }
  destruct (Dict.get (normalize user_input)
              (parent_name_map_of (parent_children (build_index protocols))))
    as [ps|] eqn:G5.
  { left. unfold resolve_protocol.
    change (PyStr.lower (PyStr.strip user_input)) with (normalize user_input).
    unfold Dict.mem. rewrite G1, G2, G4, G5.
    destruct (PySet.mem _ _); apply Hgrp. }
  assert (Hex : no_exact_match protocols (normalize user_input)).
  { apply (exact_guards set_iter set_iter_perm). auto. }
  rewrite (resolve_reaches_fuzzy_step set_iter set_iter_perm _ _ Hex).
  unfold fuzzy_step.
  destruct (Difflib.get_close_matches _ _ _ _) as [|best rest] eqn:E.
  - right. unfold not_found. rewrite not_found_possibilities.
    destruct (suggestion_names_total protocols
                (Difflib.get_close_matches (normalize user_input)
                   (map name_key protocols) 3 suggestion_cutoff)) as [names ->].
    { intros s Hs.
      now apply (suggestions_non_empty protocols user_input s Hex). }
    simpl. eexists. reflexivity.
  - left. apply get_close_matches_head in E. destruct E as [Hin _].
    destruct (Dict.get best _) as [[kd key]|] eqn:Eg.
    2:{ apply In_keys_get in Hin. congruence. }
    pose proof (all_candidates_value _ set_iter_perm _ _ _ _ _ Eg) as Hv.
    destruct kd.
    + apply In_keys_get in Hv. unfold record_result_at.
      destruct (Dict.get key (slug_map (build_index protocols))) eqn:Ek;
        [eauto|congruence].
    + apply In_keys_get in Hv. unfold record_result_at.
      destruct (Dict.get key (name_map (build_index protocols))) eqn:Ek;
        [eauto|congruence].
    + apply Hgrp.
Qed.

(* ================================================================== *)
(** * Further properties of the resolver *)
(* ================================================================== *)

(** Duplicate slugs: on a snapshot and an input made of ASCII text, when
    several records share the lowercased slug that the normalized input
    equals, the result is built from the last of them in snapshot order,
    before any other step is tried. *)
Theorem duplicate_slug_last_wins (set_iter : PySet.t -> list string)
    (protocols pre post : list Protocol.t) (L : Protocol.t)
    (user_input : string) :
  ascii_snapshot protocols = true -> PyStr.isascii user_input = true ->
  protocols = pre ++ L :: post ->
  slug_key L = normalize user_input ->
  (forall p, In p post -> slug_key p <> normalize user_input) ->
  resolve_protocol set_iter protocols user_input =
  match Protocol.slug L, Protocol.name L with
  | Some slug, Some name =>
      Return (Resolution.mk slug name false [] (Protocol.category L))
  | None, _ => Raise (KeyError "slug")
  | Some _, None => Raise (KeyError "name")
  end.
Proof.
  intros _ _ Hsplit HL Hpost.
  rewrite (step1_slug set_iter protocols user_input L).
  - unfold record_result.
    destruct (Protocol.slug L), (Protocol.name L); reflexivity.
  - rewrite get_slug_map, Hsplit. apply find_last_split.
    + rewrite HL. apply String.eqb_refl.
    + intros y Hy. apply String.eqb_neq. now apply Hpost.
Qed.

Lemma duplicate_slug_last_wins_witness :
  resolve_protocol Examples.insertion_order
    [MoreExamples.first_writer; MoreExamples.last_writer; Examples.lido]
    " CURVE" =
  Return (Resolution.mk "curve" "Curve Two" false [] (Some "Yield")).
Proof.
  apply (duplicate_slug_last_wins Examples.insertion_order
           [MoreExamples.first_writer; MoreExamples.last_writer; Examples.lido]
           [MoreExamples.first_writer] [Examples.lido]
           MoreExamples.last_writer " CURVE").
  - reflexivity.
  - reflexivity.
  - reflexivity.
  - reflexivity.
  - intros p [<-|[]]. vm_compute. discriminate.
Defined.

Lemma step3_derived_name (set_iter : PySet.t -> list string)
    (protocols : list Protocol.t) (user_input ps : string) :
  Dict.get (normalize user_input) (slug_map (build_index protocols)) = None ->
  Dict.get (normalize user_input) (name_map (build_index protocols)) = None ->
  ~ In (normalize user_input) (parent_slugs (build_index protocols)) ->
  find (fun ps => String.eqb (normalize user_input) (hyphens_to_spaces ps))
       (set_iter (parent_slugs (build_index protocols))) = None ->
  Dict.get (normalize user_input)
           (parent_name_map_of (parent_children (build_index protocols))) =
    Some ps ->
  resolve_protocol set_iter protocols user_input =
  _build_parent_result ps (parent_children (build_index protocols)).
Proof.
  intros G1 G2 G3 G4 G5. unfold resolve_protocol.
  change (PyStr.lower (PyStr.strip user_input)) with (normalize user_input).
  unfold Dict.mem. rewrite G1, G2, G4, G5.
  destruct (PySet.mem _ _) eqn:E; [|reflexivity].
  apply PySetFacts.set_mem_true in E. contradiction.
Qed.





Lemma record_result_key_error (p : Protocol.t) (k : string) :
  record_result p = Raise (KeyError k) ->
  (k = "slug" /\ Protocol.slug p = None) \/
  (k = "name" /\ Protocol.name p = None).
Proof.
  unfold record_result.
  destruct (Protocol.slug p) as [s|]; simpl; [|intros [= <-]; now left].
  destruct (Protocol.name p) as [n|]; simpl; [discriminate|].
  intros [= <-]. now right.
Qed.

Lemma children_list_key_error (l : list Protocol.t) (k : string) :
  children_list l = Raise (KeyError k) ->
  exists c, In c l /\
    ((k = "slug" /\ Protocol.slug c = None) \/
     (k = "name" /\ Protocol.name c = None)).
Proof.
  induction l as [|c l IH]; simpl; [discriminate|].
  destruct (Protocol.name c) as [n|] eqn:En; simpl.
  2:{ intros [= <-]. exists c. split; [now left|now right]. }
  destruct (Protocol.slug c) as [s|] eqn:Es; simpl.
  2:{ intros [= <-]. exists c. split; [now left|now left]. }
  destruct (children_list l) as [tl|e]; simpl; [discriminate|].
  intros [= ->]. destruct (IH eq_refl) as [c' [Hc' Hk]].
  exists c'. split; [now right|exact Hk].
Qed.

Lemma build_parent_result_key_error (protocols : list Protocol.t)
    (ps k : string) :
  _build_parent_result ps (parent_children (build_index protocols)) =
    Raise (KeyError k) ->
  exists c, In c protocols /\
    ((k = "slug" /\ Protocol.slug c = None) \/
     (k = "name" /\ Protocol.name c = None)).
Proof.
  unfold _build_parent_result. rewrite children_of_snapshot.
  destruct (children_list (members_of protocols ps)) as [kids|e] eqn:E; simpl;
    [discriminate|].
  intros [= ->]. apply children_list_key_error in E.
  destruct E as [c [Hc Hk]]. apply In_members_of in Hc.
  exists c. split; [apply Hc|exact Hk].
Qed.

(** The only KeyError that can escape names the field [slug] or [name] of
    a record of the snapshot that lacks it; the lookups in the resolver's
    own dictionaries never fail. *)
Theorem key_error_names_missing_field (set_iter : PySet.t -> list string)
    (set_iter_perm : forall s, Permutation (set_iter s) s)
    (protocols : list Protocol.t) (user_input k : string) :
  resolve_protocol set_iter protocols user_input = Raise (KeyError k) ->
  exists p, In p protocols /\
    ((k = "slug" /\ Protocol.slug p = None) \/
     (k = "name" /\ Protocol.name p = None)).
Proof.
  intros H.
  assert (Hslug : forall key p,
            Dict.get key (slug_map (build_index protocols)) = Some p ->
            record_result p = Raise (KeyError k) ->
            exists p, In p protocols /\
              ((k = "slug" /\ Protocol.slug p = None) \/
               (k = "name" /\ Protocol.name p = None))).
  { intros key p Hg Hr. apply In_slug_map_value in Hg.
    exists p. split; [apply Hg|now apply record_result_key_error]. }
  assert (Hname : forall key p,
            Dict.get key (name_map (build_index protocols)) = Some p ->
            record_result p = Raise (KeyError k) ->
            exists p, In p protocols /\
              ((k = "slug" /\ Protocol.slug p = None) \/
               (k = "name" /\ Protocol.name p = None))).
  { intros key p Hg Hr. apply In_name_map_value in Hg.
    exists p. split; [apply Hg|now apply record_result_key_error]. }
  destruct (Dict.get (normalize user_input) (slug_map (build_index protocols)))
    as [p|] eqn:G1.
  { rewrite (step1_slug set_iter protocols user_input p G1) in H. eauto. }
  destruct (Dict.get (normalize user_input) (name_map (build_index protocols)))
    as [p|] eqn:G2.
  { rewrite (step2_name set_iter protocols user_input p G1 G2) in H. eauto. }
  destruct (in_dec string_dec (normalize user_input)
                   (parent_slugs (build_index protocols))) as [G3|G3].
  { rewrite (step3_parent_slug set_iter protocols user_input G1 G2 G3) in H.
    now apply build_parent_result_key_error in H. }
  destruct (find (fun ps => String.eqb (normalize user_input) (hyphens_to_spaces ps))
                 (set_iter (parent_slugs (build_index protocols))))
    as [ps|] eqn:G4.
  { rewrite (step3_spaced set_iter protocols user_input ps G1 G2 G3 G4) in H.
    now apply build_parent_result_key_error in H. }
  destruct (Dict.get (normalize user_input)
              (parent_name_map_of (parent_children (build_index protocols))))
    as [ps|] eqn:G5.
  { rewrite (step3_derived_name set_iter protocols user_input ps G1 G2 G3 G4 G5)
      in H.
    now apply build_parent_result_key_error in H. }
  assert (Hex : no_exact_match protocols (normalize user_input)).
  { apply (exact_guards set_iter set_iter_perm). auto. }
  rewrite (resolve_reaches_fuzzy_step set_iter set_iter_perm _ _ Hex) in H.
  unfold fuzzy_step in H.
  destruct (Difflib.get_close_matches _ _ _ _) as [|best rest] eqn:E.
  - exfalso. unfold not_found in H. rewrite not_found_possibilities in H.
    destruct (suggestion_names_total protocols
                (Difflib.get_close_matches (normalize user_input)
                   (map name_key protocols) 3 suggestion_cutoff)) as [names Hn].
    { intros s Hs.
      now apply (suggestions_non_empty protocols user_input s Hex). }
    rewrite Hn in H. discriminate.
  - apply get_close_matches_head in E. destruct E as [Hin _].
    destruct (Dict.get best _) as [[kd key]|] eqn:Eg.
    2:{ apply In_keys_get in Hin. congruence. }
    destruct kd.
    + unfold record_result_at in H.
      pose proof (all_candidates_value _ set_iter_perm _ _ _ _ _ Eg) as Hv.
      apply In_keys_get in Hv.
      destruct (Dict.get key (slug_map (build_index protocols))) eqn:Ek;
        [eauto|congruence].
    + unfold record_result_at in H.
      pose proof (all_candidates_value _ set_iter_perm _ _ _ _ _ Eg) as Hv.
      apply In_keys_get in Hv.
      destruct (Dict.get key (name_map (build_index protocols))) eqn:Ek;
        [eauto|congruence].
    + now apply build_parent_result_key_error in H.
Qed.

Lemma key_error_names_missing_field_witness :
  exists p,
    In p [MoreExamples.maker_v1; MoreExamples.nameless_member] /\
    (("name" = "slug" /\ Protocol.slug p = None) \/
     ("name" = "name" /\ Protocol.name p = None)).
Proof.
  apply (key_error_names_missing_field Examples.insertion_order
           insertion_order_perm
           [MoreExamples.maker_v1; MoreExamples.nameless_member] "sky").
  vm_compute. reflexivity.
Defined.

Lemma complete_snapshot_outcomes_witness :
  (exists r, resolve_protocol Examples.insertion_order Examples.registry
               "uniswap" = Return r) \/
  (exists msg, resolve_protocol Examples.insertion_order Examples.registry
                 "uniswap" = Raise (ProtocolNotFoundError msg)).
Proof.
  apply (complete_snapshot_outcomes Examples.insertion_order
           insertion_order_perm Examples.registry "uniswap").
  intros p Hp. simpl in Hp.
  repeat (destruct Hp as [<-|Hp]; [split; discriminate|]). destruct Hp.
Defined.

Lemma suggestion_names_only_key_error (protocols : list Protocol.t)
    (suggestions : list string) (msg : string) :
  suggestion_names protocols suggestions <> Raise (ProtocolNotFoundError msg).
Proof.
  induction suggestions as [|s rest IH]; simpl; [discriminate|].
  destruct (find _ protocols) as [p|]; [|exact IH].
  destruct (Protocol.name p); simpl; [|discriminate].
  destruct (suggestion_names protocols rest); simpl; [discriminate|exact IH].
Qed.

Lemma not_found_same_up_to_message (protocols : list Protocol.t)
    (a b normalized : string) :
  same_up_to_message a b (not_found protocols a normalized)
                         (not_found protocols b normalized).
Proof.
  unfold not_found.
  pose proof (suggestion_names_only_key_error protocols
                (Difflib.get_close_matches normalized
                   (map PyStr.lower
                        (map (fun p => get_or_empty (Protocol.name p)) protocols))
                   3 suggestion_cutoff)) as Hk.
  destruct (suggestion_names _ _) as [names|[msg|k]]; simpl.
  - now exists names.
  - now destruct (Hk msg).
  - reflexivity.
Qed.

Lemma same_up_to_message_refl (a b : string) (o : outcome Resolution.t) :
  (forall msg, o <> Raise (ProtocolNotFoundError msg)) ->
  same_up_to_message a b o o.
Proof.
  intros H. destruct o as [r|[msg|k]]; simpl; [reflexivity| |reflexivity].
  now destruct (H msg).
Qed.

Lemma resolve_depends_on_normalized (set_iter : PySet.t -> list string)
    (protocols : list Protocol.t) (a b : string) :
  normalize a = normalize b ->
  same_up_to_message a b (resolve_protocol set_iter protocols a)
                         (resolve_protocol set_iter protocols b).
Proof.
  intros H. unfold resolve_protocol.
  change (PyStr.lower (PyStr.strip a)) with (normalize a).
  change (PyStr.lower (PyStr.strip b)) with (normalize b).
  rewrite H.
  destruct (Dict.mem _ (slug_map _)).
  { apply same_up_to_message_refl. intros msg. apply record_result_at_found. }
  destruct (Dict.mem _ (name_map _)).
  { apply same_up_to_message_refl. intros msg. apply record_result_at_found. }
  destruct (PySet.mem _ _).
  { apply same_up_to_message_refl. intros msg. apply build_parent_result_found. }
  destruct (find _ _).
  { apply same_up_to_message_refl. intros msg. apply build_parent_result_found. }
  destruct (Dict.get _ (parent_name_map_of _)).
  { apply same_up_to_message_refl. intros msg. apply build_parent_result_found. }
  unfold fuzzy_step.
  destruct (Difflib.get_close_matches _ _ _ _) as [|best rest].
  { apply not_found_same_up_to_message. }
  destruct (Dict.get best _) as [[[| |] key]|].
  - apply same_up_to_message_refl. intros msg. apply record_result_at_found.
  - apply same_up_to_message_refl. intros msg. apply record_result_at_found.
  - apply same_up_to_message_refl. intros msg. apply build_parent_result_found.
  - reflexivity.
Qed.

(** Letter case and surrounding whitespace of the input never change the
    outcome: two inputs that differ only by them give the same result or
    the same KeyError, or both fail with the same suggestions, each message
    quoting its own input. *)
Theorem resolution_ignores_case_and_padding
    (set_iter : PySet.t -> list string) (protocols : list Protocol.t)
    (ws1 u ws2 u' : string) :
  PyStr.all_space ws1 = true -> PyStr.all_space ws2 = true ->
  PyStr.lower u = PyStr.lower u' ->
  same_up_to_message (String.append ws1 (String.append u ws2)) u'
    (resolve_protocol set_iter protocols
                      (String.append ws1 (String.append u ws2)))
    (resolve_protocol set_iter protocols u').
Proof.
  intros H1 H2 Hu. apply resolve_depends_on_normalized.
  unfold normalize.
  now rewrite (strip_surrounded _ _ _ H1 H2), !lower_strip, Hu.
Qed.

Lemma resolution_ignores_case_and_padding_witness :
  same_up_to_message "  UNI " "uni"
    (resolve_protocol Examples.insertion_order Examples.registry "  UNI ")
    (resolve_protocol Examples.insertion_order Examples.registry "uni").
Proof.
  apply (resolution_ignores_case_and_padding Examples.insertion_order
           Examples.registry "  " "UNI" " " "uni"); reflexivity.
Defined.

(* ================================================================== *)
(** * Properties of the client *)
(* ================================================================== *)

Module ClientFacts.
Module C := DefiLlamaClient.

Lemma In_fold_add (l : list string) (s : PySet.t) (x : string) :
  In x (fold_left (fun names n => PySet.add (PyStr.lower n) names) l s) <->
  In x s \/ In x (map PyStr.lower l).
Proof.
  revert s. induction l as [|n l IH]; intros s; simpl; [tauto|].
  rewrite IH, PySetFacts.In_add. intuition.
Qed.

Lemma In_names_to_match (protocol_name : string)
    (child_names : option (list string)) (x : string) :
  In x (C.names_to_match protocol_name child_names) <->
  x = PyStr.lower protocol_name \/
  In x (map PyStr.lower (child_list child_names)).
Proof.
  unfold C.names_to_match, child_list.
  destruct child_names as [[|n l]|].
  - rewrite PySetFacts.In_add. simpl. tauto.
  - rewrite In_fold_add, PySetFacts.In_add. simpl. tauto.
  - rewrite PySetFacts.In_add. simpl. tauto.
Qed.

Section HackFilter.
Context {num json : Type}.
Implicit Types (h : Hack.t num json) (hacks : list (Hack.t num json)).



(** Only the set of lowercased names matters: the letter case of the names,
    their order, their repetitions, and passing no child names rather than
    an empty list make no difference. *)
Theorem matching_hacks_name_set hacks (n n' : string)
    (cs cs' : option (list string)) :
  PyStr.lower n = PyStr.lower n' ->
  (forall x, In x (map PyStr.lower (child_list cs)) <->
             In x (map PyStr.lower (child_list cs'))) ->
  C.matching_hacks hacks n cs = C.matching_hacks hacks n' cs'.
Proof.
  intros Hn Hcs. unfold C.matching_hacks. apply filter_ext. intros h.
  destruct (PySet.mem (C.hack_key h) (C.names_to_match n' cs')) eqn:E.
  - apply PySetFacts.set_mem_true. apply PySetFacts.set_mem_true in E.
    rewrite In_names_to_match in *. rewrite Hn, Hcs. exact E.
  - apply not_true_is_false. intros E'. apply PySetFacts.set_mem_true in E'.
    rewrite In_names_to_match, Hn, Hcs, <- In_names_to_match in E'.
    apply PySetFacts.set_mem_true in E'. congruence.
Qed.

End HackFilter.

Lemma matching_hacks_name_set_witness :
  C.matching_hacks ClientExamples.all_hacks "Aave"
                 (Some ["Aave V2"; "Aave V3"; "aave v2"]) =
  C.matching_hacks ClientExamples.all_hacks "AAVE" (Some ["AAVE V3"; "aave V2"]).
Proof.
  apply matching_hacks_name_set.
  - reflexivity.
  - intros x. simpl. tauto.
Defined.

Section Caches.
Context {num json detail : Type}.
Variable world : Type.
Variable _get_protocols : world -> api_result (list Protocol.t) * world.
Variable _get_hacks : world -> api_result (list (Hack.t num json)) * world.
Variable _get_detail : string -> world -> api_result detail * world.
Variable set_iter : PySet.t -> list string.

Local Abbreviation perform' :=
  (C.perform world _get_protocols _get_hacks _get_detail set_iter).
Local Abbreviation perform_all' :=
  (C.perform_all world _get_protocols _get_hacks _get_detail set_iter).

Lemma get_protocols_list_keeps (self : C.state num json) (w : world) :
  let '(_, self', _) := C.get_protocols_list world _get_protocols self w in
  (forall l, C._protocols_cache self = Some l -> C._protocols_cache self' = Some l) /\
  C._hacks_cache self' = C._hacks_cache self.
Proof.
  unfold C.get_protocols_list.
  destruct (C._protocols_cache self) as [l|] eqn:E.
  - split; [intros l' H; congruence|reflexivity].
  - destruct (_get_protocols w) as [[l|msg] w']; simpl.
    + split; [discriminate|reflexivity].
    + split; [congruence|reflexivity].
Qed.

Lemma get_all_hacks_keeps (self : C.state num json) (w : world) :
  let '(_, self', _) := C.get_all_hacks world _get_hacks self w in
  (forall l, C._hacks_cache self = Some l -> C._hacks_cache self' = Some l) /\
  C._protocols_cache self' = C._protocols_cache self.
Proof.
  unfold C.get_all_hacks.
  destruct (C._hacks_cache self) as [l|] eqn:E.
  - split; [intros l' H; congruence|reflexivity].
  - destruct (_get_hacks w) as [[l|msg] w']; simpl.
    + split; [discriminate|reflexivity].
    + split; [congruence|reflexivity].
Qed.

Lemma perform_keeps (c : C.call) (self : C.state num json) (w : world) :
  (forall l, C._protocols_cache self = Some l ->
             C._protocols_cache (fst (perform' c self w)) = Some l) /\
  (forall l, C._hacks_cache self = Some l ->
             C._hacks_cache (fst (perform' c self w)) = Some l).
Proof.
  destruct c; unfold C.perform.
  - pose proof (get_protocols_list_keeps self w) as H.
    destruct (C.get_protocols_list _ _ self w) as [[r self'] w']. simpl.
    destruct H as [H1 H2]. split; [exact H1|]. intros l. now rewrite H2.
  - unfold C.get_protocol_detail. destruct (_get_detail slug w). simpl. auto.
  - pose proof (get_all_hacks_keeps self w) as H.
    destruct (C.get_all_hacks _ _ self w) as [[r self'] w']. simpl.
    destruct H as [H1 H2]. split; [|exact H1]. intros l. now rewrite H2.
  - unfold C.resolve_protocol.
    pose proof (get_protocols_list_keeps self w) as H.
    destruct (C.get_protocols_list _ _ self w) as [[[l|msg] self'] w']; simpl;
      destruct H as [H1 H2]; (split; [exact H1|]); intros l'; now rewrite H2.
  - unfold C.find_hacks_for_protocol.
    pose proof (get_all_hacks_keeps self w) as H.
    destruct (C.get_all_hacks _ _ self w) as [[[l|msg] self'] w']; simpl;
      destruct H as [H1 H2]; (split; [|exact H1]); intros l'; now rewrite H2.
Qed.

Lemma perform_all_keeps (calls : list C.call) :
  forall (self : C.state num json) (w : world),
  (forall l, C._protocols_cache self = Some l ->
             C._protocols_cache (fst (perform_all' calls self w)) = Some l) /\
  (forall l, C._hacks_cache self = Some l ->
             C._hacks_cache (fst (perform_all' calls self w)) = Some l).
Proof.
  induction calls as [|c rest IH]; intros self w; simpl; [auto|].
  pose proof (perform_keeps c self w) as [H1 H2].
  destruct (perform' c self w) as [self' w'] eqn:E. simpl in H1, H2.
  destruct (IH self' w') as [I1 I2]. split; intros l Hl; auto.
Qed.

(** A filled cache is never emptied nor replaced: after any sequence of
    calls on the client, a snapshot (or a hack list) that was cached is
    still the one in the cache. *)
Theorem caches_are_never_replaced (calls : list C.call)
    (self : C.state num json) (w : world) :
  (forall l, C._protocols_cache self = Some l ->
             C._protocols_cache (fst (perform_all' calls self w)) = Some l) /\
  (forall l, C._hacks_cache self = Some l ->
             C._hacks_cache (fst (perform_all' calls self w)) = Some l).
Proof. apply perform_all_keeps. Qed.

Lemma get_protocols_list_cached (self : C.state num json) (w : world)
    (l : list Protocol.t) :
  C._protocols_cache self = Some l ->
  C.get_protocols_list world _get_protocols self w = (Fetched l, self, w).
Proof. intros H. unfold C.get_protocols_list. now rewrite H. Qed.

Lemma get_protocols_list_fills (self self' : C.state num json) (w w' : world)
    (l : list Protocol.t) :
  C.get_protocols_list world _get_protocols self w = (Fetched l, self', w') ->
  C._protocols_cache self' = Some l.
Proof.
  unfold C.get_protocols_list.
  destruct (C._protocols_cache self) as [l0|] eqn:E.
  - intros [= <- <- <-]. exact E.
  - destruct (_get_protocols w) as [[l0|msg] w0]; [|discriminate].
    now intros [= <- <- <-].
Qed.


Lemma resolve_protocol_fills_cache (self self' : C.state num json)
    (user_input : string) (w w' : world) (o : outcome Resolution.t) :
  C.resolve_protocol world _get_protocols set_iter self user_input w =
    (Fetched o, self', w') ->
  exists protocols,
    C._protocols_cache self' = Some protocols /\
    o = resolve_protocol set_iter protocols user_input.
Proof.
  unfold C.resolve_protocol.
  destruct (C.get_protocols_list world _get_protocols self w)
    as [[[l|msg] s1] w1] eqn:E; [|discriminate].
  intros [= <- <- <-]. exists l. split; [|reflexivity].
  eapply get_protocols_list_fills, E.
Qed.

(** Once a resolution has gone through, every later resolution on the
    client, after any calls in between and whatever the server would now
    answer, is computed on the snapshot of the first one and makes no
    request; the same input gives the same outcome again. *)
Theorem resolution_is_repeatable (self self1 : C.state num json)
    (user_input : string) (w w1 : world) (o : outcome Resolution.t) :
  C.resolve_protocol world _get_protocols set_iter self user_input w =
    (Fetched o, self1, w1) ->
  exists protocols,
    o = resolve_protocol set_iter protocols user_input /\
    forall (calls : list C.call) (wa wb : world) (later_input : string),
      let self2 := fst (perform_all' calls self1 wa) in
      C.resolve_protocol world _get_protocols set_iter self2 later_input wb =
      (Fetched (resolve_protocol set_iter protocols later_input), self2, wb).
Proof.
  intros H. apply resolve_protocol_fills_cache in H.
  destruct H as [protocols [Hc Ho]]. exists protocols. split; [exact Ho|].
  intros calls wa wb later_input self2.
  pose proof (proj1 (perform_all_keeps calls self1 wa) _ Hc) as Hc2.
  unfold C.resolve_protocol.
  now rewrite (get_protocols_list_cached self2 wb protocols Hc2).
Qed.


Hypothesis set_iter_perm : forall s, Permutation (set_iter s) s.


End Caches.

Lemma caches_are_never_replaced_witness :
  C._protocols_cache
    (fst (C.perform_all nat ClientExamples.flaky_protocols
            ClientExamples.serve_hacks ClientExamples.serve_detail
            Examples.insertion_order
            [C.GetAllHacks; C.ResolveProtocol "lido"; C.GetProtocolsList;
             C.FindHacksForProtocol "Aave" None; C.GetProtocolDetail "lido"]
            (C.mk_state (Some [Examples.lido]) None) 0)) =
  Some [Examples.lido].
Proof.
  apply (proj1 (caches_are_never_replaced nat ClientExamples.flaky_protocols
                  ClientExamples.serve_hacks ClientExamples.serve_detail
                  Examples.insertion_order _ _ 0)).
  reflexivity.
Defined.

Lemma resolution_is_repeatable_witness :
  exists protocols,
    Return Examples.aave_group =
      resolve_protocol Examples.insertion_order protocols "Aave" /\
    forall (calls : list C.call) (wa wb : nat) (later_input : string),
      let self2 :=
        fst (C.perform_all nat ClientExamples.flaky_protocols
               ClientExamples.serve_hacks ClientExamples.serve_detail
               Examples.insertion_order calls
               (C.mk_state (Some Examples.registry) None) wa) in
      C.resolve_protocol nat ClientExamples.flaky_protocols
                         Examples.insertion_order self2 later_input wb =
      (Fetched (resolve_protocol Examples.insertion_order protocols later_input),
       self2, wb).
Proof.
  apply (resolution_is_repeatable (num := Z) (json := string)
           nat ClientExamples.flaky_protocols
           ClientExamples.serve_hacks ClientExamples.serve_detail
           Examples.insertion_order C.init _ "Aave" 1 2).
  reflexivity.
Defined.


End ClientFacts.

(* ================================================================== *)
(** * Facts about the stable sort *)
(* ================================================================== *)

Module PySortedFacts.
Section Sort.
Context {A : Type} (before : A -> A -> bool).

Lemma insert_perm (x : A) (l : list A) :
  Permutation (PySorted.insert before x l) (x :: l).
Proof.
  induction l as [|y l IH]; simpl; [apply Permutation_refl|].
  destruct (before x y); [apply Permutation_refl|].
  apply perm_trans with (y :: x :: l); [now apply perm_skip|apply perm_swap].
Qed.

Lemma sorted_perm (l : list A) : Permutation (PySorted.sorted before l) l.
Proof.
  induction l as [|x l IH]; simpl; [apply perm_nil|].
  apply perm_trans with (x :: PySorted.sorted before l);
    [apply insert_perm|now apply perm_skip].
Qed.

Lemma sorted_length (l : list A) :
  length (PySorted.sorted before l) = length l.
Proof. apply Permutation_length, sorted_perm. Qed.

Hypothesis before_total : forall x y, before x y = false -> before y x = true.
Hypothesis before_trans :
  forall x y z, before x y = true -> before y z = true -> before x z = true.

Lemma insert_sorted (x : A) (l : list A) :
  StronglySorted (fun a b => before a b = true) l ->
  StronglySorted (fun a b => before a b = true) (PySorted.insert before x l).
Proof.
  induction l as [|y l IH]; intros H; simpl.
  - constructor; constructor.
  - inversion H as [|? ? Hl Hy]; subst. destruct (before x y) eqn:E.
    + constructor; [exact H|]. constructor; [exact E|].
      rewrite Forall_forall in *. intros z Hz.
      eapply before_trans; [exact E|now apply Hy].
    + constructor; [now apply IH|].
      rewrite Forall_forall in *. intros z Hz.
      apply (Permutation_in _ (insert_perm x l)) in Hz.
      destruct Hz as [<-|Hz]; [now apply before_total|now apply Hy].
Qed.

Lemma sorted_sorted (l : list A) :
  StronglySorted (fun a b => before a b = true) (PySorted.sorted before l).
Proof.
  induction l as [|x l IH]; simpl; [constructor|now apply insert_sorted].
Qed.

End Sort.
End PySortedFacts.

(* ================================================================== *)
(** * Properties of the report builder *)
(* ================================================================== *)

Module ReportFacts.
Module R := Report.













(** The sample: hyphenated and aggregate keys are dropped, the larger value
    comes first and the two chains at 50 keep their order. *)
Example chains_of_sample :
  R.deployed_chains (R._build_chains_section ReportExamples.detail) =
  ["Polygon"; "Ethereum"; "Base"].
Proof. reflexivity. Qed.

(* ------------------------------------------------------------------ *)
(** ** Comprehensions *)

Section Comprehension.
Context {A B : Type} (f : A -> R.res B).

Lemma comprehension_app (l1 l2 : list A) (ys : list B) :
  R.comprehension f (l1 ++ l2) = R.Ok ys ->
  exists ys1 ys2,
    ys = ys1 ++ ys2 /\ R.comprehension f l1 = R.Ok ys1 /\
    R.comprehension f l2 = R.Ok ys2.
Proof.
  revert ys. induction l1 as [|x l1 IH]; intros ys; simpl.
  - intros H. now exists [], ys.
  - destruct (f x) as [y|e]; simpl; [|discriminate].
    destruct (R.comprehension f (l1 ++ l2)) as [ys'|e] eqn:E; simpl;
      [|discriminate].
    intros [= <-]. destruct (IH ys' eq_refl) as [ys1 [ys2 [-> [H1 H2]]]].
    exists (y :: ys1), ys2. rewrite H1. simpl. auto.
Qed.

Lemma comprehension_length (l : list A) (ys : list B) :
  R.comprehension f l = R.Ok ys -> length ys = length l.
Proof.
  revert ys. induction l as [|x l IH]; intros ys; simpl.
  - now intros [= <-].
  - destruct (f x) as [y|e]; simpl; [|discriminate].
    destruct (R.comprehension f l) as [ys'|e]; simpl; [|discriminate].
    intros [= <-]. simpl. now rewrite (IH ys' eq_refl).
Qed.

Lemma comprehension_ok_iff (l : list A) :
  (exists ys, R.comprehension f l = R.Ok ys) <->
  forall x, In x l -> exists y, f x = R.Ok y.
Proof.
  induction l as [|x l IH]; simpl.
  - split; [intros _ x []|intros _; now exists []].
  - split.
    + intros [ys H]. destruct (f x) as [y|e] eqn:Ex; simpl in H; [|discriminate].
      destruct (R.comprehension f l) as [ys'|e]; simpl in H; [|discriminate].
      intros x' [<-|Hx']; [now exists y|].
      apply (proj1 IH); [now exists ys'|exact Hx'].
    + intros H. destruct (H x (or_introl eq_refl)) as [y Hy]. rewrite Hy.
      destruct (proj2 IH (fun x' Hx' => H x' (or_intror Hx'))) as [ys Hys].
      rewrite Hys. simpl. now exists (y :: ys).
Qed.

End Comprehension.

Lemma last_item_snoc {A : Type} (l : list A) (x : A) :
  R.last_item (l ++ [x]) = Some x.
Proof. unfold R.last_item. now rewrite rev_app_distr. Qed.

Lemma last_item_split {A : Type} (l : list A) (x : A) :
  R.last_item l = Some x -> exists l', l = l' ++ [x].
Proof.
  unfold R.last_item. destruct (rev l) as [|y r] eqn:E; [discriminate|].
  intros [= ->]. exists (rev r).
  rewrite <- (rev_involutive l), E. reflexivity.
Qed.

Lemma slice_last_days {A : Type} (n : Z) (l : list A) :
  (0 < n)%Z ->
  R.slice_from (- n) l = skipn (length l - Z.to_nat n) l.
Proof.
  intros H. unfold R.slice_from.
  replace (- n <? 0)%Z with true by (symmetry; apply Z.ltb_lt; lia).
  f_equal. lia.
Qed.

Lemma slice_everything {A : Type} (n : Z) (l : list A) :
  (Z.of_nat (length l) <= n)%Z -> R.slice_from (- n) l = l.
Proof.
  intros H. unfold R.slice_from. destruct (- n <? 0)%Z eqn:E.
  - replace (Z.to_nat _) with 0 by lia. reflexivity.
  - apply Z.ltb_ge in E. replace (Z.to_nat (- n)) with 0 by lia. reflexivity.
Qed.

(* ------------------------------------------------------------------ *)
(** ** The TVL section *)

Section Tvl.
Context {num json : Type}.
Variable _unix_to_iso_date : Z -> option string.

Local Abbreviation history_of detail :=
  (match Detail.tvl detail with Some l => l | None => [] end).

(** For a positive number of days the section lists the last entries of the
    history, as many as asked when there are enough, and the current TVL is
    the value of the last point listed (0 when the history is empty). *)
Theorem tvl_section_last_days (detail : Detail.t num json)
    (history_days : Z)
    (s : R.tvl_section) :
  (0 < history_days)%Z ->
  R._build_tvl_section _unix_to_iso_date detail history_days = R.Ok s ->
  R.comprehension (R.tvl_point_of _unix_to_iso_date)
    (skipn (length (history_of detail) - Z.to_nat history_days)
           (history_of detail)) = R.Ok (R.tvl_history s) /\
  length (R.tvl_history s) =
    Nat.min (Z.to_nat history_days) (length (history_of detail)) /\
  R.current_tvl_usd s =
    match R.last_item (R.tvl_history s) with
    | Some p => R.tvl_usd p
    | None => 0%Q
    end.
Proof.
  intros Hpos. unfold R._build_tvl_section.
  set (history := history_of detail).
  destruct (R.last_item history) as [e|] eqn:El.
  - destruct (last_item_split _ _ El) as [l' Hl'].
    destruct history as [|e0 h0] eqn:Eh; [now destruct l'|].
    rewrite <- Eh in *. clear Eh e0 h0.
    destruct (TvlEntry.totalLiquidityUSD e) as [v|] eqn:Ev; simpl;
      [|discriminate].
    rewrite (slice_last_days _ _ Hpos).
    destruct (R.comprehension _ _) as [points|err] eqn:Ec; simpl;
      [|discriminate].
    intros [= <-]. simpl. split; [reflexivity|]. split.
    + rewrite (comprehension_length _ _ _ Ec), length_skipn. lia.
    + rewrite Hl' in Ec. rewrite skipn_app in Ec.
      replace (length (l' ++ [e]) - Z.to_nat history_days - length l')
        with 0 in Ec by (rewrite length_app; simpl; lia).
      simpl in Ec. apply comprehension_app in Ec.
      destruct Ec as [ys1 [ys2 [-> [_ H2]]]]. simpl in H2.
      unfold R.tvl_point_of in H2.
      destruct (TvlEntry.date e) as [ts|]; simpl in H2; [|discriminate].
      destruct (R.iso_date _ ts) as [d|]; simpl in H2; [|discriminate].
      rewrite Ev in H2. simpl in H2. injection H2 as <-.
      now rewrite last_item_snoc.
  - unfold R.last_item in El. destruct history as [|e0 h0] eqn:Eh.
    + simpl. intros [= <-]. simpl. split; [reflexivity|].
      split; [now rewrite Nat.min_0_r|reflexivity].
    + exfalso. destruct (rev (e0 :: h0)) eqn:Er; [|discriminate].
      apply (f_equal (@length _)) in Er. rewrite length_rev in Er.
      discriminate.
Qed.

(** Asking for 0 days gives all of the history, exactly as asking for at
    least as many days as the history has. *)
Theorem tvl_section_zero_days_is_all (detail : Detail.t num json)
    (history_days : Z) :
  (Z.of_nat (length (history_of detail)) <= history_days)%Z ->
  R._build_tvl_section _unix_to_iso_date detail 0 =
  R._build_tvl_section _unix_to_iso_date detail history_days.
Proof.
  intros H. unfold R._build_tvl_section.
  destruct (history_of detail) as [|e l] eqn:E; [reflexivity|].
  rewrite (slice_everything history_days (e :: l) H).
  reflexivity.
Qed.

(** A negative number of days is not rejected: the section then leaves
    out that many of the oldest entries and lists the rest, while the
    current TVL is still read from the last entry of the whole history. *)
Theorem tvl_section_negative_days (detail : Detail.t num json)
    (history_days : Z) (s : R.tvl_section) :
  (history_days < 0)%Z ->
  R._build_tvl_section _unix_to_iso_date detail history_days = R.Ok s ->
  R.comprehension (R.tvl_point_of _unix_to_iso_date)
    (skipn (Z.to_nat (- history_days)) (history_of detail)) =
    R.Ok (R.tvl_history s) /\
  forall entry, R.last_item (history_of detail) = Some entry ->
    TvlEntry.totalLiquidityUSD entry = Some (R.current_tvl_usd s).
Proof.
  intros Hneg. unfold R._build_tvl_section.
  set (history := history_of detail).
  assert (Hs : R.slice_from (- history_days) history =
               skipn (Z.to_nat (- history_days)) history).
  { unfold R.slice_from.
    now replace (- history_days <? 0)%Z with false
      by (symmetry; apply Z.ltb_ge; lia). }
  destruct (R.last_item history) as [e|] eqn:El.
  - destruct (TvlEntry.totalLiquidityUSD e) as [v|] eqn:Ev; simpl;
      [|discriminate].
    destruct history as [|e0 h0] eqn:Eh; [discriminate El|].
    rewrite Hs.
    destruct (R.comprehension _ _) as [points|err]; simpl; [|discriminate].
    intros [= <-]. simpl. split; [reflexivity|]. now intros entry [= <-].
  - destruct history as [|e0 h0] eqn:Eh.
    + simpl. intros [= <-]. simpl. rewrite skipn_nil.
      split; [reflexivity|discriminate].
    + exfalso. unfold R.last_item in El.
      destruct (rev (e0 :: h0)) eqn:Er; [|discriminate].
      apply (f_equal (@length _)) in Er. rewrite length_rev in Er.
      discriminate.
Qed.

End Tvl.

Lemma tvl_section_negative_days_witness :
  R.comprehension (R.tvl_point_of ReportExamples.iso_year)
    (skipn (Z.to_nat (- (-1))) ReportExamples.history) =
    R.Ok [R.mk_tvl_point "1970-01-02" (7 # 1);
          R.mk_tvl_point "1970-01-03" (6 # 1)] /\
  forall entry, R.last_item ReportExamples.history = Some entry ->
    TvlEntry.totalLiquidityUSD entry = Some (6 # 1).
Proof.
  apply (tvl_section_negative_days ReportExamples.iso_year
           ReportExamples.detail (-1)
           (R.mk_tvl_section (6 # 1)
              [R.mk_tvl_point "1970-01-02" (7 # 1);
               R.mk_tvl_point "1970-01-03" (6 # 1)])).
  - reflexivity.
  - reflexivity.
Defined.

Lemma tvl_section_last_days_witness :
  R.comprehension (R.tvl_point_of ReportExamples.iso_year)
    (skipn (length ReportExamples.history - Z.to_nat 2)
           ReportExamples.history) =
    R.Ok [R.mk_tvl_point "1970-01-02" (7 # 1);
          R.mk_tvl_point "1970-01-03" (6 # 1)] /\
  length [R.mk_tvl_point "1970-01-02" (7 # 1);
          R.mk_tvl_point "1970-01-03" (6 # 1)] =
    Nat.min (Z.to_nat 2) (length ReportExamples.history) /\
  (6 # 1) =
    match R.last_item [R.mk_tvl_point "1970-01-02" (7 # 1);
                       R.mk_tvl_point "1970-01-03" (6 # 1)] with
    | Some p => R.tvl_usd p
    | None => 0%Q
    end.
Proof.
  apply (tvl_section_last_days ReportExamples.iso_year ReportExamples.detail 2
           (R.mk_tvl_section (6 # 1)
              [R.mk_tvl_point "1970-01-02" (7 # 1);
               R.mk_tvl_point "1970-01-03" (6 # 1)])).
  - reflexivity.
  - reflexivity.
Defined.

Lemma tvl_section_zero_days_is_all_witness :
  R._build_tvl_section ReportExamples.iso_year ReportExamples.detail 0 =
  R._build_tvl_section ReportExamples.iso_year ReportExamples.detail 30.
Proof.
  apply (tvl_section_zero_days_is_all ReportExamples.iso_year
           ReportExamples.detail 30).
  simpl. lia.
Defined.

(* ------------------------------------------------------------------ *)
(** ** The metadata *)

Lemma or_else_non_empty (a : option string) (b : string) :
  b <> "" -> R.or_else a b <> "".
Proof.
  intros Hb. unfold R.or_else. destruct a as [v|]; [|exact Hb].
  destruct (String.eqb v "") eqn:E; [exact Hb|]. now apply String.eqb_neq.
Qed.

(** The category of the report is never empty: it is the resolved category
    when there is a non-empty one, else the non-empty category of the
    detail, else ["Unknown"]. *)
Theorem metadata_category {num json : Type} (now : string)
    (detail : Detail.t num json)
    (meta : Resolution.t) :
  let c := R.category (R._build_metadata now detail meta) in
  c <> "" /\
  (truthy (Resolution.category meta) = true ->
   Resolution.category meta = Some c) /\
  (truthy (Resolution.category meta) = false ->
   truthy (Detail.category detail) = true ->
   Detail.category detail = Some c) /\
  (truthy (Resolution.category meta) = false ->
   truthy (Detail.category detail) = false -> c = "Unknown").
Proof.
  simpl. split.
  - apply or_else_non_empty, or_else_non_empty. discriminate.
  - unfold R.or_else, truthy.
    destruct (Resolution.category meta) as [a|];
      destruct (Detail.category detail) as [b|];
      try destruct (String.eqb a ""); try destruct (String.eqb b "");
      simpl; repeat split; intros; try discriminate; reflexivity.
Qed.

(* ------------------------------------------------------------------ *)
(** ** The hacks section *)

Section Hacks.
Context {num json : Type}.
Variables (zero : num) (add : num -> num -> num) (nonzero : num -> bool).
Variables (empty_list empty_string : json).
Variable _unix_to_iso_date : Z -> option string.

Local Abbreviation incident_of' :=
  (R.incident_of zero nonzero empty_list empty_string _unix_to_iso_date).
Local Abbreviation build' :=
  (R._build_hacks_section zero add nonzero empty_list empty_string
                          _unix_to_iso_date).

Lemma newer_first_total (x y : R.incident (num := num) (json := json)) :
  R.newer_first x y = false -> R.newer_first y x = true.
Proof.
  unfold R.newer_first. intros H.
  destruct (String.leb_total (R.incident_date y) (R.incident_date x));
    congruence.
Qed.

Lemma newer_first_trans (x y z : R.incident (num := num) (json := json)) :
  R.newer_first x y = true -> R.newer_first y z = true ->
  R.newer_first x z = true.
Proof.
  unfold R.newer_first. intros H1 H2.
  eapply DifflibFacts.string_leb_trans; eassumption.
Qed.

(** When the hacks section is built, it lists every hack it was given,
    once, from the newest date to the oldest, and counts them. *)
Theorem hacks_section_lists_every_hack (hacks : list (Hack.t num json))
    (s : R.hacks_section) :
  build' hacks = R.Ok s ->
  R.total_hacks s = length hacks /\
  (exists items,
     R.comprehension incident_of' hacks = R.Ok items /\
     Permutation (R.incidents s) items) /\
  StronglySorted
    (fun a b => String.leb (R.incident_date b) (R.incident_date a) = true)
    (R.incidents s).
Proof.
  unfold R._build_hacks_section.
  destruct (R.comprehension incident_of' hacks) as [items|e] eqn:E; simpl;
    [|discriminate].
  intros [= <-]. simpl. split; [|split].
  - rewrite PySortedFacts.sorted_length. now apply comprehension_length in E.
  - exists items. split; [reflexivity|apply PySortedFacts.sorted_perm].
  - apply (PySortedFacts.sorted_sorted R.newer_first newer_first_total
             newer_first_trans).
Qed.

(** The section is built exactly when every hack carries a date that the
    date formatting accepts: one record without a date fails the whole
    section. *)
Theorem hacks_section_needs_dates (hacks : list (Hack.t num json)) :
  (exists s, build' hacks = R.Ok s) <->
  forall h, In h hacks ->
    exists ts d, Hack.date h = Some ts /\ _unix_to_iso_date ts = Some d.
Proof.
  assert (Hone : forall h,
            (exists y, incident_of' h = R.Ok y) <->
            exists ts d, Hack.date h = Some ts /\ _unix_to_iso_date ts = Some d).
  { intros h. unfold R.incident_of, R.iso_date.
    destruct (Hack.date h) as [ts|]; simpl.
    - destruct (_unix_to_iso_date ts) as [d|] eqn:Ed; simpl.
      + split; [intros _; now exists ts, d|intros _; eexists; reflexivity].
      + split; [intros [y Hy]; discriminate|].
        intros [ts' [d [[= <-] Hd]]]. congruence.
    - split; [intros [y Hy]; discriminate|].
      intros [ts' [d [Hd _]]]. discriminate. }
  unfold R._build_hacks_section. split.
  - intros [s Hs] h Hh. apply Hone.
    apply (proj1 (comprehension_ok_iff incident_of' hacks)); [|exact Hh].
    destruct (R.comprehension incident_of' hacks) as [items|e];
      [now exists items|discriminate].
  - intros H.
    destruct (proj2 (comprehension_ok_iff incident_of' hacks)) as [items Hi].
    { intros h Hh. apply Hone. now apply H. }
    rewrite Hi. simpl. eexists. reflexivity.
Qed.

End Hacks.

Lemma hacks_section_lists_every_hack_witness :
  let s :=
    R.mk_hacks_section 3 5%Z 0%Z
      [R.mk_incident "1970-01-03" 0%Z "[]" "" "" 0%Z "";
       R.mk_incident "1970-01-02" 0%Z "[]" "" "" 0%Z "";
       R.mk_incident "1970-01-01" 5%Z "[]" "" "" 0%Z ""] in
  R.total_hacks s = length ReportExamples.hacks /\
  (exists items,
     R.comprehension
       (R.incident_of 0%Z (fun z => negb (Z.eqb z 0)) "[]" ""
                      ReportExamples.iso_year)
       ReportExamples.hacks = R.Ok items /\
     Permutation (R.incidents s) items) /\
  StronglySorted
    (fun a b => String.leb (R.incident_date b) (R.incident_date a) = true)
    (R.incidents s).
Proof.
  apply (hacks_section_lists_every_hack 0%Z Z.add (fun z => negb (Z.eqb z 0))
           "[]" "" ReportExamples.iso_year ReportExamples.hacks).
  reflexivity.
Defined.

(* ------------------------------------------------------------------ *)
(** ** The funding section *)

Section Funding.
Context {num json : Type}.
Variables (zero : num) (add : num -> num -> num) (nonzero : num -> bool).
Variable truth : json -> bool.
Variables (empty_list empty_string : json).
Variable _unix_to_iso_date : Z -> option string.

Local Abbreviation round_of' :=
  (R.round_of truth empty_list empty_string _unix_to_iso_date).
Local Abbreviation funding' :=
  (R._build_funding_section zero add nonzero truth empty_list empty_string
                            _unix_to_iso_date).

Lemma older_first_total (x y : R.funding_round (num := num) (json := json)) :
  R.older_first x y = false -> R.older_first y x = true.
Proof.
  unfold R.older_first. intros H.
  destruct (String.leb_total (R.round_date x) (R.round_date y)); congruence.
Qed.

Lemma older_first_trans (x y z : R.funding_round (num := num) (json := json)) :
  R.older_first x y = true -> R.older_first y z = true ->
  R.older_first x z = true.
Proof.
  unfold R.older_first. intros H1 H2.
  eapply DifflibFacts.string_leb_trans; eassumption.
Qed.

Lemma sum_or_zero_from
    (l : list (R.funding_round (num := num) (json := json))) (acc : num) :
  (forall x, add x zero = x) ->
  fold_left add
    (map (fun r => R.or_zero zero nonzero (R.amount_usd_millions r)) l) acc =
  fold_left add
    (flat_map (fun r => match R.amount_usd_millions r with
                        | Some v => if nonzero v then [v] else []
                        | None => []
                        end) l) acc.
Proof.
  intros Hz. revert acc. induction l as [|r l IH]; intros acc; [reflexivity|].
  simpl. unfold R.or_zero at 1.
  destruct (R.amount_usd_millions r) as [v|]; simpl.
  - destruct (nonzero v); simpl; [apply IH|]. rewrite Hz. apply IH.
  - rewrite Hz. apply IH.
Qed.

(** When the funding section is built, its rounds are all the raises of
    the detail, once each, from the oldest date to the newest; a detail
    without raises gives no rounds and the total of an empty sum. *)
Theorem funding_rounds_oldest_first (detail : Detail.t num json)
    (s : R.funding_section) :
  funding' detail = R.Ok s ->
  let raises := match Detail.raises detail with Some l => l | None => [] end in
  length (R.rounds s) = length raises /\
  (exists items,
     R.comprehension round_of' raises = R.Ok items /\
     Permutation (R.rounds s) items) /\
  StronglySorted
    (fun a b => String.leb (R.round_date a) (R.round_date b) = true)
    (R.rounds s) /\
  (raises = [] -> R.total_raised_usd_millions s = zero).
Proof.
  unfold R._build_funding_section.
  destruct (R.comprehension round_of' _) as [items|e] eqn:E; simpl;
    [|discriminate].
  intros [= <-]. simpl. split; [|split; [|split]].
  - rewrite PySortedFacts.sorted_length. now apply comprehension_length in E.
  - exists items. split; [reflexivity|apply PySortedFacts.sorted_perm].
  - apply (PySortedFacts.sorted_sorted R.older_first older_first_total
             older_first_trans).
  - intros Hr. rewrite Hr in E. simpl in E. injection E as <-. reflexivity.
Qed.

(** The total raised counts a round without an amount, or with the amount
    0, as nothing: it is the sum of the amounts that are present and not
    zero, in the order of the rounds. *)
Theorem funding_total_skips_missing_amounts (detail : Detail.t num json)
    (s : R.funding_section) :
  (forall x, add x zero = x) ->
  funding' detail = R.Ok s ->
  R.total_raised_usd_millions s =
  fold_left add
    (flat_map (fun r => match R.amount_usd_millions r with
                        | Some v => if nonzero v then [v] else []
                        | None => []
                        end) (R.rounds s))
    zero.
Proof.
  intros Hz. unfold R._build_funding_section.
  destruct (R.comprehension round_of' _) as [items|e]; simpl; [|discriminate].
  intros [= <-]. simpl. unfold R.sum. now apply sum_or_zero_from.
Qed.

End Funding.

Lemma funding_rounds_oldest_first_witness :
  let s :=
    R.mk_funding_section 25%Z
      [R.mk_funding_round "1970-01-01" (Some "Seed") None "[]" "[]" None "";
       R.mk_funding_round "1970-01-03" (Some "Series A") (Some 25%Z) "[]" "[]"
                          None "";
       R.mk_funding_round "1970-01-03" None (Some 0%Z) "[]" "[]" None ""] in
  length (R.rounds s) = length ReportExamples.raises /\
  (exists items,
     R.comprehension
       (R.round_of (fun v => negb (String.eqb v "[]")) "[]" ""
                   ReportExamples.iso_year)
       ReportExamples.raises = R.Ok items /\
     Permutation (R.rounds s) items) /\
  StronglySorted
    (fun a b => String.leb (R.round_date a) (R.round_date b) = true)
    (R.rounds s) /\
  (ReportExamples.raises = [] -> R.total_raised_usd_millions s = 0%Z).
Proof.
  apply (funding_rounds_oldest_first 0%Z Z.add (fun z => negb (Z.eqb z 0))
           (fun v => negb (String.eqb v "[]")) "[]" ""
           ReportExamples.iso_year ReportExamples.detail).
  reflexivity.
Defined.

Lemma funding_total_skips_missing_amounts_witness :
  25%Z = fold_left Z.add [25%Z] 0%Z.
Proof.
  apply (funding_total_skips_missing_amounts 0%Z Z.add
           (fun z => negb (Z.eqb z 0)) (fun v => negb (String.eqb v "[]"))
           "[]" "" ReportExamples.iso_year ReportExamples.detail
           (R.mk_funding_section 25%Z
              [R.mk_funding_round "1970-01-01" (Some "Seed") None "[]" "[]"
                                  None "";
               R.mk_funding_round "1970-01-03" (Some "Series A") (Some 25%Z)
                                  "[]" "[]" None "";
               R.mk_funding_round "1970-01-03" None (Some 0%Z) "[]" "[]"
                                  None ""])).
  - intros x. lia.
  - reflexivity.
Defined.

End ReportFacts.
